(** * Shifted CP decomposition (tensortools.cpwarp.shift_cp2) and
      Kruskal-tensor helpers (tensorly.kruskal)

    A shallow embedding of [fit_shift_cp2], [predict], [_fit_shift] and
    [_prevent_zeros] from [tensortools/cpwarp/shift_cp2.py], and of
    [standardize_kruskal] from [tensorly/kruskal.py].

    Conventions of the embedding.
    - A float64 is an exact rational in canonical form ([Qc]): rounding,
      overflow and NaN are outside the model.  [np.inf] is a separate
      constructor where the source uses it.
    - A numpy array is a (nested) list, read at an index with default 0.
      The functions are compiled by numba in nopython mode, which does not
      check array bounds; the theorems are about indices in range.
    - A division is fallible: numba's default error model
      ([error_model='python']) raises [ZeroDivisionError] on a zero divisor.
    - The boolean mask is kept as numpy stores it, a shape and a buffer in
      C order, and is read at the offset that the unchecked index computes.
    - The global random generator is an oracle read through a cursor kept in
      the state: [permutation] and [random] are the oracle's answers.
    - [numba.prange] loops are run in index order. *)

From Stdlib Require Import String.
From Stdlib Require Import List ZArith QArith Qcanon Qcabs Qround Lia Lqa Bool.
From Stdlib Require Import Permutation.
Import ListNotations.

Close Scope Qc_scope.
Close Scope Q_scope.

Set Implicit Arguments.

(** ** Exceptions and fallible computations *)

Inductive exn : Type :=
| ZeroDivisionError
| IndexError
| NameError
| AttributeError.

Inductive res (A : Type) : Type :=
| Ok (a : A)
| Raise (e : exn).

Arguments Ok {A} a.
Arguments Raise {A} e.

Definition bind {A B : Type} (m : res A) (k : A -> res B) : res B :=
  match m with
  | Ok a => k a
  | Raise e => Raise e
  end.

Notation "x <- m ;; k" := (bind m (fun x => k))
  (at level 61, m at next level, right associativity).
Notation "' pat <- m ;; k" := (bind m (fun x => match x with pat => k end))
  (at level 61, pat pattern, m at next level, right associativity).

(** A [for] loop whose body may raise. *)
Fixpoint for_each {A S : Type} (body : S -> A -> res S) (xs : list A) (s : S)
  : res S :=
  match xs with
  | [] => Ok s
  | x :: xs' => s' <- body s x ;; for_each body xs' s'
  end.

(** ** Numbers *)

Definition vec := list Qc.
Definition mat := list vec.
Definition tensor := list mat.

Definition of_Z (z : Z) : Qc := Q2Qc (inject_Z z).
Definition of_nat (n : nat) : Qc := of_Z (Z.of_nat n).

(** The float literals of the source. *)
Definition lit_1e_9 : Qc := Q2Qc (1 # 1000000000).
Definition lit_1e_8 : Qc := Q2Qc (1 # 100000000).
Definition lit_0_95 : Qc := Q2Qc (95 # 100).

Definition Qcltb (x y : Qc) : bool :=
  match (x ?= y)%Qc with Lt => true | _ => false end.
Definition Qcgtb (x y : Qc) : bool := Qcltb y x.

(** Python's [max(a, b)]: the second argument wins only when strictly
    greater. *)
Definition py_max (a b : Qc) : Qc := if Qcgtb b a then b else a.

(** [x / y] under numba's Python error model. *)
Definition fdiv (x y : Qc) : res Qc :=
  if Qc_eq_bool y 0%Qc then Raise ZeroDivisionError else Ok (x / y)%Qc.

(** [np.inf] or a finite float, for [best_loss] in [_fit_shift]. *)
Inductive ext : Type :=
| Inf
| Fin (x : Qc).

(** [loss > best] and [loss < best] for a finite [loss]. *)
Definition gt_ext (loss : Qc) (best : ext) : bool :=
  match best with Inf => false | Fin b => Qcgtb loss b end.
Definition lt_ext (loss : Qc) (best : ext) : bool :=
  match best with Inf => true | Fin b => Qcltb loss b end.

(** ** Arrays *)

Definition get1 (x : vec) (i : nat) : Qc := nth i x 0%Qc.
Definition row (m : mat) (r : nat) : vec := nth r m [].
Definition get2 (m : mat) (r i : nat) : Qc := get1 (row m r) i.
Definition slice (x : tensor) (n k : nat) : vec := row (nth n x []) k.
Definition get3 (x : tensor) (n k t : nat) : Qc := get1 (slice x n k) t.

(** [l[i] = x] on an index in range (out of range the list is unchanged). *)
Fixpoint upd {A : Type} (i : nat) (x : A) (l : list A) : list A :=
  match l, i with
  | [], _ => []
  | _ :: l', O => x :: l'
  | y :: l', S i' => y :: upd i' x l'
  end.

Definition set2 (m : mat) (r i : nat) (x : Qc) : mat :=
  upd r (upd i x (row m r)) m.
Definition set3 (a : tensor) (n k t : nat) (x : Qc) : tensor :=
  upd n (set2 (nth n a []) k t x) a.

(** [a @ b] for two vectors. *)
Definition dot (a b : vec) : Qc :=
  fold_left (fun acc p => (acc + fst p * snd p)%Qc) (combine a b) 0%Qc.

(** [-x], [np.maximum(0, x)], [np.all(x < 0)] on a vector. *)
Definition vneg (x : vec) : vec := map Qcopp x.
Definition np_maximum0 (x : vec) : vec := map (py_max 0%Qc) x.
Definition all_negative (x : vec) : bool := forallb (fun xi => Qcltb xi 0%Qc) x.

(** [a + c * b] and [a - b] on the first [T] entries. *)
Definition axpy (T : nat) (a : vec) (c : Qc) (b : vec) : vec :=
  map (fun t => (get1 a t + c * get1 b t)%Qc) (seq 0 T).
Definition vsub (T : nat) (a b : vec) : vec :=
  map (fun t => (get1 a t - get1 b t)%Qc) (seq 0 T).

(** [X - Xest] for arrays of shape (N, K, T), and [.ravel()]. *)
Definition tsub (N K T : nat) (a b : tensor) : tensor :=
  map (fun n => map (fun k => vsub T (slice a n k) (slice b n k)) (seq 0 K))
      (seq 0 N).
Definition ravel (a : tensor) : vec := concat (concat a).

(** Python's [l[i]] on a list, negative indices counted from the end. *)
Definition py_getitem (l : list Qc) (i : Z) : res Qc :=
  let len := Z.of_nat (length l) in
  let j := (if i <? 0 then i + len else i)%Z in
  if ((0 <=? j) && (j <? len))%Z
  then Ok (nth (Z.to_nat j) l 0%Qc)
  else Raise IndexError.

(** ** The shift operators

    [tensortools.cpwarp.padded_shifts] and
    [tensortools.cpwarp.periodic_shifts] are imported by the fitting code;
    their operations are the two records below.  The output buffer of the
    source ([Ww], [_WtW], [np.empty(T)]) is represented by its length. *)

Module padded_shifts.
Record ops : Type := {
  apply_shift : vec -> Qc -> nat -> vec;
  shift_gram : Qc -> nat -> mat;
  trans_shift : vec -> Qc -> nat -> vec;
  sym_bmat_mul : mat -> vec -> nat -> vec
}.
End padded_shifts.

Module periodic_shifts.
Record ops : Type := {
  apply_shift : vec -> Qc -> nat -> vec;
  shift_gram : Qc -> Qc * Qc;
  trans_shift : vec -> Qc -> nat -> vec;
  rojo_solve : Qc -> Qc -> vec -> vec -> nat -> res vec
}.
End periodic_shifts.

(** ** The random generator

    [permutation i n] is the answer of [npr.permutation(n)] at the [i]-th
    outer iteration; [random g] is the [g]-th draw of the unit-interval
    generator behind [np.random.rand] and [npr.uniform]. *)
Record oracle : Type := {
  permutation : nat -> Z -> list nat;
  random : nat -> Qc
}.

Section Randomness.

Variable rnd : oracle.

(** [npr.uniform(low, high)]: [low + (high - low) * random()]. *)
Definition uniform (low high : Qc) (g : nat) : Qc * nat :=
  ((low + (high - low) * random rnd g)%Qc, S g).

(** [np.random.rand(n)]. *)
Definition rand (n : nat) (g : nat) : vec * nat :=
  (map (random rnd) (seq g n), (g + n)%nat).

(** [_prevent_zeros(x)]: [x] is left alone as soon as one entry exceeds
    1e-9 in magnitude, and is redrawn otherwise. *)
Definition _prevent_zeros (x : vec) (g : nat) : vec * nat :=
  if existsb (fun xi => Qcgtb (Qcabs xi) lit_1e_9) x
  then (x, g)
  else rand (length x) g.

End Randomness.

(** ** The fitting code *)

(** The arrays that a call mutates in place, and the generator's cursor. *)
Record state : Type := mkState {
  st_X : tensor;
  st_u : mat;
  st_v : mat;
  st_w : mat;
  st_u_s : mat;
  st_v_s : mat;
  st_rng : nat
}.

Definition with_X (st : state) (a : tensor) : state :=
  mkState a (st_u st) (st_v st) (st_w st) (st_u_s st) (st_v_s st) (st_rng st).
Definition with_u (st : state) (a : mat) : state :=
  mkState (st_X st) a (st_v st) (st_w st) (st_u_s st) (st_v_s st) (st_rng st).
Definition with_v (st : state) (a : mat) : state :=
  mkState (st_X st) (st_u st) a (st_w st) (st_u_s st) (st_v_s st) (st_rng st).
Definition with_w (st : state) (a : mat) : state :=
  mkState (st_X st) (st_u st) (st_v st) a (st_u_s st) (st_v_s st) (st_rng st).
Definition with_u_s (st : state) (a : mat) : state :=
  mkState (st_X st) (st_u st) (st_v st) (st_w st) a (st_v_s st) (st_rng st).
Definition with_v_s (st : state) (a : mat) : state :=
  mkState (st_X st) (st_u st) (st_v st) (st_w st) (st_u_s st) a (st_rng st).
Definition with_rng (st : state) (g : nat) : state :=
  mkState (st_X st) (st_u st) (st_v st) (st_w st) (st_u_s st) (st_v_s st) g.

(** A boolean array of three dimensions as numpy stores it: its shape and
    its buffer in C order.  [mask.size] is the product of the shape.  The
    read [mask[n, k, t]] is compiled without a bounds check: for a mask of
    shape [(N', K', T')] it fetches the buffer at offset
    [(n * K' + k) * T' + t], whatever the shape of [X].  A read past the
    end of the buffer is undefined in the program; the model answers
    [true] there, and the statements on masked entries are about a mask of
    the shape of [X], all of whose reads are inside the buffer. *)
Record bool_array : Type := mkMask {
  mask_shape : nat * nat * nat;
  mask_data : list bool
}.

Definition mask_size (m : bool_array) : nat :=
  let '(a, b, c) := mask_shape m in a * b * c.
Definition mask_at (m : bool_array) (n k t : nat) : bool :=
  let '(_, b, c) := mask_shape m in
  nth ((n * b + k) * c + t) (mask_data m) true.

(** A mask of shape (N, K, T), with a buffer of that size. *)
Definition mask_matches (m : bool_array) (N K T : nat) : Prop :=
  mask_shape m = (N, K, T) /\ length (mask_data m) = N * K * T.

(** The arguments that a call only reads; [dim_N], [dim_K], [dim_T] are
    [X.shape]. *)
Record config : Type := mkConfig {
  dim_N : nat;
  dim_K : nat;
  dim_T : nat;
  Xnorm : Qc;
  rank : Z;
  mask : bool_array;
  min_iter : Z;
  max_iter : Z;
  tol : Qc;
  warp_iterations : Z;
  max_shift_axis0 : Qc;
  max_shift_axis1 : Qc;
  u_nonneg : bool;
  v_nonneg : bool;
  periodic : bool;
  patience : Z
}.

Section Fit.

Variable P : padded_shifts.ops.
Variable C : periodic_shifts.ops.
Variable rnd : oracle.
(** [np.linalg.norm] on a flat array. *)
Variable linalg_norm : vec -> Qc.

(** [periodic_shifts.apply_shift(x, s, out)] or
    [padded_shifts.apply_shift(x, s, out)], by the boundary mode. *)
Definition shifted (periodic : bool) (x : vec) (s : Qc) (T : nat) : vec :=
  if periodic
  then periodic_shifts.apply_shift C x s T
  else padded_shifts.apply_shift P x s T.

Definition transposed (periodic : bool) (x : vec) (s : Qc) (T : nat) : vec :=
  if periodic
  then periodic_shifts.trans_shift C x s T
  else padded_shifts.trans_shift P x s T.

(** *** [predict] *)

Definition predict_slice (u v w u_s v_s : mat) (periodic : bool) (T : nat)
    (skip_dim : Z) (n k : nat) : vec :=
  fold_left
    (fun result r =>
       if (Z.of_nat r =? skip_dim)%Z then result
       else
         let shift := (get2 u_s r n + get2 v_s r k)%Qc in
         let wshift := shifted periodic (row w r) shift T in
         map (fun t => (get1 result t
                        + get1 wshift t * get2 u r n * get2 v r k)%Qc)
             (seq 0 T))
    (seq 0 (length u)) (repeat 0%Qc T).

Definition predict (u v w u_s v_s : mat) (periodic : bool) (N K T : nat)
    (skip_dim : Z) : tensor :=
  map (fun n =>
         map (fun k => predict_slice u v w u_s v_s periodic T skip_dim n k)
             (seq 0 K))
      (seq 0 N).

(** *** [_fit_shift] *)

Section FitShift.

Variables (Zm : mat) (y : Qc) (f f_s w : vec) (max_shift : Qc).
Variables (periodic : bool) (n_iter : Z) (init_shift : Qc) (M T : nat).

(** One row of the block added to the running loss of candidate [s]. *)
Definition add_row_loss (s : Qc) (loss : Qc) (m : nat) : Qc :=
  let Ww := shifted periodic w (s + get1 f_s m)%Qc T in
  let yf := (y * get1 f m)%Qc in
  fold_left
    (fun loss t =>
       let resid := (get2 Zm m t - yf * get1 Ww t)%Qc in
       (loss + resid * resid)%Qc)
    (seq 0 T) loss.

(** The row loop, left as soon as the running loss exceeds [best_loss]. *)
Fixpoint row_loop (s : Qc) (best_loss : ext) (ms : list nat) (loss : Qc) : Qc :=
  match ms with
  | [] => loss
  | m :: ms' =>
      let loss' := add_row_loss s loss m in
      if gt_ext loss' best_loss then loss'
      else row_loop s best_loss ms' loss'
  end.

(** The [i]-th candidate and the cursor after drawing it. *)
Definition sample (i : nat) (g : nat) : Qc * nat :=
  if Nat.eqb i 0 then (init_shift, g)
  else uniform rnd (- max_shift)%Qc max_shift g.

(** One pass of the candidate loop on [(best_loss, best_shift, cursor)]. *)
Definition try_candidate (acc : ext * Qc * nat) (i : nat) : ext * Qc * nat :=
  let '(best_loss, best_shift, g) := acc in
  let '(s, g') := sample i g in
  let loss := row_loop s best_loss (seq 0 M) 0%Qc in
  if lt_ext loss best_loss then (Fin loss, s, g')
  else (best_loss, best_shift, g').

Definition _fit_shift (g : nat) : Qc * nat :=
  let '(_, best_shift, g') :=
    fold_left try_candidate (seq 0 (Z.to_nat n_iter)) (Inf, 0%Qc, g) in
  (best_shift, g').

End FitShift.

(** *** The five parameter groups of [fit_shift_cp2] *)

Variable cfg : config.

Local Abbreviation N := (dim_N cfg).
Local Abbreviation K := (dim_K cfg).
Local Abbreviation T := (dim_T cfg).

(** [num] and [denom] of the axis-0 ratio at index [n], accumulated over
    [k]. *)
Definition ratio_u (Zr : tensor) (r : nat) (st : state) (n : nat) : Qc * Qc :=
  fold_left
    (fun acc k =>
       let '(num, denom) := acc in
       let Ww := shifted (periodic cfg) (row (st_w st) r)
                   (get2 (st_u_s st) r n + get2 (st_v_s st) r k)%Qc T in
       ((num + get2 (st_v st) r k * dot (slice Zr n k) Ww)%Qc,
        (denom + get2 (st_v st) r k * get2 (st_v st) r k * dot Ww Ww)%Qc))
    (seq 0 K) (0%Qc, 0%Qc).

(** [num] and [denom] of the axis-1 ratio at index [k], accumulated over
    [n]. *)
Definition ratio_v (Zr : tensor) (r : nat) (st : state) (k : nat) : Qc * Qc :=
  fold_left
    (fun acc n =>
       let '(num, denom) := acc in
       let Ww := shifted (periodic cfg) (row (st_w st) r)
                   (get2 (st_u_s st) r n + get2 (st_v_s st) r k)%Qc T in
       ((num + get2 (st_u st) r n * dot (slice Zr n k) Ww)%Qc,
        (denom + get2 (st_u st) r n * get2 (st_u st) r n * dot Ww Ww)%Qc))
    (seq 0 N) (0%Qc, 0%Qc).

(** [u[r, n] = num / denom] for one [n], and for every [n]. *)
Definition set_u_entry (Zr : tensor) (r : nat) (st : state) (n : nat)
  : res state :=
  let '(num, denom) := ratio_u Zr r st n in
  x <- fdiv num denom ;;
  Ok (with_u st (set2 (st_u st) r n x)).

Definition set_v_entry (Zr : tensor) (r : nat) (st : state) (k : nat)
  : res state :=
  let '(num, denom) := ratio_v Zr r st k in
  x <- fdiv num denom ;;
  Ok (with_v st (set2 (st_v st) r k x)).

(** The sign flip, the projection and [_prevent_zeros] that close the
    axis-0 update. *)
Definition finish_u (r : nat) (st : state) : state :=
  let st1 :=
    if all_negative (row (st_u st) r)
    then with_w (with_u st (upd r (vneg (row (st_u st) r)) (st_u st)))
                (upd r (vneg (row (st_w st) r)) (st_w st))
    else st in
  let st2 :=
    if u_nonneg cfg
    then with_u st1 (upd r (np_maximum0 (row (st_u st1) r)) (st_u st1))
    else st1 in
  let '(x, g) := _prevent_zeros rnd (row (st_u st2) r) (st_rng st2) in
  with_rng (with_u st2 (upd r x (st_u st2))) g.

Definition finish_v (r : nat) (st : state) : state :=
  let st1 :=
    if all_negative (row (st_v st) r)
    then with_w (with_v st (upd r (vneg (row (st_v st) r)) (st_v st)))
                (upd r (vneg (row (st_w st) r)) (st_w st))
    else st in
  let st2 :=
    if v_nonneg cfg
    then with_v st1 (upd r (np_maximum0 (row (st_v st1) r)) (st_v st1))
    else st1 in
  let '(x, g) := _prevent_zeros rnd (row (st_v st2) r) (st_rng st2) in
  with_rng (with_v st2 (upd r x (st_v st2))) g.

(** [q == 0] and [q == 1]. *)
Definition update_u (Zr : tensor) (r : nat) (st : state) : res state :=
  st' <- for_each (set_u_entry Zr r) (seq 0 N) st ;;
  Ok (finish_u r st').

Definition update_v (Zr : tensor) (r : nat) (st : state) : res state :=
  st' <- for_each (set_v_entry Zr r) (seq 0 K) st ;;
  Ok (finish_v r st').

(** All pairs [(n, k)] in the order of the nested loops. *)
Definition pairs : list (nat * nat) :=
  flat_map (fun n => map (fun k => (n, k)) (seq 0 K)) (seq 0 N).

(** [q == 2], periodic boundary: the circulant normal equations and their
    solver. *)
Definition periodic_system (Zr : tensor) (r : nat) (st : state)
  : Qc * Qc * vec :=
  fold_left
    (fun acc nk =>
       let '(d, off_d, rhs) := acc in
       let '(n, k) := nk in
       let shift := (get2 (st_u_s st) r n + get2 (st_v_s st) r k)%Qc in
       let u_v := (get2 (st_u st) r n * get2 (st_v st) r k)%Qc in
       let u_v2 := (u_v * u_v)%Qc in
       let '(_d, _off_d) := periodic_shifts.shift_gram C shift in
       ((d + u_v2 * _d)%Qc, (off_d + u_v2 * _off_d)%Qc,
        axpy T rhs u_v (periodic_shifts.trans_shift C (slice Zr n k) shift T)))
    pairs (0%Qc, 0%Qc, repeat 0%Qc T).

Definition update_w_periodic (Zr : tensor) (r : nat) (st : state)
  : res state :=
  let '(d, off_d, rhs) := periodic_system Zr r st in
  x <- periodic_shifts.rojo_solve C d off_d rhs (row (st_w st) r) T ;;
  Ok (with_w st (upd r x (st_w st))).

(** [q == 2], padded boundary.  The banded Gram matrix [WtW] has two rows:
    row 0 the off-diagonal, row 1 (also row -1) the diagonal. *)
Definition padded_system (Zr : tensor) (r : nat) (st : state) : mat * vec :=
  fold_left
    (fun acc nk =>
       let '(WtW, rhs) := acc in
       let '(n, k) := nk in
       let shift := (get2 (st_u_s st) r n + get2 (st_v_s st) r k)%Qc in
       let u_v := (get2 (st_u st) r n * get2 (st_v st) r k)%Qc in
       let u_v2 := (u_v * u_v)%Qc in
       let G := padded_shifts.shift_gram P shift T in
       ([axpy T (row WtW 0) u_v2 (row G 0); axpy T (row WtW 1) u_v2 (row G 1)],
        axpy T rhs u_v (padded_shifts.trans_shift P (slice Zr n k) shift T)))
    pairs
    ([repeat 0%Qc T; map (fun x => (x + lit_1e_8)%Qc) (repeat 0%Qc T)],
     repeat 0%Qc T).

(** The bound on the Lipschitz constant. *)
Definition lipschitz (WtW : mat) : Qc :=
  fold_left
    (fun L i =>
       let Li := (get2 WtW 1 i + get2 WtW 0 i + get2 WtW 0 (i + 1))%Qc in
       if Qcgtb Li L then Li else L)
    (seq 1 (T - 1 - 1))
    (py_max (get2 WtW 1 0 + get2 WtW 0 1)%Qc
            (get2 WtW 1 (T - 1) + get2 WtW 0 (T - 1))%Qc).

(** One pass of [for itr in range(10)] on the row [w[r]]. *)
Definition gradient_step (WtW : mat) (rhs : vec) (ss : Qc) (wr : vec) : vec :=
  let ug := padded_shifts.sym_bmat_mul P WtW wr T in
  let grad := vsub T ug rhs in
  fold_left
    (fun wr t => upd t (py_max 0%Qc (get1 wr t - ss * get1 grad t)%Qc) wr)
    (seq 0 T) wr.

Definition update_w_padded (Zr : tensor) (r : nat) (st : state) : res state :=
  let '(WtW, rhs) := padded_system Zr r st in
  let L := lipschitz WtW in
  ss <- fdiv lit_0_95 L ;;
  let wr :=
    fold_left (fun wr _ => gradient_step WtW rhs ss wr) (seq 0 10)
              (row (st_w st) r) in
  Ok (with_w st (upd r wr (st_w st))).

(** [q == 3] and [q == 4]: one [_fit_shift] per index. *)
Definition update_u_s (Zr : tensor) (r : nat) (st : state) : state :=
  fold_left
    (fun st n =>
       let '(s, g) :=
         _fit_shift (nth n Zr []) (get2 (st_u st) r n) (row (st_v st) r)
           (row (st_v_s st) r) (row (st_w st) r)
           (max_shift_axis0 cfg * of_nat T)%Qc (periodic cfg)
           (warp_iterations cfg) (get2 (st_u_s st) r n) K T (st_rng st) in
       with_rng (with_u_s st (set2 (st_u_s st) r n s)) g)
    (seq 0 N) st.

Definition update_v_s (Zr : tensor) (r : nat) (st : state) : state :=
  fold_left
    (fun st k =>
       let '(s, g) :=
         _fit_shift (map (fun Zn => row Zn k) Zr) (get2 (st_v st) r k)
           (row (st_u st) r) (row (st_u_s st) r) (row (st_w st) r)
           (max_shift_axis1 cfg * of_nat T)%Qc (periodic cfg)
           (warp_iterations cfg) (get2 (st_v_s st) r k) N T (st_rng st) in
       with_rng (with_v_s st (set2 (st_v_s st) r k s)) g)
    (seq 0 K) st.

(** *** The main loop *)

(** [predict(u, v, w, u_s, v_s, periodic, Xest, skip_dim)] on a state. *)
Definition estimate (st : state) (skip_dim : Z) : tensor :=
  predict (st_u st) (st_v st) (st_w st) (st_u_s st) (st_v_s st)
          (periodic cfg) N K T skip_dim.

(** The body of [for z in npr.permutation(rank * 5)]. *)
Definition update_group (itercount : Z) (st : state) (z : nat) : res state :=
  let r := (z / 5)%nat in
  let q := (z mod 5)%nat in
  let Zr := tsub N K T (st_X st) (estimate st (Z.of_nat r)) in
  if Nat.eqb q 0 then update_u Zr r st
  else if Nat.eqb q 1 then update_v Zr r st
  else if Nat.eqb q 2 then
    if periodic cfg then update_w_periodic Zr r st
    else update_w_padded Zr r st
  else if Nat.eqb q 3 && (itercount >? 0)%Z then Ok (update_u_s Zr r st)
  else if Nat.eqb q 4 && (itercount >? 0)%Z then Ok (update_v_s Zr r st)
  else Ok st.

Definition masked : bool := Nat.eqb (mask_size (mask cfg)) (N * K * T).

(** The imputation loop. *)
Definition impute (Xest X : tensor) : tensor :=
  fold_left
    (fun X n =>
       fold_left
         (fun X k =>
            fold_left
              (fun X t =>
                 if negb (mask_at (mask cfg) n k t)
                 then set3 X n k t (get3 Xest n k t)
                 else X)
              (seq 0 T) X)
         (seq 0 K) X)
    (seq 0 N) X.

(** One pass of the [while] body up to the computation of [loss]. *)
Definition outer_iteration (itercount : Z) (st : state) : res (state * Qc) :=
  st1 <- for_each (update_group itercount)
           (permutation rnd (Z.to_nat itercount) (rank cfg * 5)) st ;;
  let Xest := estimate st1 (-1) in
  let st2 := if masked then with_X st1 (impute Xest (st_X st1)) else st1 in
  loss <- fdiv (linalg_norm (ravel (tsub N K T (st_X st2) Xest))) (Xnorm cfg) ;;
  Ok (st2, loss).

(** The variables of the [while] loop. *)
Record loop_state : Type := mkLoop {
  ls_state : state;
  itercount : Z;
  loss_hist : list Qc;
  converged : bool
}.

(** [min_iter = max(patience, min_iter)]. *)
Definition min_iter' : Z := Z.max (patience cfg) (min_iter cfg).

Definition guard (ls : loop_state) : bool :=
  (itercount ls <? max_iter cfg)%Z && negb (converged ls).

(** The convergence test that closes the body. *)
Definition check_converged (count : Z) (hist : list Qc) (old : bool)
  : res bool :=
  if (count >? min_iter')%Z then
    a <- py_getitem hist (- patience cfg) ;;
    b <- py_getitem hist (-1) ;;
    Ok (Qcltb (Qcabs (a - b)) (tol cfg))
  else Ok old.

Definition while_body (ls : loop_state) : res loop_state :=
  '(st, loss) <- outer_iteration (itercount ls) (ls_state ls) ;;
  let count := (itercount ls + 1)%Z in
  let hist := loss_hist ls ++ [loss] in
  c <- check_converged count hist (converged ls) ;;
  Ok (mkLoop st count hist c).

(** The [while] loop; [max_iter] passes always suffice (see
    [main_loop_guard]). *)
Fixpoint main_loop (fuel : nat) (ls : loop_state) : res loop_state :=
  match fuel with
  | O => Ok ls
  | S fuel' =>
      if guard ls then ls' <- while_body ls ;; main_loop fuel' ls'
      else Ok ls
  end.

Definition fit_run (st : state) : res loop_state :=
  main_loop (Z.to_nat (max_iter cfg)) (mkLoop st 0 [] false).

Definition fit_shift_cp2 (st : state)
  : res (mat * mat * mat * mat * mat * list Qc) :=
  ls <- fit_run st ;;
  let s := ls_state ls in
  Ok (st_u s, st_v s, st_w s, st_u_s s, st_v_s s, loss_hist ls).

End Fit.

(** ** The shift operators, from their specification

    The bodies of [padded_shifts] and [periodic_shifts] are not part of the
    sources at hand.  The instances below follow the specification; they
    are used to run the fitting code on concrete inputs, while the general
    theorems hold for every instance of the two records. *)

(** [x[j]] for an integer position, 0 outside the array. *)
Definition at_or_zero (x : vec) (T : nat) (j : Z) : Qc :=
  if ((0 <=? j) && (j <? Z.of_nat T))%Z then get1 x (Z.to_nat j) else 0%Qc.

(** [x[j mod T]]. *)
Definition at_wrapped (x : vec) (T : nat) (j : Z) : Qc :=
  get1 x (Z.to_nat (j mod Z.of_nat T)).

(** The integer and the fractional part of a shift. *)
Definition whole (s : Qc) : Z := Qfloor s.
Definition frac (s : Qc) : Qc := (s - of_Z (whole s))%Qc.

Definition indicator (b : bool) : Qc := if b then 1%Qc else 0%Qc.
Definition in_range (T : nat) (j : Z) : bool :=
  ((0 <=? j) && (j <? Z.of_nat T))%Z.

Module padded_model.

(** Modelled from the spec: [padded_shifts.apply_shift], the profile read at
    the fractional offset [t + shift] by linear interpolation between the
    two adjacent samples, positions outside [0, T) counting as 0. *)
Definition apply_shift (x : vec) (s : Qc) (T : nat) : vec :=
  map (fun t =>
         let j := (Z.of_nat t + whole s)%Z in
         ((1 - frac s) * at_or_zero x T j + frac s * at_or_zero x T (j + 1))%Qc)
      (seq 0 T).

(** Modelled from the spec: [padded_shifts.trans_shift], the transpose of
    the interpolation operator applied to a residual of length T. *)
Definition trans_shift (a : vec) (s : Qc) (T : nat) : vec :=
  map (fun j =>
         let t := (Z.of_nat j - whole s)%Z in
         ((1 - frac s) * at_or_zero a T t + frac s * at_or_zero a T (t - 1))%Qc)
      (seq 0 T).

(** Modelled from the spec: [padded_shifts.shift_gram], the Gram matrix of
    the interpolation operator in banded form, row 0 the off-diagonal
    (entry [j] couples positions [j - 1] and [j]) and row 1 the diagonal. *)
Definition shift_gram (s : Qc) (T : nat) : mat :=
  [ map (fun j =>
           let t := (Z.of_nat j - 1 - whole s)%Z in
           if Nat.eqb j 0 then 0%Qc
           else ((1 - frac s) * frac s * indicator (in_range T t))%Qc)
        (seq 0 T);
    map (fun j =>
           let t := (Z.of_nat j - whole s)%Z in
           ((1 - frac s) * (1 - frac s) * indicator (in_range T t)
            + frac s * frac s * indicator (in_range T (t - 1)))%Qc)
        (seq 0 T) ].

(** Modelled from the spec: [padded_shifts.sym_bmat_mul], the product of a
    symmetric banded matrix in the two-row form with a dense vector. *)
Definition sym_bmat_mul (S : mat) (x : vec) (T : nat) : vec :=
  map (fun t =>
         (get2 S 1 t * get1 x t
          + (if Nat.eqb t 0 then 0 else get2 S 0 t * get1 x (t - 1))
          + (if Nat.ltb (t + 1) T then get2 S 0 (t + 1) * get1 x (t + 1)
             else 0))%Qc)
      (seq 0 T).

Definition ops : padded_shifts.ops :=
  padded_shifts.Build_ops apply_shift shift_gram trans_shift sym_bmat_mul.

End padded_model.

Module periodic_model.

(** Modelled from the spec: [periodic_shifts.apply_shift], as in the padded
    case with indices wrapped modulo T. *)
Definition apply_shift (x : vec) (s : Qc) (T : nat) : vec :=
  map (fun t =>
         let j := (Z.of_nat t + whole s)%Z in
         ((1 - frac s) * at_wrapped x T j + frac s * at_wrapped x T (j + 1))%Qc)
      (seq 0 T).

(** Modelled from the spec: [periodic_shifts.trans_shift], the transpose of
    the wrapped interpolation operator. *)
Definition trans_shift (a : vec) (s : Qc) (T : nat) : vec :=
  map (fun j =>
         let t := (Z.of_nat j - whole s)%Z in
         ((1 - frac s) * at_wrapped a T t + frac s * at_wrapped a T (t - 1))%Qc)
      (seq 0 T).

(** Modelled from the spec: [periodic_shifts.shift_gram], the diagonal and
    the off-diagonal entry of the circulant Gram matrix. *)
Definition shift_gram (s : Qc) : Qc * Qc :=
  (((1 - frac s) * (1 - frac s) + frac s * frac s)%Qc,
   ((1 - frac s) * frac s)%Qc).

(** Row [t] of the circulant system [d * x[t] + off_d * (x[t-1] + x[t+1])]
    with its right-hand side appended. *)
Definition circulant_row (d off_d : Qc) (rhs : vec) (T t : nat) : vec :=
  map (fun j =>
         (indicator (Nat.eqb j t) * d
          + indicator (Nat.eqb j ((t + 1) mod T)) * off_d
          + indicator (Nat.eqb ((j + 1) mod T) t) * off_d)%Qc)
      (seq 0 T)
  ++ [get1 rhs t].

(** The first row at or after position [c] with a non-zero entry in column
    [c]. *)
Fixpoint find_pivot (c : nat) (rows : list vec) (i : nat) : option nat :=
  match rows with
  | [] => None
  | x :: rows' =>
      if Nat.leb c i && negb (Qc_eq_bool (get1 x c) 0%Qc) then Some i
      else find_pivot c rows' (S i)
  end.

(** Gauss-Jordan elimination of column [c]. *)
Definition eliminate (rows : list vec) (c : nat) : res (list vec) :=
  match find_pivot c rows 0 with
  | None => Raise ZeroDivisionError
  | Some p =>
      let pivot_row := nth p rows [] in
      let rows1 := upd p (nth c rows []) (upd c pivot_row rows) in
      let lead := map (fun x => (x / get1 pivot_row c)%Qc) pivot_row in
      Ok (map (fun ix =>
                 let '(i, x) := ix in
                 if Nat.eqb i c then lead
                 else map (fun jy =>
                             let '(j, y) := jy in
                             (y - get1 x c * get1 lead j)%Qc)
                          (combine (seq 0 (length x)) x))
              (combine (seq 0 (length rows1)) rows1))
  end.

(** Modelled from the spec: [periodic_shifts.rojo_solve], the exact solution
    of the circulant tridiagonal system, written into the row of [w]; a
    singular system is a division by zero. *)
Definition rojo_solve (d off_d : Qc) (rhs : vec) (out : vec) (T : nat)
  : res vec :=
  rows <- for_each eliminate (seq 0 T)
            (map (circulant_row d off_d rhs T) (seq 0 T)) ;;
  Ok (map (fun x => get1 x T) rows).

Definition ops : periodic_shifts.ops :=
  periodic_shifts.Build_ops apply_shift shift_gram trans_shift rojo_solve.

End periodic_model.

(** A stand-in for [np.linalg.norm]: the square root of the sum of squares,
    rounded down to eight decimal places. *)
Definition sqrt_down (x : Qc) : Qc :=
  Q2Qc (Z.sqrt (Qfloor (x * of_Z (10 ^ 16))%Qc) # 100000000).
Definition norm_model (x : vec) : Qc := sqrt_down (dot x x).

(** ** [tensorly.kruskal.standardize_kruskal] *)

(** A two-dimensional numpy array with its shape. *)
Record ndarray : Type := mkArray {
  shape : nat * nat;
  entries : mat
}.

(** The names bound where [standardize_kruskal] runs its inner loop: the
    locals assigned so far, the globals of the module, and the builtins the
    function uses. *)
Definition local_names : list string :=
  ["factors"; "ndim"; "rank"; "lam"; "nrm_factors"; "fact"; "n_fact"]%string.
Definition global_names : list string :=
  ["np"; "fold"; "tensor_to_vec"; "khatri_rao"; "kruskal_to_tensor";
   "kruskal_to_unfolded"; "kruskal_to_vec"; "plot_kruskal";
   "standardize_kruskal"; "align_kruskal"]%string.
Definition builtin_names : list string :=
  ["len"; "zip"; "range"]%string.

(** What a name of the scope is bound to; none of them carries a [rank]
    attribute that the model needs to read. *)
Inductive pyobj : Type :=
| Bound (name : string).

(** Evaluation of a name: [NameError] when it is bound nowhere. *)
Definition lookup_name (name : string) : res pyobj :=
  if existsb (String.eqb name) (local_names ++ global_names ++ builtin_names)
  then Ok (Bound name)
  else Raise NameError.

(** [obj.rank] on an object of the scope. *)
Definition getattr_rank (obj : pyobj) : res nat := Raise AttributeError.

Definition column (a : ndarray) (r : nat) : vec :=
  map (fun x => get1 x r) (entries a).
Definition set_column (a : ndarray) (r : nat) (c : vec) : ndarray :=
  mkArray (shape a)
          (map (fun ix => upd r (get1 c (fst ix)) (snd ix))
               (combine (seq 0 (length (entries a))) (entries a))).
Definition select_columns (a : ndarray) (prm : list nat) : ndarray :=
  mkArray (fst (shape a), length prm)
          (map (fun x => map (get1 x) prm) (entries a)).

Section Kruskal.

Variable linalg_norm : vec -> Qc.
(** [np.argsort(lam)[::-1]]. *)
Variable argsort_reversed : vec -> list nat.

Definition lit_1e_20 : Qc := Q2Qc (1 # 100000000000000000000).

(** The body of [for r in range(self.rank)]. *)
Definition normalize_column (fact : ndarray) (acc : ndarray * vec) (r : nat)
  : res (ndarray * vec) :=
  let '(n_fact, lam) := acc in
  let s := linalg_norm (column fact r) in
  let s := if Qcltb s lit_1e_20 then (s + lit_1e_20)%Qc else s in
  Ok (set_column n_fact r (map (fun x => (x / s)%Qc) (column fact r)),
      upd r (get1 lam r * s)%Qc lam).

(** The body of [for fact, n_fact in zip(factors, nrm_factors)]. *)
Definition normalize_factor (acc : list ndarray * vec)
    (pair : ndarray * ndarray) : res (list ndarray * vec) :=
  let '(done, lam) := acc in
  let '(fact, n_fact) := pair in
  self <- lookup_name "self" ;;
  bound <- getattr_rank self ;;
  '(n_fact', lam') <- for_each (normalize_column fact) (seq 0 bound)
                        (n_fact, lam) ;;
  Ok (done ++ [n_fact'], lam').

Definition standardize_kruskal (factors : list ndarray)
  : res (list ndarray * vec) :=
  match factors with
  | [] => Raise IndexError
  | first :: _ =>
      let rank := snd (shape first) in
      let lam := repeat 1%Qc rank in
      let nrm_factors :=
        map (fun fact =>
               mkArray (shape fact)
                       (repeat (repeat 0%Qc (snd (shape fact)))
                               (fst (shape fact))))
            factors in
      '(nrm_factors', lam') <-
        for_each normalize_factor (combine factors nrm_factors) ([], lam) ;;
      let prm := argsort_reversed lam' in
      Ok (map (fun n_fact => select_columns n_fact prm) nrm_factors',
          map (get1 lam') prm)
  end.

End Kruskal.

(** ** Vocabulary of the statements *)

(** The parts of the state that a parameter group leaves alone. *)
Definition keeps_but_u (st st' : state) : Prop :=
  st_X st' = st_X st /\ st_v st' = st_v st /\
  st_u_s st' = st_u_s st /\ st_v_s st' = st_v_s st.

Definition keeps_but_v (st st' : state) : Prop :=
  st_X st' = st_X st /\ st_u st' = st_u st /\
  st_u_s st' = st_u_s st /\ st_v_s st' = st_v_s st.

Definition keeps_but_w (st st' : state) : Prop :=
  st_X st' = st_X st /\ st_u st' = st_u st /\ st_v st' = st_v st /\
  st_u_s st' = st_u_s st /\ st_v_s st' = st_v_s st /\ st_rng st' = st_rng st.

Definition keeps_but_u_s (st st' : state) : Prop :=
  st_X st' = st_X st /\ st_u st' = st_u st /\ st_v st' = st_v st /\
  st_w st' = st_w st /\ st_v_s st' = st_v_s st.

Definition keeps_but_v_s (st st' : state) : Prop :=
  st_X st' = st_X st /\ st_u st' = st_u st /\ st_v st' = st_v st /\
  st_w st' = st_w st /\ st_u_s st' = st_u_s st.

(** An array of shape (N, K, T). *)
Definition well_shaped (a : tensor) (N K T : nat) : Prop :=
  length a = N /\
  Forall (fun m => length m = K /\ Forall (fun x => length x = T) m) a.

(** A matrix of shape (R, n). *)
Definition matrix_shaped (m : mat) (R n : nat) : Prop :=
  length m = R /\ Forall (fun x => length x = n) m.

(** The arrays of a call have the shapes that the code assumes: [X] of
    shape (N, K, T) and, with [R = u.shape[0]] components, [u] and [u_s]
    of shape (R, N), [v] and [v_s] of shape (R, K), [w] of shape (R, T). *)
Definition shapes_agree (cfg : config) (st : state) : Prop :=
  well_shaped (st_X st) (dim_N cfg) (dim_K cfg) (dim_T cfg) /\
  matrix_shaped (st_u st) (length (st_u st)) (dim_N cfg) /\
  matrix_shaped (st_v st) (length (st_u st)) (dim_K cfg) /\
  matrix_shaped (st_w st) (length (st_u st)) (dim_T cfg) /\
  matrix_shaped (st_u_s st) (length (st_u st)) (dim_N cfg) /\
  matrix_shaped (st_v_s st) (length (st_u st)) (dim_K cfg).

(** The position written by [a[n, k, t] = x]. *)
Definition at_position (n k t : nat) (p : nat * nat * nat) : bool :=
  let '(n', k', t') := p in Nat.eqb n n' && Nat.eqb k k' && Nat.eqb t t'.

Definition read (a : tensor) (p : nat * nat * nat) : Qc :=
  let '(n, k, t) := p in get3 a n k t.

Section Reached.

Variable P : padded_shifts.ops.
Variable C : periodic_shifts.ops.
Variable rnd : oracle.
Variable linalg_norm : vec -> Qc.
Variable cfg : config.

(** [runs n ls ls']: [n] passes of the [while] body, each entered with a true
    loop condition and completed without an exception, lead from [ls] to
    [ls']. *)
Inductive runs : nat -> loop_state -> loop_state -> Prop :=
| runs_0 : forall ls, runs 0 ls ls
| runs_S : forall n ls ls1 ls',
    guard cfg ls = true ->
    while_body P C rnd linalg_norm cfg ls = Ok ls1 ->
    runs n ls1 ls' ->
    runs (S n) ls ls'.

(** The convergence test on a loss history. *)
Definition plateau (hist : list Qc) : Prop :=
  exists a b,
    py_getitem hist (- patience cfg) = Ok a /\
    py_getitem hist (-1) = Ok b /\
    (Qcabs (a - b) < tol cfg)%Qc.

(** The loop variables are consistent: [itercount] counts the recorded
    losses, and [converged] is the last outcome of the test. *)
Definition consistent (ls : loop_state) : Prop :=
  itercount ls = Z.of_nat (length (loss_hist ls)) /\
  (converged ls = true <->
   (itercount ls > min_iter' cfg)%Z /\ plateau (loss_hist ls)).

(** What the caller gets from the loop variables. *)
Definition returned (ls : loop_state)
  : mat * mat * mat * mat * mat * list Qc :=
  let s := ls_state ls in
  (st_u s, st_v s, st_w s, st_u_s s, st_v_s s, loss_hist ls).

End Reached.

(** The sum of [g 0], ..., [g (n - 1)]. *)
Definition sum_over (n : nat) (g : nat -> Qc) : Qc :=
  fold_right (fun i acc => (g i + acc)%Qc) 0%Qc (seq 0 n).

Section ShiftSearch.

Variable P : padded_shifts.ops.
Variable C : periodic_shifts.ops.
Variable rnd : oracle.
Variables (Zm : mat) (y : Qc) (f f_s w : vec) (max_shift : Qc).
Variables (periodic : bool) (init_shift : Qc) (M T : nat).

(** The loss of a candidate as the search is specified, written from the
    specification and not from the loops of the code: entry [t] of the
    rank-1 reconstruction of row [m] with shift [s] is
    [y * f[m] * shift(w, s + f_s[m])[t]], and the loss is the sum, over
    the rows [m < M] of the block and the times [t < T], of the squared
    residual between the block [Z] and that reconstruction. *)
Definition reconstruction (s : Qc) (m t : nat) : Qc :=
  (y * get1 f m * get1 (shifted P C periodic w (s + get1 f_s m)%Qc T) t)%Qc.

Definition squared_residual_loss (s : Qc) : Qc :=
  sum_over M (fun m =>
    sum_over T (fun t =>
      ((get2 Zm m t - reconstruction s m t)
       * (get2 Zm m t - reconstruction s m t))%Qc)).

(** The running loss of the code summed over all rows of the block,
    without the early exit. *)
Definition total_loss (s : Qc) : Qc :=
  fold_left (add_row_loss P C Zm y f f_s w periodic T s) (seq 0 M) 0%Qc.

(** The [i]-th candidate of a search entered with cursor [g]: the seed,
    then one draw per pass. *)
Definition candidate (g i : nat) : Qc :=
  fst (sample rnd max_shift init_shift i (g + i - 1)).

End ShiftSearch.

(** Every entry of a matrix of shifts has magnitude at most [B]. *)
Definition bounded_by (B : Qc) (m : mat) : Prop :=
  Forall (Forall (fun s => (Qcabs s <= B)%Qc)) m.

(** The shift bound of both axes on a state. *)
Definition shifts_within_bounds (cfg : config) (st : state) : Prop :=
  bounded_by (max_shift_axis0 cfg * of_nat (dim_T cfg))%Qc (st_u_s st) /\
  bounded_by (max_shift_axis1 cfg * of_nat (dim_T cfg))%Qc (st_v_s st).

(** Every entry of a vector is non-negative. *)
Definition nonneg (x : vec) : Prop := Forall (fun xi => (0 <= xi)%Qc) x.

(** *** The padded temporal update, as it is specified *)

Section PaddedUpdateSpec.

Variable P : padded_shifts.ops.
Variable cfg : config.

Local Abbreviation T := (dim_T cfg).

(** Entry [(i, t)] of the banded Gram matrix: the contributions of all
    pairs [(n, k)], added to the ridge 1e-8 on the diagonal row [i = 1]. *)
Definition gram_entry (r : nat) (st : state) (i t : nat) : Qc :=
  fold_left
    (fun acc nk =>
       let '(n, k) := nk in
       let shift := (get2 (st_u_s st) r n + get2 (st_v_s st) r k)%Qc in
       let u_v := (get2 (st_u st) r n * get2 (st_v st) r k)%Qc in
       (acc + u_v * u_v * get2 (padded_shifts.shift_gram P shift T) i t)%Qc)
    (pairs cfg)
    (if Nat.eqb i 1 then (0 + lit_1e_8)%Qc else 0%Qc).

(** The Gershgorin row sum of row [i] of the banded matrix. *)
Definition gershgorin_row (WtW : mat) (i : nat) : Qc :=
  (get2 WtW 1 i
   + (if Nat.eqb i 0 then 0 else get2 WtW 0 i)
   + (if Nat.ltb (i + 1) T then get2 WtW 0 (i + 1) else 0))%Qc.

(** The greatest of [d] and the entries of a list. *)
Definition greatest (l : list Qc) (d : Qc) : Qc :=
  fold_left (fun m x => if Qcltb m x then x else m) l d.

(** The maximum of the row sums over all [T] rows. *)
Definition gershgorin_bound (WtW : mat) : Qc :=
  greatest (map (gershgorin_row WtW) (seq 1 (T - 1))) (gershgorin_row WtW 0).

(** One projected gradient step on a row of [w]. *)
Definition projected_step (WtW : mat) (rhs : vec) (ss : Qc) (wr : vec) : vec :=
  map (fun t =>
         py_max 0%Qc
           (get1 wr t
            - ss * (get1 (padded_shifts.sym_bmat_mul P WtW wr T) t
                    - get1 rhs t))%Qc)
      (seq 0 T).

(** Ten projected gradient steps of size [0.95 / L]. *)
Definition projected_gradient_descent (WtW : mat) (rhs : vec) (L : Qc)
    (wr : vec) : res vec :=
  ss <- fdiv lit_0_95 L ;;
  Ok (Nat.iter 10 (projected_step WtW rhs ss) wr).

End PaddedUpdateSpec.

(** ** Concrete inputs

    The runs below use the operators modelled from the specification, the
    stand-in norm, and a generator whose permutation of five groups visits
    the temporal factor first and whose draws cycle through 0, 1/4, 1/2 and
    3/4. *)

Definition ratio (a : Z) (b : positive) : Qc := Q2Qc (a # b).

Definition fixed_oracle : oracle :=
  Build_oracle
    (fun _ n => match Z.to_nat n with
                | 5 => [2; 0; 1; 3; 4]
                | k => seq 0 k
                end)
    (fun g => ratio (Z.of_nat (g mod 4)) 4).

(** The result of a computation known to complete. *)
Definition force {A : Type} (d : A) (r : res A) : A :=
  match r with Ok a => a | Raise _ => d end.

(** The default arguments of [fit_shift_cp2] on a tensor of shape
    (1, 1, 2), with [Xnorm] the norm of the data and no mask. *)
Definition defaults (X : tensor) (periodic : bool) : config :=
  mkConfig 1 1 2 (norm_model (ravel X)) 1 (mkMask (0, 0, 0) []) 10 1000
           (ratio 1 10000) 10
           (ratio 1 10) (ratio 1 10) true true periodic 5.

(** The same arguments with other iteration counts. *)
Definition retuned (c : config) (min_iter max_iter patience : Z) : config :=
  mkConfig (dim_N c) (dim_K c) (dim_T c) (Xnorm c) (rank c) (mask c)
           min_iter max_iter (tol c) (warp_iterations c) (max_shift_axis0 c)
           (max_shift_axis1 c) (u_nonneg c) (v_nonneg c) (periodic c) patience.

Definition X_negative : tensor := [[[ratio (-1) 1; ratio (-1) 1]]].
Definition X_positive : tensor := [[[ratio 1 1; ratio 2 1]]].

(** All factors one, all shifts zero. *)
Definition ones (X : tensor) : state :=
  mkState X [[ratio 1 1]] [[ratio 1 1]] [[ratio 1 1; ratio 1 1]]
          [[ratio 0 1]] [[ratio 0 1]] 0.

(** The same start with [u] negative. *)
Definition negative_u_start : state :=
  mkState X_negative [[ratio (-1) 1]] [[ratio 1 1]] [[ratio 1 1; ratio 1 1]]
          [[ratio 0 1]] [[ratio 0 1]] 0.

(** A start whose axis-0 shift 1/2 exceeds the bound 0.1 * 2. *)
Definition wide_shift_start : state :=
  mkState X_positive [[ratio 1 1]] [[ratio 1 1]] [[ratio 1 1; ratio 1 1]]
          [[ratio 1 2]] [[ratio 0 1]] 0.

(** A call that breaks every entry condition at once: negative rank,
    [max_iter] zero, shift bounds zero and negative, and factor arrays
    whose shapes do not match the data. *)
Definition invalid_config : config :=
  mkConfig 1 1 2 (ratio 1 1) (-1) (mkMask (1, 1, 1) [true]) 10 0
           (ratio 1 10000) 10
           (ratio 0 1) (ratio (-1) 1) true true false 5.
Definition mismatched_start : state :=
  mkState X_positive [[ratio 1 1; ratio 1 1; ratio 1 1]] [] [[ratio 1 1]]
          [] [[ratio 0 1]] 0.

(** The same call with [max_iter = 1] and arrays of matching shapes. *)
Definition invalid_config_one_pass : config :=
  mkConfig 1 1 2 (ratio 1 1) (-1) (mkMask (0, 0, 0) []) 10 1
           (ratio 1 10000) 10
           (ratio 0 1) (ratio (-1) 1) true true false 5.

(** A periodic fit of a masked tensor of shape (1, 2, 3). *)
Definition masked_config : config :=
  mkConfig 1 2 3 (ratio 6 1) 1
           (mkMask (1, 2, 3) [true; true; false; true; true; true])
           0 3 (ratio 1 10000) 3 (ratio 1 10) (ratio 1 10) true true true 2.
Definition masked_start : state :=
  mkState [[[ratio 1 1; ratio 2 1; ratio 1 1];
            [ratio 2 1; ratio 4 1; ratio 3 1]]]
          [[ratio 1 1]] [[ratio 1 1; ratio 1 1]]
          [[ratio 1 1; ratio 1 1; ratio 1 1]]
          [[ratio 0 1]] [[ratio 0 1; ratio 0 1]] 0.

Section Replay.

Variable P : padded_shifts.ops.
Variable C : periodic_shifts.ops.
Variable rnd : oracle.
Variable linalg_norm : vec -> Qc.
Variable cfg : config.

(** [n] passes of the [while] body, and whether each of them was entered
    and completed. *)
Fixpoint advance (n : nat) (ls : loop_state) : loop_state :=
  match n with
  | O => ls
  | S n' =>
      match while_body P C rnd linalg_norm cfg ls with
      | Ok ls1 => advance n' ls1
      | Raise _ => ls
      end
  end.

Fixpoint completes (n : nat) (ls : loop_state) : bool :=
  match n with
  | O => true
  | S n' =>
      guard cfg ls &&
      match while_body P C rnd linalg_norm cfg ls with
      | Ok ls1 => completes n' ls1
      | Raise _ => false
      end
  end.

End Replay.

(** The state of the first example after its temporal update, and the
    first outer iteration of the other examples. *)
Definition collapsed : state :=
  force (ones X_negative)
        (update_group padded_model.ops periodic_model.ops fixed_oracle
                      (defaults X_negative false) 0 (ones X_negative) 2).

Definition masked_first_pass : state * Qc :=
  force (masked_start, ratio 0 1)
        (outer_iteration padded_model.ops periodic_model.ops fixed_oracle
                         norm_model masked_config 0 masked_start).

(** Two matrices with the same rows, row [r] apart. *)
Definition same_rows_but (r : nat) (a a' : mat) : Prop :=
  forall r', r <> r' -> row a' r' = row a r'.

Section EstimateTerms.

Variable P : padded_shifts.ops.
Variable C : periodic_shifts.ops.
Variables (u v w u_s v_s : mat) (periodic : bool) (T : nat).

(** The contribution of component [r] to entry [(n, k, t)] of the
    estimate. *)
Definition component_term (n k t r : nat) : Qc :=
  (get1 (shifted P C periodic (row w r) (get2 u_s r n + get2 v_s r k)%Qc T) t
   * get2 u r n * get2 v r k)%Qc.

(** The contributions of the components of a list added to [acc],
    [skip_dim] left out. *)
Definition partial_sum (skip_dim : Z) (n k t : nat) (l : list nat) (acc : Qc)
  : Qc :=
  fold_left
    (fun a r => if (Z.of_nat r =? skip_dim)%Z then a
                else (a + component_term n k t r)%Qc)
    l acc.

End EstimateTerms.

(** Further inputs: the masked fit with [tol = 0] and two passes, the
    same fit with [patience = 1], a start with [v] negative, and a
    periodic fit with two components. *)
Definition zero_tol_config : config :=
  mkConfig 1 2 3 (ratio 6 1) 1
           (mkMask (1, 2, 3) [true; true; false; true; true; true])
           0 2 (ratio 0 1) 3 (ratio 1 10) (ratio 1 10) true true true 2.

Definition patience_one_config : config :=
  mkConfig 1 2 3 (ratio 6 1) 1
           (mkMask (1, 2, 3) [true; true; false; true; true; true])
           0 3 (ratio 1 10000) 3 (ratio 1 10) (ratio 1 10) true true true 1.

Definition negative_v_start : state :=
  mkState X_negative [[ratio 1 1]] [[ratio (-1) 1]] [[ratio 1 1; ratio 1 1]]
          [[ratio 0 1]] [[ratio 0 1]] 0.

Definition two_component_config : config :=
  mkConfig 1 2 3 (ratio 6 1) 2 (mkMask (0, 0, 0) []) 0 3 (ratio 1 10000) 3
           (ratio 1 10)
           (ratio 1 10) true true true 2.

Definition two_component_start : state :=
  mkState [[[ratio 1 1; ratio 2 1; ratio 1 1];
            [ratio 2 1; ratio 4 1; ratio 3 1]]]
          [[ratio 1 1]; [ratio 2 1]]
          [[ratio 1 1; ratio 1 1]; [ratio 1 1; ratio 3 1]]
          [[ratio 1 1; ratio 1 1; ratio 1 1];
           [ratio 1 1; ratio 2 1; ratio 3 1]]
          [[ratio 0 1]; [ratio 0 1]]
          [[ratio 0 1; ratio 0 1]; [ratio 0 1; ratio 0 1]] 0.

(** ** Basic facts *)

Lemma Qcltb_iff (x y : Qc) : Qcltb x y = true <-> (x < y)%Qc.
Proof.
  unfold Qcltb. rewrite Qclt_alt. destruct (x ?= y)%Qc; intuition congruence.
Qed.

Lemma Qcltb_false_iff (x y : Qc) : Qcltb x y = false <-> (y <= x)%Qc.
Proof.
  split; intro H.
  - apply Qcnot_lt_le. intro L. apply Qcltb_iff in L. congruence.
  - destruct (Qcltb x y) eqn:E; [|reflexivity].
    apply Qcltb_iff in E. exfalso. revert E. now apply Qcle_not_lt.
Qed.

Lemma py_max_0_nonneg (x : Qc) : (0 <= py_max 0 x)%Qc.
Proof.
  unfold py_max, Qcgtb. destruct (Qcltb 0 x) eqn:E.
  - apply Qclt_le_weak. now apply Qcltb_iff.
  - apply Qcle_refl.
Qed.

Lemma Qc_eq_bool_iff (x y : Qc) : Qc_eq_bool x y = true <-> x = y.
Proof.
  split; [apply Qc_eq_bool_correct|].
  intros ->. unfold Qc_eq_bool. destruct (Qc_eq_dec y y); congruence.
Qed.

Lemma fdiv_zero (x y : Qc) : fdiv x y = Raise ZeroDivisionError <-> y = 0%Qc.
Proof.
  unfold fdiv. destruct (Qc_eq_bool y 0) eqn:E.
  - apply Qc_eq_bool_iff in E. tauto.
  - split; [discriminate|]. intro H. apply Qc_eq_bool_iff in H. congruence.
Qed.

Lemma fdiv_nonzero (x y : Qc) : y <> 0%Qc -> fdiv x y = Ok (x / y)%Qc.
Proof.
  intro H. unfold fdiv. destruct (Qc_eq_bool y 0) eqn:E; [|reflexivity].
  apply Qc_eq_bool_iff in E. contradiction.
Qed.

Section ListUpdate.

Context {A : Type}.

Lemma length_upd (i : nat) (x : A) (l : list A) : length (upd i x l) = length l.
Proof.
  revert i. induction l as [|y l IH]; intros [|i]; simpl; auto.
Qed.

Lemma nth_upd_same (i : nat) (x d : A) (l : list A) :
  i < length l -> nth i (upd i x l) d = x.
Proof.
  revert i. induction l as [|y l IH]; intros [|i]; simpl; intro H;
    try lia; auto. apply IH. lia.
Qed.

Lemma nth_upd_other (i j : nat) (x d : A) (l : list A) :
  i <> j -> nth j (upd i x l) d = nth j l d.
Proof.
  revert i j. induction l as [|y l IH]; intros [|i] [|j]; simpl; intro H;
    try congruence; auto.
Qed.

Lemma upd_out_of_range (i : nat) (x : A) (l : list A) :
  length l <= i -> upd i x l = l.
Proof.
  revert i. induction l as [|y l IH]; intros [|i]; simpl; intro H;
    try lia; auto. f_equal. apply IH. lia.
Qed.

Lemma Forall_upd (Q : A -> Prop) (i : nat) (x : A) (l : list A) :
  Forall Q l -> (i < length l -> Q x) -> Forall Q (upd i x l).
Proof.
  revert i. induction l as [|y l IH]; intros [|i] Hl Hx; simpl; auto.
  - inversion Hl; subst. constructor; auto. apply Hx. simpl. lia.
  - inversion Hl; subst. constructor; auto. apply IH; auto.
    intro. apply Hx. simpl. lia.
Qed.

End ListUpdate.

Section Loops.

Context {A S : Type}.

Lemma for_each_inv (I : S -> Prop) (body : S -> A -> res S) (xs : list A) :
  (forall s x s', I s -> body s x = Ok s' -> I s') ->
  forall s s', I s -> for_each body xs s = Ok s' -> I s'.
Proof.
  intro Hb. induction xs as [|x xs IH]; simpl; intros s s' Hs H.
  - injection H as <-. exact Hs.
  - destruct (body s x) as [s1|e] eqn:E; simpl in H; [|discriminate].
    eapply IH; [|exact H]. eapply Hb; eauto.
Qed.

Lemma fold_left_inv (I : S -> Prop) (body : S -> A -> S) (xs : list A) :
  (forall s x, I s -> I (body s x)) ->
  forall s, I s -> I (fold_left body xs s).
Proof.
  intro Hb. induction xs as [|x xs IH]; simpl; intros s Hs; auto.
Qed.

End Loops.

Ltac ok_inv :=
  repeat match goal with
  | H : bind ?m _ = Ok _ |- _ =>
      let E := fresh "E" in
      destruct m eqn:E; simpl in H; [|discriminate H]
  | H : Ok _ = Ok _ |- _ => injection H as H
  | H : (let '(_, _) := ?p in _) = _ |- _ =>
      let E := fresh "E" in destruct p eqn:E
  end.

(** ** What each parameter group leaves alone *)

Section Frames.

Variable P : padded_shifts.ops.
Variable C : periodic_shifts.ops.
Variable rnd : oracle.
Variable cfg : config.

Lemma set_u_entry_frame Zr r st n st' :
  set_u_entry P C cfg Zr r st n = Ok st' ->
  keeps_but_u st st' /\ st_w st' = st_w st /\ st_rng st' = st_rng st.
Proof.
  unfold set_u_entry. intro H. ok_inv. subst st'.
  unfold keeps_but_u. simpl. tauto.
Qed.

Lemma set_v_entry_frame Zr r st k st' :
  set_v_entry P C cfg Zr r st k = Ok st' ->
  keeps_but_v st st' /\ st_w st' = st_w st /\ st_rng st' = st_rng st.
Proof.
  unfold set_v_entry. intro H. ok_inv. subst st'.
  unfold keeps_but_v. simpl. tauto.
Qed.

Lemma finish_u_frame r st : keeps_but_u st (finish_u rnd cfg r st).
Proof.
  unfold finish_u, keeps_but_u.
  destruct (all_negative (row (st_u st) r)), (u_nonneg cfg);
    match goal with |- context [_prevent_zeros ?a ?b ?c] =>
      destruct (_prevent_zeros a b c) end; simpl; tauto.
Qed.

Lemma finish_v_frame r st : keeps_but_v st (finish_v rnd cfg r st).
Proof.
  unfold finish_v, keeps_but_v.
  destruct (all_negative (row (st_v st) r)), (v_nonneg cfg);
    match goal with |- context [_prevent_zeros ?a ?b ?c] =>
      destruct (_prevent_zeros a b c) end; simpl; tauto.
Qed.

Lemma update_u_frame Zr r st st' :
  update_u P C rnd cfg Zr r st = Ok st' -> keeps_but_u st st'.
Proof.
  unfold update_u. intro H.
  destruct (for_each _ _ st) as [s|e] eqn:E; simpl in H; [|discriminate].
  injection H as <-.
  assert (F : keeps_but_u st s).
  { eapply (for_each_inv (fun s => keeps_but_u st s)); [| |exact E].
    - intros s0 x s1 I0 B. apply set_u_entry_frame in B.
      unfold keeps_but_u in *. intuition congruence.
    - unfold keeps_but_u. tauto. }
  pose proof (finish_u_frame r s) as G.
  unfold keeps_but_u in *. intuition congruence.
Qed.

Lemma update_v_frame Zr r st st' :
  update_v P C rnd cfg Zr r st = Ok st' -> keeps_but_v st st'.
Proof.
  unfold update_v. intro H.
  destruct (for_each _ _ st) as [s|e] eqn:E; simpl in H; [|discriminate].
  injection H as <-.
  assert (F : keeps_but_v st s).
  { eapply (for_each_inv (fun s => keeps_but_v st s)); [| |exact E].
    - intros s0 x s1 I0 B. apply set_v_entry_frame in B.
      unfold keeps_but_v in *. intuition congruence.
    - unfold keeps_but_v. tauto. }
  pose proof (finish_v_frame r s) as G.
  unfold keeps_but_v in *. intuition congruence.
Qed.

Lemma update_w_periodic_frame Zr r st st' :
  update_w_periodic C cfg Zr r st = Ok st' -> keeps_but_w st st'.
Proof.
  unfold update_w_periodic. intro H.
  destruct (periodic_system C cfg Zr r st) as [[d off_d] rhs].
  ok_inv. subst st'. unfold keeps_but_w. simpl. tauto.
Qed.

Lemma update_w_padded_frame Zr r st st' :
  update_w_padded P cfg Zr r st = Ok st' -> keeps_but_w st st'.
Proof.
  unfold update_w_padded. intro H.
  destruct (padded_system P cfg Zr r st) as [WtW rhs].
  ok_inv. subst st'. unfold keeps_but_w. simpl. tauto.
Qed.

Lemma update_u_s_frame Zr r st :
  keeps_but_u_s st (update_u_s P C rnd cfg Zr r st).
Proof.
  unfold update_u_s.
  apply (fold_left_inv (fun s => keeps_but_u_s st s)).
  - intros s n I0.
    match goal with |- context [_fit_shift ?a ?b ?c ?d ?e ?f ?g ?h ?i ?j ?k ?l ?m ?n ?o] =>
      destruct (_fit_shift a b c d e f g h i j k l m n o) end.
    unfold keeps_but_u_s in *. simpl. tauto.
  - unfold keeps_but_u_s. tauto.
Qed.

Lemma update_v_s_frame Zr r st :
  keeps_but_v_s st (update_v_s P C rnd cfg Zr r st).
Proof.
  unfold update_v_s.
  apply (fold_left_inv (fun s => keeps_but_v_s st s)).
  - intros s n I0.
    match goal with |- context [_fit_shift ?a ?b ?c ?d ?e ?f ?g ?h ?i ?j ?k ?l ?m ?n ?o] =>
      destruct (_fit_shift a b c d e f g h i j k l m n o) end.
    unfold keeps_but_v_s in *. simpl. tauto.
  - unfold keeps_but_v_s. tauto.
Qed.

(** The five cases of [update_group]. *)
Lemma update_group_cases it st z st' :
  update_group P C rnd cfg it st z = Ok st' ->
  let r := z / 5 in
  let Zr := tsub (dim_N cfg) (dim_K cfg) (dim_T cfg) (st_X st)
                 (estimate P C cfg st (Z.of_nat r)) in
  (z mod 5 = 0 /\ update_u P C rnd cfg Zr r st = Ok st') \/
  (z mod 5 = 1 /\ update_v P C rnd cfg Zr r st = Ok st') \/
  (z mod 5 = 2 /\ periodic cfg = true /\
   update_w_periodic C cfg Zr r st = Ok st') \/
  (z mod 5 = 2 /\ periodic cfg = false /\
   update_w_padded P cfg Zr r st = Ok st') \/
  (z mod 5 = 3 /\ (it > 0)%Z /\ st' = update_u_s P C rnd cfg Zr r st) \/
  (z mod 5 = 4 /\ (it > 0)%Z /\ st' = update_v_s P C rnd cfg Zr r st) \/
  (3 <= z mod 5 /\ st' = st).
Proof.
  unfold update_group. intros H.
  assert (B : z mod 5 < 5) by (apply Nat.mod_upper_bound; lia).
  cbv zeta.
  destruct (z mod 5) as [|[|[|[|[|q]]]]] eqn:Q; cbn [Nat.eqb andb] in H;
    try lia.
  - auto.
  - auto.
  - destruct (periodic cfg); auto 10.
  - destruct (it >? 0)%Z eqn:I; cbn [Nat.eqb andb] in H; injection H as <-.
    + right; right; right; right; left. repeat split; auto; lia.
    + repeat right. split; [lia|reflexivity].
  - destruct (it >? 0)%Z eqn:I; cbn [Nat.eqb andb] in H; injection H as <-.
    + right; right; right; right; right; left. repeat split; auto; lia.
    + repeat right. split; [lia|reflexivity].
Qed.

Lemma update_group_X it st z st' :
  update_group P C rnd cfg it st z = Ok st' -> st_X st' = st_X st.
Proof.
  intro H. apply update_group_cases in H. cbv zeta in H.
  destruct H as [[_ H]|[[_ H]|[[_ [_ H]]|[[_ [_ H]]|[[_ [_ H]]|[[_ [_ H]]|[_ H]]]]]]].
  - apply update_u_frame in H. apply H.
  - apply update_v_frame in H. apply H.
  - apply update_w_periodic_frame in H. apply H.
  - apply update_w_padded_frame in H. apply H.
  - subst. apply update_u_s_frame.
  - subst. apply update_v_s_frame.
  - subst. reflexivity.
Qed.

End Frames.

(** ** Writes into the data array *)

Ltac lia' := unfold tensor in *; unfold mat in *; unfold vec in *; lia.

Section Imputation.

Variables N K T : nat.

Lemma well_shaped_slice a n k :
  well_shaped a N K T -> n < N -> k < K ->
  length (nth n a []) = K /\ length (slice a n k) = T.
Proof.
  intros [L F] Hn Hk. rewrite Forall_forall in F.
  assert (I : In (nth n a []) a) by (apply nth_In; lia').
  destruct (F _ I) as [LK FT]. split; [exact LK|].
  rewrite Forall_forall in FT. apply FT. unfold slice, row.
  apply nth_In. lia'.
Qed.

Lemma well_shaped_set3 a n k t x :
  well_shaped a N K T -> n < N -> k < K -> well_shaped (set3 a n k t x) N K T.
Proof.
  intros W Hn Hk. destruct (well_shaped_slice W Hn Hk) as [LK LT].
  destruct W as [L F]. split.
  - unfold set3. now rewrite length_upd.
  - unfold set3. apply Forall_upd; [exact F|]. intros _.
    unfold set2. rewrite length_upd. split; [exact LK|].
    rewrite Forall_forall in F.
    assert (I : In (nth n a []) a) by (apply nth_In; lia').
    destruct (F _ I) as [_ FT].
    apply Forall_upd; [exact FT|]. intros _.
    rewrite length_upd. exact LT.
Qed.

Lemma read_set3 a n k t x p :
  well_shaped a N K T -> n < N -> k < K -> t < T ->
  read (set3 a n k t x) p = if at_position n k t p then x else read a p.
Proof.
  intros W Hn Hk Ht. destruct (well_shaped_slice W Hn Hk) as [LK LT].
  destruct W as [L _]. destruct p as [[n' k'] t'].
  unfold read, at_position, get3, slice, row, get1, set3, set2.
  unfold slice, row in LT.
  destruct (Nat.eqb_spec n n') as [<-|Nn]; simpl.
  - rewrite nth_upd_same by lia'.
    destruct (Nat.eqb_spec k k') as [<-|Nk]; simpl.
    + rewrite nth_upd_same by lia'.
      destruct (Nat.eqb_spec t t') as [<-|Nt]; simpl.
      * apply nth_upd_same. unfold row. lia'.
      * now apply nth_upd_other.
    + now rewrite nth_upd_other.
  - now rewrite nth_upd_other.
Qed.

(** A loop over [range(m)] whose passes write a fixed value at the
    positions they select. *)
Lemma loop_writes (target : nat * nat * nat -> Qc)
    (sel : nat -> nat * nat * nat -> bool) (step : tensor -> nat -> tensor)
    (bound : nat) :
  (forall a i, i < bound -> well_shaped a N K T ->
     well_shaped (step a i) N K T /\
     forall p, read (step a i) p = if sel i p then target p else read a p) ->
  forall m a, m <= bound -> well_shaped a N K T ->
    well_shaped (fold_left step (seq 0 m) a) N K T /\
    forall p, read (fold_left step (seq 0 m) a) p =
              if existsb (fun i => sel i p) (seq 0 m) then target p
              else read a p.
Proof.
  intros Hstep. induction m as [|m IH]; intros a Hm W.
  - simpl. auto.
  - rewrite seq_S, fold_left_app. simpl.
    destruct (IH a ltac:(lia) W) as [W1 R1].
    destruct (Hstep (fold_left step (seq 0 m) a) m ltac:(lia) W1) as [W2 R2].
    split; [exact W2|]. intro p. rewrite R2, R1, existsb_app. simpl.
    destruct (sel m p), (existsb (fun i => sel i p) (seq 0 m)); reflexivity.
Qed.

Lemma existsb_seq_at (g : nat -> bool) (m j : nat) :
  (forall i, g i = true -> i = j) ->
  existsb g (seq 0 m) = Nat.ltb j m && g j.
Proof.
  intro U. destruct (existsb g (seq 0 m)) eqn:E.
  - apply existsb_exists in E. destruct E as [i [I G]].
    apply in_seq in I. pose proof (U i G) as ->. rewrite G.
    symmetry. rewrite andb_true_r. apply Nat.ltb_lt. lia.
  - symmetry. destruct (Nat.ltb_spec j m) as [Lt|Ge]; simpl; [|reflexivity].
    destruct (g j) eqn:G; [|reflexivity].
    rewrite <- E. symmetry. apply existsb_exists. exists j. split; auto.
    apply in_seq. lia.
Qed.

End Imputation.

Section MaskFrame.

Variable cfg : config.

Local Abbreviation N := (dim_N cfg).
Local Abbreviation K := (dim_K cfg).
Local Abbreviation T := (dim_T cfg).

(** The imputation loop writes the estimate exactly at the positions in
    range whose mask entry is false. *)
Lemma impute_spec Xest X :
  well_shaped X N K T ->
  well_shaped (impute cfg Xest X) N K T /\
  forall n k t, n < N -> k < K -> t < T ->
    get3 (impute cfg Xest X) n k t =
    if mask_at (mask cfg) n k t then get3 X n k t else get3 Xest n k t.
Proof.
  intro W. unfold impute.
  pose (sel_t := fun n k t p => at_position n k t p && negb (mask_at (mask cfg) n k t)).
  pose (sel_k := fun n k p => existsb (fun t => sel_t n k t p) (seq 0 T)).
  pose (sel_n := fun n p => existsb (fun k => sel_k n k p) (seq 0 K)).
  assert (Ht : forall n k, n < N -> k < K -> forall a t, t < T ->
            well_shaped a N K T ->
            well_shaped (if negb (mask_at (mask cfg) n k t)
                         then set3 a n k t (get3 Xest n k t) else a) N K T /\
            forall p, read (if negb (mask_at (mask cfg) n k t)
                            then set3 a n k t (get3 Xest n k t) else a) p =
                      if sel_t n k t p then read Xest p else read a p).
  { intros n k Hn Hk a t Ht Wa. unfold sel_t.
    destruct (mask_at (mask cfg) n k t); simpl.
    - split; [exact Wa|]. intro p. now rewrite andb_false_r.
    - split; [now apply well_shaped_set3|]. intro p.
      rewrite (read_set3 _ _ Wa Hn Hk Ht), andb_true_r.
      destruct (at_position n k t p) eqn:A; [|reflexivity].
      destruct p as [[n' k'] t']. simpl in A.
      apply andb_true_iff in A. destruct A as [A A3].
      apply andb_true_iff in A. destruct A as [A1 A2].
      apply Nat.eqb_eq in A1, A2, A3. subst. reflexivity. }
  assert (Hk : forall n, n < N -> forall a k, k < K -> well_shaped a N K T ->
            let a' := fold_left
                        (fun X t => if negb (mask_at (mask cfg) n k t)
                                    then set3 X n k t (get3 Xest n k t) else X)
                        (seq 0 T) a in
            well_shaped a' N K T /\
            forall p, read a' p = if sel_k n k p then read Xest p else read a p).
  { intros n Hn a k Hk Wa. cbv zeta.
    apply (loop_writes (read Xest) (sel_t n k) _ (Ht n k Hn Hk) (m:=T));
      auto. }
  assert (Hn : forall a n, n < N -> well_shaped a N K T ->
            let a' := fold_left
                        (fun X k =>
                           fold_left
                             (fun X t => if negb (mask_at (mask cfg) n k t)
                                         then set3 X n k t (get3 Xest n k t)
                                         else X)
                             (seq 0 T) X)
                        (seq 0 K) a in
            well_shaped a' N K T /\
            forall p, read a' p = if sel_n n p then read Xest p else read a p).
  { intros a n Hn Wa. cbv zeta.
    apply (loop_writes (read Xest) (sel_k n) _ (Hk n Hn) (m:=K)); auto. }
  destruct (loop_writes (read Xest) sel_n _ Hn (m:=N) (le_n _) W) as [W' R].
  split; [exact W'|]. intros n k t Ln Lk Lt.
  specialize (R (n, k, t)). simpl in R. rewrite R. clear R.
  assert (E : existsb (fun i => sel_n i (n, k, t)) (seq 0 N)
              = negb (mask_at (mask cfg) n k t)).
  { rewrite (existsb_seq_at _ N (j:=n)).
    - apply Nat.ltb_lt in Ln. rewrite Ln. simpl. unfold sel_n.
      rewrite (existsb_seq_at _ K (j:=k)).
      + apply Nat.ltb_lt in Lk. rewrite Lk. simpl. unfold sel_k.
        rewrite (existsb_seq_at _ T (j:=t)).
        * apply Nat.ltb_lt in Lt. rewrite Lt. simpl. unfold sel_t. simpl.
          now rewrite !Nat.eqb_refl.
        * unfold sel_t. simpl. intros i G.
          repeat (apply andb_true_iff in G; destruct G as [G ?]).
          now apply Nat.eqb_eq.
      + unfold sel_k, sel_t. simpl. intros i G.
        apply existsb_exists in G. destruct G as [j [_ G]].
        repeat (apply andb_true_iff in G; destruct G as [G ?]).
        now apply Nat.eqb_eq.
    - unfold sel_n, sel_k, sel_t. simpl. intros i G.
      apply existsb_exists in G. destruct G as [j [_ G]].
      apply existsb_exists in G. destruct G as [j' [_ G]].
      repeat (apply andb_true_iff in G; destruct G as [G ?]).
      now apply Nat.eqb_eq. }
  rewrite E. destruct (mask_at (mask cfg) n k t); reflexivity.
Qed.

End MaskFrame.

(** ** The main loop *)

Section MainLoop.

Variable P : padded_shifts.ops.
Variable C : periodic_shifts.ops.
Variable rnd : oracle.
Variable linalg_norm : vec -> Qc.
Variable cfg : config.

Local Abbreviation body := (while_body P C rnd linalg_norm cfg).
Local Abbreviation reach := (runs P C rnd linalg_norm cfg).

Lemma py_getitem_last (l : list Qc) :
  l <> [] -> exists b, py_getitem l (-1) = Ok b.
Proof.
  intro H. unfold py_getitem.
  assert (L : 0 < length l) by (destruct l; simpl; [congruence|lia]).
  replace (-1 <? 0)%Z with true by reflexivity.
  destruct ((0 <=? -1 + Z.of_nat (length l)) &&
            (-1 + Z.of_nat (length l) <? Z.of_nat (length l)))%Z eqn:E.
  - eauto.
  - apply andb_false_iff in E. destruct E as [E|E]; lia.
Qed.

Lemma py_getitem_back (l : list Qc) (p : Z) :
  (0 <= p < Z.of_nat (length l))%Z -> exists a, py_getitem l (- p) = Ok a.
Proof.
  intro H. unfold py_getitem.
  destruct (- p <? 0)%Z eqn:S.
  - destruct ((0 <=? - p + Z.of_nat (length l)) &&
              (- p + Z.of_nat (length l) <? Z.of_nat (length l)))%Z eqn:E.
    + eauto.
    + apply andb_false_iff in E. destruct E as [E|E]; lia.
  - destruct ((0 <=? - p) && (- p <? Z.of_nat (length l)))%Z eqn:E.
    + eauto.
    + apply andb_false_iff in E. destruct E as [E|E]; lia.
Qed.

(** With a non-negative [patience] the convergence test cannot fail, and
    its outcome is the plateau condition. *)
Lemma check_converged_ok (hist : list Qc) :
  (0 <= patience cfg)%Z ->
  hist <> [] ->
  exists c,
    check_converged cfg (Z.of_nat (length hist)) hist false = Ok c /\
    (c = true <->
     (Z.of_nat (length hist) > min_iter' cfg)%Z /\ plateau cfg hist).
Proof.
  intros Hp Hne. unfold check_converged.
  destruct (Z.of_nat (length hist) >? min_iter' cfg)%Z eqn:G.
  - assert (G' : (Z.of_nat (length hist) > min_iter' cfg)%Z) by lia.
    destruct (@py_getitem_back hist (patience cfg)) as [a Ha].
    { unfold min_iter' in G'. lia. }
    destruct (py_getitem_last Hne) as [b Hb].
    rewrite Ha, Hb. simpl. eexists. split; [reflexivity|].
    rewrite Qcltb_iff. split.
    + intro L. split; [exact G'|]. exists a, b. auto.
    + intros [_ [a' [b' [Ha' [Hb' L]]]]]. congruence.
  - exists false. split; [reflexivity|].
    split; [discriminate|]. intros [G' _]. lia.
Qed.

Lemma consistent_init st : (0 <= patience cfg)%Z -> consistent cfg (mkLoop st 0 [] false).
Proof.
  intro Hp. split; [reflexivity|]. simpl. split; [discriminate|].
  intros [G _]. unfold min_iter' in G. lia.
Qed.

(** One pass of the body: it fails only when the updates of the outer
    iteration fail, and otherwise records one loss. *)
Lemma while_body_spec ls :
  (0 <= patience cfg)%Z -> consistent cfg ls -> guard cfg ls = true ->
  (exists e,
     outer_iteration P C rnd linalg_norm cfg (itercount ls) (ls_state ls)
       = Raise e /\ body ls = Raise e) \/
  (exists ls1,
     body ls = Ok ls1 /\ consistent cfg ls1 /\
     itercount ls1 = (itercount ls + 1)%Z /\
     length (loss_hist ls1) = S (length (loss_hist ls))).
Proof.
  intros Hp [Hc Hv] G. unfold while_body.
  destruct (outer_iteration P C rnd linalg_norm cfg (itercount ls) (ls_state ls))
    as [[st loss]|e] eqn:O; simpl.
  - right.
    assert (Hold : converged ls = false).
    { unfold guard in G. apply andb_true_iff in G. destruct G as [_ G].
      now destruct (converged ls). }
    rewrite Hold.
    assert (Hlen : (itercount ls + 1)%Z
                   = Z.of_nat (length (loss_hist ls ++ [loss]))).
    { rewrite length_app. simpl. lia. }
    rewrite Hlen.
    destruct (@check_converged_ok (loss_hist ls ++ [loss]) Hp) as [c [Ec Hcv]].
    { destruct (loss_hist ls); discriminate. }
    rewrite Ec. simpl. eexists. split; [reflexivity|].
    split; [|split]; simpl.
    + split; [reflexivity|exact Hcv].
    + lia.
    + rewrite length_app. simpl. lia.
  - left. exists e. auto.
Qed.

(** The loop with enough fuel: it makes [n] passes and then either leaves
    with a false condition or fails inside an outer iteration. *)
Lemma main_loop_spec (fuel : nat) :
  (0 <= patience cfg)%Z ->
  forall ls, consistent cfg ls ->
  (max_iter cfg - itercount ls <= Z.of_nat fuel)%Z ->
  exists n ls',
    reach n ls ls' /\ n <= fuel /\ consistent cfg ls' /\
    itercount ls' = (itercount ls + Z.of_nat n)%Z /\
    length (loss_hist ls') = length (loss_hist ls) + n /\
    ((main_loop P C rnd linalg_norm cfg fuel ls = Ok ls' /\
      guard cfg ls' = false) \/
     (guard cfg ls' = true /\
      exists e,
        outer_iteration P C rnd linalg_norm cfg (itercount ls') (ls_state ls')
          = Raise e /\
        main_loop P C rnd linalg_norm cfg fuel ls = Raise e)).
Proof.
  intro Hp.
  assert (Stay : forall ls k, consistent cfg ls ->
            (main_loop P C rnd linalg_norm cfg k ls = Ok ls /\
             guard cfg ls = false) \/
            (guard cfg ls = true /\
             exists e,
               outer_iteration P C rnd linalg_norm cfg (itercount ls)
                 (ls_state ls) = Raise e /\
               main_loop P C rnd linalg_norm cfg k ls = Raise e) ->
            exists n ls',
              reach n ls ls' /\ n <= k /\ consistent cfg ls' /\
              itercount ls' = (itercount ls + Z.of_nat n)%Z /\
              length (loss_hist ls') = length (loss_hist ls) + n /\
              ((main_loop P C rnd linalg_norm cfg k ls = Ok ls' /\
                guard cfg ls' = false) \/
               (guard cfg ls' = true /\
                exists e,
                  outer_iteration P C rnd linalg_norm cfg (itercount ls')
                    (ls_state ls') = Raise e /\
                  main_loop P C rnd linalg_norm cfg k ls = Raise e))).
  { intros ls k J D. exists 0, ls. split; [constructor|].
    split; [lia|]. split; [exact J|]. split; [lia|]. split; [lia|exact D]. }
  induction fuel as [|fuel IH]; intros ls J B.
  - apply Stay; [exact J|]. left. split; [reflexivity|].
    unfold guard. apply andb_false_iff. left. lia.
  - destruct (guard cfg ls) eqn:G.
    + destruct (while_body_spec Hp J G) as [[e [O W]]|[ls1 [W [J1 [I1 L1]]]]].
      * apply Stay; [exact J|]. right. split; [exact G|]. exists e.
        split; [exact O|]. simpl. rewrite G, W. reflexivity.
      * destruct (IH ls1 J1) as [n [ls' [R [Hn [J' [I' [L' D]]]]]]]; [lia|].
        exists (S n), ls'. split; [econstructor; eauto|].
        split; [lia|]. split; [exact J'|]. split; [lia|]. split; [lia|].
        simpl. rewrite G, W. simpl. exact D.
    + apply Stay; [exact J|]. left. simpl. rewrite G. auto.
Qed.

(** C1, as the code has it: with a non-negative [patience] the loop control
    itself never raises.  A call makes [n <= max_iter] passes of the body,
    appending one loss per pass, and then either returns the tuple with the
    loop condition false (converged, or [max_iter] reached, and neither
    before), or fails with the exception of an update inside the next outer
    iteration.  [converged] holds exactly when the pass count exceeds
    [max(patience, min_iter)] and the plateau test succeeds. *)
Theorem fit_shift_cp2_loop (st : state) :
  (0 <= patience cfg)%Z ->
  exists n ls,
    reach n (mkLoop st 0 [] false) ls /\
    (Z.of_nat n <= Z.max 0 (max_iter cfg))%Z /\
    itercount ls = Z.of_nat n /\
    length (loss_hist ls) = n /\
    (converged ls = true <->
     (Z.of_nat n > Z.max (patience cfg) (min_iter cfg))%Z /\
     plateau cfg (loss_hist ls)) /\
    ((fit_shift_cp2 P C rnd linalg_norm cfg st = Ok (returned ls) /\
      ((itercount ls <? max_iter cfg)%Z = false \/ converged ls = true)) \/
     ((itercount ls <? max_iter cfg)%Z = true /\ converged ls = false /\
      exists e,
        outer_iteration P C rnd linalg_norm cfg (itercount ls) (ls_state ls)
          = Raise e /\
        fit_shift_cp2 P C rnd linalg_norm cfg st = Raise e)).
Proof.
  intro Hp.
  destruct (@main_loop_spec (Z.to_nat (max_iter cfg)) Hp (mkLoop st 0 [] false))
    as [n [ls [R [Hn [[Jc Jv] [I [L D]]]]]]].
  - now apply consistent_init.
  - simpl. lia.
  - simpl in I, L. exists n, ls. split; [exact R|]. split; [lia|].
    split; [exact I|]. split; [exact L|]. split.
    + rewrite Jv, I. reflexivity.
    + unfold fit_shift_cp2, fit_run.
      destruct D as [[M G]|[G [e [O M]]]].
      * left. rewrite M. simpl. split; [reflexivity|].
        unfold guard in G. apply andb_false_iff in G.
        destruct G as [G|G]; [left; exact G|right].
        now destruct (converged ls).
      * right. unfold guard in G. apply andb_true_iff in G.
        destruct G as [G1 G2]. split; [exact G1|].
        split; [now destruct (converged ls)|].
        exists e. rewrite M. auto.
Qed.

End MainLoop.

Section DataFrame.

Variable P : padded_shifts.ops.
Variable C : periodic_shifts.ops.
Variable rnd : oracle.
Variable linalg_norm : vec -> Qc.
Variable cfg : config.

Local Abbreviation N := (dim_N cfg).
Local Abbreviation K := (dim_K cfg).
Local Abbreviation T := (dim_T cfg).
Local Abbreviation reach := (runs P C rnd linalg_norm cfg).

Lemma masked_iff : masked cfg = true <-> mask_size (mask cfg) = N * K * T.
Proof. unfold masked. apply Nat.eqb_eq. Qed.

(** A returning call has made some number of passes. *)
Lemma main_loop_reach (fuel : nat) (ls ls' : loop_state) :
  main_loop P C rnd linalg_norm cfg fuel ls = Ok ls' -> exists n, reach n ls ls'.
Proof.
  revert ls. induction fuel as [|fuel IH]; simpl; intros ls H.
  - injection H as <-. exists 0. constructor.
  - destruct (guard cfg ls) eqn:G.
    + destruct (while_body P C rnd linalg_norm cfg ls) as [ls1|e] eqn:W;
        simpl in H; [|discriminate].
      destruct (IH _ H) as [n R]. exists (S n). econstructor; eauto.
    + injection H as <-. exists 0. constructor.
Qed.

(** The data array across one outer iteration. *)
Lemma outer_iteration_X (it : Z) (st st' : state) (loss : Qc) :
  outer_iteration P C rnd linalg_norm cfg it st = Ok (st', loss) ->
  well_shaped (st_X st) N K T ->
  well_shaped (st_X st') N K T /\
  (masked cfg = false -> st_X st' = st_X st) /\
  (masked cfg = true ->
   forall i k t, i < N -> k < K -> t < T ->
     get3 (st_X st') i k t =
     if mask_at (mask cfg) i k t then get3 (st_X st) i k t
     else get3 (estimate P C cfg st' (-1)) i k t).
Proof.
  unfold outer_iteration. intros H W.
  destruct (for_each _ _ st) as [st1|e] eqn:E; simpl in H; [|discriminate].
  assert (X1 : st_X st1 = st_X st).
  { eapply (for_each_inv (fun s => st_X s = st_X st)); [| |exact E].
    - intros s z s' I B. apply update_group_X in B. congruence.
    - reflexivity. }
  destruct (fdiv _ _) as [l|e] eqn:D; simpl in H; [|discriminate].
  injection H as <- _.
  destruct (masked cfg) eqn:M.
  - simpl. rewrite X1.
    destruct (impute_spec cfg (estimate P C cfg st1 (-1)) W) as [W' R].
    split; [exact W'|]. split; [discriminate|]. intros _. exact R.
  - rewrite X1. split; [exact W|]. split; [reflexivity|discriminate].
Qed.

Lemma reach_X (n : nat) (ls ls' : loop_state) :
  reach n ls ls' ->
  well_shaped (st_X (ls_state ls)) N K T ->
  well_shaped (st_X (ls_state ls')) N K T /\
  (masked cfg = false -> st_X (ls_state ls') = st_X (ls_state ls)) /\
  (masked cfg = true ->
   forall i k t, i < N -> k < K -> t < T ->
     get3 (st_X (ls_state ls')) i k t =
     if mask_at (mask cfg) i k t || Nat.eqb n 0
     then get3 (st_X (ls_state ls)) i k t
     else get3 (estimate P C cfg (ls_state ls') (-1)) i k t).
Proof.
  induction 1 as [ls|n ls ls1 ls' G B R IH]; intro W.
  - split; [exact W|]. split; [reflexivity|]. intros _ i k t _ _ _.
    now rewrite orb_true_r.
  - unfold while_body in B.
    destruct (outer_iteration _ _ _ _ _ _ _) as [[st1 loss]|e] eqn:O;
      simpl in B; [|discriminate].
    destruct (check_converged _ _ _ _) as [c|e] eqn:Cc; simpl in B;
      [|discriminate].
    injection B as <-. simpl in IH.
    destruct (outer_iteration_X _ _ O W) as [W1 [U1 M1]].
    destruct (IH W1) as [W' [U' M']].
    split; [exact W'|]. split.
    + intro M. rewrite (U' M). apply (U1 M).
    + intros M i k t Hi Hk Ht. rewrite (M' M i k t Hi Hk Ht).
      rewrite orb_false_r.
      destruct (mask_at (mask cfg) i k t) eqn:A; simpl.
      * rewrite (M1 M i k t Hi Hk Ht), A. reflexivity.
      * destruct n; simpl; [|reflexivity].
        inversion R; subst. simpl.
        rewrite (M1 M i k t Hi Hk Ht), A. reflexivity.
Qed.

(** C9: the data array [X] is written by the imputation loop only.  No
    update of a parameter group writes it; when [mask.size] differs from
    [N * K * T] it keeps its initial value through every pass; when the
    mask is present, with the shape (N, K, T) of [X], an entry whose mask
    is true keeps its initial value and an entry whose mask is false
    holds, after each pass, the estimate computed in that pass.  This
    holds at every state the loop reaches, and so at the state of a
    returning call. *)
Theorem data_written_by_imputation_only (st : state) (n : nat)
    (ls : loop_state) :
  reach n (mkLoop st 0 [] false) ls ->
  well_shaped (st_X st) N K T ->
  (forall it s z s',
     update_group P C rnd cfg it s z = Ok s' -> st_X s' = st_X s) /\
  (mask_size (mask cfg) <> N * K * T -> st_X (ls_state ls) = st_X st) /\
  (mask_matches (mask cfg) N K T ->
   mask_size (mask cfg) = N * K * T /\
   forall i k t, i < N -> k < K -> t < T ->
     get3 (st_X (ls_state ls)) i k t =
     if mask_at (mask cfg) i k t || Nat.eqb n 0 then get3 (st_X st) i k t
     else get3 (estimate P C cfg (ls_state ls) (-1)) i k t) /\
  (forall ls', fit_run P C rnd linalg_norm cfg st = Ok ls' ->
     exists m, reach m (mkLoop st 0 [] false) ls').
Proof.
  intros R W. destruct (reach_X R W) as [_ [U M]]. simpl in U, M.
  split; [|split; [|split]].
  - intros it s z s'. apply update_group_X.
  - intro Hs. apply U. destruct (masked cfg) eqn:E; [|reflexivity].
    apply masked_iff in E. contradiction.
  - intros [Hs _].
    assert (Hm : mask_size (mask cfg) = N * K * T)
      by (unfold mask_size; now rewrite Hs).
    split; [exact Hm|]. apply M. now apply masked_iff.
  - intros ls'. apply main_loop_reach.
Qed.

End DataFrame.

Section KruskalFacts.

Variable linalg_norm : vec -> Qc.
Variable argsort_reversed : vec -> list nat.

(** C10: on every non-empty list of factor matrices the evaluation of
    [self] in [range(self.rank)] raises [NameError], so that no pair
    [(std_factors, lam)] is returned. *)
Theorem standardize_kruskal_raises_NameError (factors : list ndarray) :
  factors <> [] ->
  standardize_kruskal linalg_norm argsort_reversed factors = Raise NameError.
Proof.
  intro H. destruct factors as [|first rest]; [congruence|]. reflexivity.
Qed.

End KruskalFacts.

(** ** Order facts on the rationals *)

(** Goals on [Qc] are moved to [Q], where [lra] and [nra] apply. *)
Ltac to_Q :=
  unfold Qcle, Qclt, Qcminus, Qcplus, Qcmult, Qcopp in *;
  cbn [this Q2Qc] in *;
  repeat rewrite Qred_correct in *.

Lemma Qc_square_nonneg (x : Qc) : (0 <= x * x)%Qc.
Proof. to_Q. nra. Qed.

Lemma Qc_add_square (a x : Qc) : (a <= a + x * x)%Qc.
Proof. to_Q. nra. Qed.

(** A draw of [npr.uniform(-m, m)] lies in [-m, m]. *)
Lemma uniform_in_bounds (m x : Qc) :
  (0 <= m)%Qc -> (0 <= x)%Qc -> (x < 1)%Qc ->
  (- m <= - m + (m - - m) * x)%Qc /\ (- m + (m - - m) * x <= m)%Qc.
Proof. intros Hm H0 H1. to_Q. split; nra. Qed.

Lemma Qcabs_le_iff (x b : Qc) : (Qcabs x <= b)%Qc <-> (- b <= x)%Qc /\ (x <= b)%Qc.
Proof. apply Qcabs_Qcle_condition. Qed.

(** ** The shift search *)

Section ShiftSearchFacts.

Variable P : padded_shifts.ops.
Variable C : periodic_shifts.ops.
Variable rnd : oracle.
Variables (Zm : mat) (y : Qc) (f f_s w : vec) (max_shift : Qc).
Variables (periodic : bool) (init_shift : Qc) (M T : nat).

Local Abbreviation add_row := (add_row_loss P C Zm y f f_s w periodic T).
Local Abbreviation rows := (row_loop P C Zm y f f_s w periodic T).
Local Abbreviation total := (total_loss P C Zm y f f_s w periodic M T).
Local Abbreviation cand := (candidate rnd max_shift init_shift).
Local Abbreviation try :=
  (try_candidate P C rnd Zm y f f_s w max_shift periodic init_shift M T).

(** The running loss never decreases. *)
Lemma add_row_loss_mono (s loss : Qc) (m : nat) : (loss <= add_row s loss m)%Qc.
Proof.
  unfold add_row_loss.
  apply (fold_left_inv (fun l => (loss <= l)%Qc)).
  - intros l t H. eapply Qcle_trans; [exact H|]. apply Qc_add_square.
  - apply Qcle_refl.
Qed.

Lemma rows_sum_mono (s : Qc) (ms : list nat) (loss : Qc) :
  (loss <= fold_left (add_row s) ms loss)%Qc.
Proof.
  revert loss. induction ms as [|m ms IH]; intro loss; simpl.
  - apply Qcle_refl.
  - eapply Qcle_trans; [apply add_row_loss_mono|apply IH].
Qed.

(** The row loop either runs to the end or stops above the best loss, in
    which case the full sum is above the best loss too. *)
Lemma row_loop_cases (s b : Qc) (ms : list nat) (loss : Qc) :
  rows s (Fin b) ms loss = fold_left (add_row s) ms loss \/
  ((b < rows s (Fin b) ms loss)%Qc /\
   (rows s (Fin b) ms loss <= fold_left (add_row s) ms loss)%Qc).
Proof.
  revert loss. induction ms as [|m ms IH]; intro loss; simpl.
  - now left.
  - unfold Qcgtb. destruct (Qcltb b (add_row s loss m)) eqn:G.
    + right. split; [now apply Qcltb_iff|apply rows_sum_mono].
    + apply IH.
Qed.

Lemma row_loop_inf (s : Qc) (ms : list nat) (loss : Qc) :
  rows s Inf ms loss = fold_left (add_row s) ms loss.
Proof.
  revert loss. induction ms as [|m ms IH]; intro loss; simpl; auto.
Qed.

(** The early exit does not change the comparison with the best loss. *)
Lemma row_loop_accept (s b : Qc) :
  Qcltb (rows s (Fin b) (seq 0 M) 0%Qc) b = true ->
  rows s (Fin b) (seq 0 M) 0%Qc = total s /\ (total s < b)%Qc.
Proof.
  intro H. apply Qcltb_iff in H.
  destruct (row_loop_cases s b (seq 0 M) 0%Qc) as [E|[L _]].
  - unfold total_loss. rewrite <- E. auto.
  - exfalso. apply (Qclt_not_le _ _ H). now apply Qclt_le_weak.
Qed.

Lemma row_loop_reject (s b : Qc) :
  Qcltb (rows s (Fin b) (seq 0 M) 0%Qc) b = false -> (b <= total s)%Qc.
Proof.
  intro H. apply Qcltb_false_iff in H.
  destruct (row_loop_cases s b (seq 0 M) 0%Qc) as [E|[_ L]].
  - unfold total_loss. now rewrite <- E.
  - eapply Qcle_trans; [exact H|exact L].
Qed.

Lemma candidate_0 (g : nat) : cand g 0 = init_shift.
Proof. reflexivity. Qed.

Lemma candidate_S (g i : nat) :
  cand g (S i) = fst (uniform rnd (- max_shift)%Qc max_shift (g + i)).
Proof.
  unfold candidate, sample. simpl. now replace (g + S i - 1) with (g + i) by lia.
Qed.

Lemma try_candidate_S (b bs : Qc) (g0 i : nat) :
  try (Fin b, bs, g0) (S i) =
  let s := fst (uniform rnd (- max_shift)%Qc max_shift g0) in
  if Qcltb (rows s (Fin b) (seq 0 M) 0%Qc) b
  then (Fin (rows s (Fin b) (seq 0 M) 0%Qc), s, S g0)
  else (Fin b, bs, S g0).
Proof. reflexivity. Qed.

(** The state of the candidate loop after [S n] passes: the best candidate
    so far is the first one of minimal total loss. *)
Lemma candidate_loop (g n : nat) :
  exists j,
    j <= n /\
    fold_left try (seq 0 (S n)) (Inf, 0%Qc, g)
    = (Fin (total (cand g j)), cand g j, g + n) /\
    (forall i, i <= n -> (total (cand g j) <= total (cand g i))%Qc) /\
    (forall i, i < j -> (total (cand g j) < total (cand g i))%Qc).
Proof.
  induction n as [|n [j [Hj [E [Hmin Hfirst]]]]].
  - exists 0. split; [lia|]. split; [|split].
    + simpl. rewrite row_loop_inf. rewrite candidate_0.
      unfold total_loss. now rewrite Nat.add_0_r.
    + intros i Hi. replace i with 0 by lia. apply Qcle_refl.
    + intros i Hi. lia.
  - rewrite seq_S, fold_left_app, E.
    cbn [fold_left Nat.add]. rewrite try_candidate_S. cbv zeta.
    rewrite <- (candidate_S g n).
    destruct (Qcltb (rows (cand g (S n)) (Fin (total (cand g j))) (seq 0 M) 0%Qc)
                    (total (cand g j))) eqn:L.
    + destruct (row_loop_accept _ _ L) as [R Lt].
      exists (S n). split; [lia|]. split; [|split].
      * rewrite R. f_equal. lia.
      * intros i Hi. destruct (Nat.eq_dec i (S n)) as [->|Ne].
        -- apply Qcle_refl.
        -- apply Qclt_le_weak. eapply Qclt_le_trans; [exact Lt|].
           apply Hmin. lia.
      * intros i Hi. eapply Qclt_le_trans; [exact Lt|]. apply Hmin. lia.
    + apply row_loop_reject in L.
      exists j. split; [lia|]. split; [|split].
      * f_equal. lia.
      * intros i Hi. destruct (Nat.eq_dec i (S n)) as [->|Ne].
        -- exact L.
        -- apply Hmin. lia.
      * exact Hfirst.
Qed.

(** The loss accumulated by the code, without the early exit, is the
    squared-residual loss of the specification. *)
Lemma fold_left_add_sum (h : nat -> Qc) (l : list nat) (a : Qc) :
  fold_left (fun acc i => (acc + h i)%Qc) l a
  = (a + fold_right (fun i acc => (h i + acc)%Qc) 0%Qc l)%Qc.
Proof.
  revert a. induction l as [|i l IH]; intro a; simpl; [ring|].
  rewrite IH. ring.
Qed.

Lemma add_row_loss_sum (s loss : Qc) (m : nat) :
  add_row s loss m
  = (loss
     + sum_over T (fun t =>
         ((get2 Zm m t - reconstruction P C y f f_s w periodic T s m t)
          * (get2 Zm m t - reconstruction P C y f f_s w periodic T s m t))%Qc)
    )%Qc.
Proof.
  unfold add_row_loss, sum_over, reconstruction. cbv zeta.
  apply (fold_left_add_sum
           (fun t =>
              ((get2 Zm m t
                - y * get1 f m
                  * get1 (shifted P C periodic w (s + get1 f_s m)%Qc T) t)
               * (get2 Zm m t
                  - y * get1 f m
                    * get1 (shifted P C periodic w (s + get1 f_s m)%Qc T) t)
              )%Qc)).
Qed.

Lemma rows_loss_sum (s : Qc) (l : list nat) (a : Qc) :
  fold_left (add_row s) l a
  = (a
     + fold_right
         (fun m acc =>
            (sum_over T (fun t =>
               ((get2 Zm m t
                 - reconstruction P C y f f_s w periodic T s m t)
                * (get2 Zm m t
                   - reconstruction P C y f f_s w periodic T s m t))%Qc)
             + acc)%Qc)
         0%Qc l)%Qc.
Proof.
  revert a. induction l as [|m l IH]; intro a; simpl; [ring|].
  rewrite IH, add_row_loss_sum. ring.
Qed.

Lemma total_loss_is_squared_residual (s : Qc) :
  total s = squared_residual_loss P C Zm y f f_s w periodic M T s.
Proof.
  unfold total_loss. rewrite rows_loss_sum. apply Qcplus_0_l.
Qed.

(** C4: the search tries exactly [n_iter] candidates, the seed first and
    then draws of [npr.uniform(-max_shift, max_shift)], which lie in
    [-max_shift, max_shift]; it returns the candidate (a shift, not a loss)
    of minimal squared-residual loss over the rows of the block, the
    earliest one among equals.  The loss compared is the full sum of the
    specification, over every row and every time, so that the early exit
    of the row loop has no effect on the candidate returned. *)
Theorem fit_shift_returns_first_minimiser (n_iter : Z) (g : nat) :
  (0 < n_iter)%Z ->
  (0 <= max_shift)%Qc ->
  (forall k, (0 <= random rnd k)%Qc /\ (random rnd k < 1)%Qc) ->
  cand g 0 = init_shift /\
  (forall i, 1 <= i < Z.to_nat n_iter ->
     cand g i = fst (uniform rnd (- max_shift)%Qc max_shift (g + i - 1)) /\
     (- max_shift <= cand g i)%Qc /\ (cand g i <= max_shift)%Qc) /\
  exists j,
    j < Z.to_nat n_iter /\
    _fit_shift P C rnd Zm y f f_s w max_shift periodic n_iter init_shift M T g
    = (cand g j, g + (Z.to_nat n_iter - 1)) /\
    (forall i, i < Z.to_nat n_iter ->
       (squared_residual_loss P C Zm y f f_s w periodic M T (cand g j)
        <= squared_residual_loss P C Zm y f f_s w periodic M T (cand g i))%Qc)
    /\
    (forall i, i < j ->
       (squared_residual_loss P C Zm y f f_s w periodic M T (cand g j)
        < squared_residual_loss P C Zm y f f_s w periodic M T (cand g i))%Qc).
Proof.
  intros Hn Hm Hr. split; [apply candidate_0|]. split.
  - intros i Hi. destruct i as [|i]; [lia|].
    rewrite candidate_S. replace (g + S i - 1) with (g + i) by lia.
    split; [reflexivity|]. unfold uniform. simpl.
    destruct (Hr (g + i)) as [H0 H1]. now apply uniform_in_bounds.
  - destruct (Z.to_nat n_iter) as [|n] eqn:En; [lia|].
    destruct (candidate_loop g n) as [j [Hj [E [Hmin Hfirst]]]].
    exists j. split; [lia|]. split; [|split].
    + unfold _fit_shift. rewrite En, E. f_equal. lia.
    + intros i Hi. rewrite <- !total_loss_is_squared_residual.
      apply Hmin. lia.
    + intros i Hi. rewrite <- !total_loss_is_squared_residual.
      now apply Hfirst.
Qed.

End ShiftSearchFacts.

(** ** The shift bound *)

Section ShiftBound.

Variable P : padded_shifts.ops.
Variable C : periodic_shifts.ops.
Variable rnd : oracle.

Hypothesis random_unit :
  forall k, (0 <= random rnd k)%Qc /\ (random rnd k < 1)%Qc.

(** The search returns the seed, a draw, or 0 when it has no pass to make;
    a seed within the bound gives a result within the bound. *)
Lemma fit_shift_result Zm y f f_s w max_shift periodic n_iter init_shift M T g :
  let s := fst (_fit_shift P C rnd Zm y f f_s w max_shift periodic n_iter
                  init_shift M T g) in
  ((n_iter <= 0)%Z -> s = 0%Qc) /\
  ((0 < n_iter)%Z ->
   s = init_shift \/
   exists k, s = fst (uniform rnd (- max_shift)%Qc max_shift k)) /\
  ((Qcabs init_shift <= max_shift)%Qc -> (Qcabs s <= max_shift)%Qc).
Proof.
  cbv zeta. split; [|split].
  - intro H. unfold _fit_shift. replace (Z.to_nat n_iter) with 0 by lia.
    reflexivity.
  - intro H. destruct (Z.to_nat n_iter) as [|n] eqn:En; [lia|].
    destruct (candidate_loop P C rnd Zm y f f_s w max_shift periodic
                init_shift M T g n) as [j [_ [E _]]].
    unfold _fit_shift. rewrite En, E. cbn [fst].
    destruct j as [|j]; [left; apply candidate_0|right].
    exists (g + j). apply candidate_S.
  - intro Hb.
    assert (Hm : (0 <= max_shift)%Qc).
    { eapply Qcle_trans; [apply Qcabs_nonneg|exact Hb]. }
    unfold _fit_shift.
    assert (I : (Qcabs (snd (fst
                 (fold_left
                    (try_candidate P C rnd Zm y f f_s w max_shift periodic
                       init_shift M T)
                    (seq 0 (Z.to_nat n_iter)) (Inf, 0%Qc, g))))
                 <= max_shift)%Qc).
    { apply (fold_left_inv
               (fun acc : ext * Qc * nat =>
                  (Qcabs (snd (fst acc)) <= max_shift)%Qc)).
      - intros [[bl bs] g0] i Hacc. simpl in Hacc. unfold try_candidate.
        assert (Hs : (Qcabs (fst (sample rnd max_shift init_shift i g0))
                      <= max_shift)%Qc).
        { unfold sample. destruct (Nat.eqb i 0); simpl; [exact Hb|].
          apply Qcabs_le_iff. destruct (random_unit g0).
          now apply uniform_in_bounds. }
        destruct (sample rnd max_shift init_shift i g0) as [s g1].
        simpl in Hs. destruct (lt_ext _ bl); simpl; auto.
      - simpl. rewrite Qcabs_pos by apply Qcle_refl. exact Hm. }
    destruct (fold_left _ _ _) as [[bl bs] g']. exact I.
Qed.

Variable cfg : config.

Local Abbreviation T := (dim_T cfg).

Lemma set2_bounded (B : Qc) (m : mat) (r i : nat) (x : Qc) :
  bounded_by B m ->
  ((Qcabs (get2 m r i) <= B)%Qc -> (Qcabs x <= B)%Qc) ->
  bounded_by B (set2 m r i x).
Proof.
  intros Hm Hx. unfold bounded_by, set2 in *.
  apply Forall_upd; [exact Hm|]. intro Hr.
  assert (Hrow : Forall (fun s => (Qcabs s <= B)%Qc) (row m r)).
  { rewrite Forall_forall in Hm. apply Hm. unfold row. now apply nth_In. }
  apply Forall_upd; [exact Hrow|]. intro Hi. apply Hx.
  rewrite Forall_forall in Hrow. apply Hrow. unfold get2, get1.
  now apply nth_In.
Qed.

Lemma update_u_s_bounded Zr r st :
  shifts_within_bounds cfg st ->
  shifts_within_bounds cfg (update_u_s P C rnd cfg Zr r st).
Proof.
  unfold update_u_s.
  apply (fold_left_inv (fun s => shifts_within_bounds cfg s)).
  intros s n [Hu Hv].
  match goal with |- context [_fit_shift ?a ?b ?c ?d ?e ?f ?g ?h ?i ?j ?k ?l ?m ?n ?o] =>
    pose proof (fit_shift_result d e f g h i j k l m n o) as R;
    destruct (_fit_shift a b c d e f g h i j k l m n o) as [x g'] end.
  cbv zeta in R. simpl in R. destruct R as [_ [_ R]].
  split; simpl; [|exact Hv]. now apply set2_bounded.
Qed.

Lemma update_v_s_bounded Zr r st :
  shifts_within_bounds cfg st ->
  shifts_within_bounds cfg (update_v_s P C rnd cfg Zr r st).
Proof.
  unfold update_v_s.
  apply (fold_left_inv (fun s => shifts_within_bounds cfg s)).
  intros s n [Hu Hv].
  match goal with |- context [_fit_shift ?a ?b ?c ?d ?e ?f ?g ?h ?i ?j ?k ?l ?m ?n ?o] =>
    pose proof (fit_shift_result d e f g h i j k l m n o) as R;
    destruct (_fit_shift a b c d e f g h i j k l m n o) as [x g'] end.
  cbv zeta in R. simpl in R. destruct R as [_ [_ R]].
  split; simpl; [exact Hu|]. now apply set2_bounded.
Qed.

Lemma update_group_bounded it st z st' :
  update_group P C rnd cfg it st z = Ok st' ->
  shifts_within_bounds cfg st -> shifts_within_bounds cfg st'.
Proof.
  intros H B. apply update_group_cases in H. cbv zeta in H.
  unfold shifts_within_bounds in *.
  destruct H as [[_ H]|[[_ H]|[[_ [_ H]]|[[_ [_ H]]|[[_ [_ H]]|[[_ [_ H]]|[_ H]]]]]]].
  - apply update_u_frame in H. destruct H as [_ [_ [-> ->]]]. exact B.
  - apply update_v_frame in H. destruct H as [_ [_ [-> ->]]]. exact B.
  - apply update_w_periodic_frame in H.
    destruct H as [_ [_ [_ [-> [-> _]]]]]. exact B.
  - apply update_w_padded_frame in H.
    destruct H as [_ [_ [_ [-> [-> _]]]]]. exact B.
  - subst. now apply update_u_s_bounded.
  - subst. now apply update_v_s_bounded.
  - subst. exact B.
Qed.

Variable linalg_norm : vec -> Qc.

Lemma outer_iteration_bounded it st st' loss :
  outer_iteration P C rnd linalg_norm cfg it st = Ok (st', loss) ->
  shifts_within_bounds cfg st -> shifts_within_bounds cfg st'.
Proof.
  unfold outer_iteration. intros H B.
  destruct (for_each _ _ st) as [st1|e] eqn:E; simpl in H; [|discriminate].
  assert (B1 : shifts_within_bounds cfg st1).
  { eapply (for_each_inv (fun s => shifts_within_bounds cfg s)); [| |exact E].
    - intros s z s' I U. eapply update_group_bounded; eauto.
    - exact B. }
  destruct (fdiv _ _) as [l|e] eqn:D; simpl in H; [|discriminate].
  injection H as <- _. destruct (masked cfg); exact B1.
Qed.

(** C3, as the code has it: the shift bound is preserved, not established.
    When every initial shift is within its bound, so is every shift at every
    state the loop reaches.  The search returns its seed, or a draw of
    [npr.uniform(-max_shift, max_shift)], or 0 when [n_iter] is not
    positive, and a seed within [max_shift] gives a result within
    [max_shift]; the seed itself is not clamped. *)
Theorem shift_bounds_preserved (st : state) (n : nat) (ls : loop_state) :
  runs P C rnd linalg_norm cfg n (mkLoop st 0 [] false) ls ->
  shifts_within_bounds cfg st ->
  shifts_within_bounds cfg (ls_state ls) /\
  (forall Zm y f f_s w max_shift periodic n_iter init_shift M T g,
     let s := fst (_fit_shift P C rnd Zm y f f_s w max_shift periodic n_iter
                     init_shift M T g) in
     ((n_iter <= 0)%Z -> s = 0%Qc) /\
     ((0 < n_iter)%Z ->
      s = init_shift \/
      exists k, s = fst (uniform rnd (- max_shift)%Qc max_shift k)) /\
     ((Qcabs init_shift <= max_shift)%Qc -> (Qcabs s <= max_shift)%Qc)).
Proof.
  intros R B. split; [|intros; apply fit_shift_result].
  remember (mkLoop st 0 [] false) as ls0 eqn:E0.
  assert (B0 : shifts_within_bounds cfg (ls_state ls0)) by (subst; exact B).
  clear E0 B. induction R as [ls|n ls ls1 ls' G W R IH]; [exact B0|].
  apply IH. unfold while_body in W.
  destruct (outer_iteration _ _ _ _ _ _ _) as [[st1 loss]|e] eqn:O;
    simpl in W; [|discriminate].
  destruct (check_converged _ _ _ _) as [c|e]; simpl in W; [|discriminate].
  injection W as <-. simpl. eapply outer_iteration_bounded; eauto.
Qed.

End ShiftBound.

(** ** Signs of the factors *)

Lemma row_upd_same (m : mat) (r : nat) (x : vec) :
  row (upd r x m) r = x \/ row (upd r x m) r = [].
Proof.
  unfold row. destruct (Nat.lt_ge_cases r (length m)) as [L|G].
  - left. now apply nth_upd_same.
  - right. rewrite upd_out_of_range by exact G. now apply nth_overflow.
Qed.

Lemma row_upd_other (m : mat) (r r' : nat) (x : vec) :
  r <> r' -> row (upd r x m) r' = row m r'.
Proof. intro H. unfold row. now apply nth_upd_other. Qed.

Lemma row_set2_other (m : mat) (r r' i : nat) (x : Qc) :
  r <> r' -> row (set2 m r i x) r' = row m r'.
Proof. intro H. unfold set2. now apply row_upd_other. Qed.

Lemma nonneg_row_upd (m : mat) (r : nat) (x : vec) :
  nonneg x -> nonneg (row (upd r x m) r).
Proof.
  intro H. destruct (row_upd_same m r x) as [-> | ->]; [exact H|constructor].
Qed.

Lemma np_maximum0_nonneg (x : vec) : nonneg (np_maximum0 x).
Proof.
  unfold nonneg, np_maximum0. apply Forall_forall. intros y Hy.
  apply in_map_iff in Hy. destruct Hy as [z [<- _]]. apply py_max_0_nonneg.
Qed.

Section Signs.

Variable P : padded_shifts.ops.
Variable C : periodic_shifts.ops.
Variable rnd : oracle.

Hypothesis random_nonneg : forall k, (0 <= random rnd k)%Qc.

Lemma prevent_zeros_nonneg (x : vec) (g : nat) :
  nonneg x -> nonneg (fst (_prevent_zeros rnd x g)).
Proof.
  intro H. unfold _prevent_zeros. destruct (existsb _ x); simpl; [exact H|].
  unfold nonneg. apply Forall_forall. intros y Hy.
  apply in_map_iff in Hy. destruct Hy as [k [<- _]]. apply random_nonneg.
Qed.

Variable cfg : config.

Local Abbreviation T := (dim_T cfg).

(** The end of the axis-0 update leaves row [r] of [u] non-negative, and
    does not touch the other rows. *)
Lemma finish_u_rows (r : nat) (st : state) :
  (u_nonneg cfg = true -> nonneg (row (st_u (finish_u rnd cfg r st)) r)) /\
  (forall r', r <> r' ->
     row (st_u (finish_u rnd cfg r st)) r' = row (st_u st) r').
Proof.
  unfold finish_u.
  set (st1 := if all_negative (row (st_u st) r) then _ else st).
  set (st2 := if u_nonneg cfg then _ else st1).
  assert (R1 : forall r', r <> r' -> row (st_u st1) r' = row (st_u st) r').
  { intros r' Hr. unfold st1. destruct (all_negative _); simpl; auto.
    now apply row_upd_other. }
  assert (R2 : forall r', r <> r' -> row (st_u st2) r' = row (st_u st) r').
  { intros r' Hr. unfold st2. destruct (u_nonneg cfg); simpl; auto.
    rewrite row_upd_other by exact Hr. auto. }
  assert (N2 : u_nonneg cfg = true -> nonneg (row (st_u st2) r)).
  { intro Hu. unfold st2. rewrite Hu. simpl. apply nonneg_row_upd.
    apply np_maximum0_nonneg. }
  pose proof (@prevent_zeros_nonneg (row (st_u st2) r) (st_rng st2)) as Z.
  destruct (_prevent_zeros rnd (row (st_u st2) r) (st_rng st2)) as [x g].
  simpl in *. split.
  - intro Hu. apply nonneg_row_upd. apply Z. now apply N2.
  - intros r' Hr. rewrite row_upd_other by exact Hr. now apply R2.
Qed.

Lemma finish_v_rows (r : nat) (st : state) :
  (v_nonneg cfg = true -> nonneg (row (st_v (finish_v rnd cfg r st)) r)) /\
  (forall r', r <> r' ->
     row (st_v (finish_v rnd cfg r st)) r' = row (st_v st) r').
Proof.
  unfold finish_v.
  set (st1 := if all_negative (row (st_v st) r) then _ else st).
  set (st2 := if v_nonneg cfg then _ else st1).
  assert (R1 : forall r', r <> r' -> row (st_v st1) r' = row (st_v st) r').
  { intros r' Hr. unfold st1. destruct (all_negative _); simpl; auto.
    now apply row_upd_other. }
  assert (R2 : forall r', r <> r' -> row (st_v st2) r' = row (st_v st) r').
  { intros r' Hr. unfold st2. destruct (v_nonneg cfg); simpl; auto.
    rewrite row_upd_other by exact Hr. auto. }
  assert (N2 : v_nonneg cfg = true -> nonneg (row (st_v st2) r)).
  { intro Hu. unfold st2. rewrite Hu. simpl. apply nonneg_row_upd.
    apply np_maximum0_nonneg. }
  pose proof (@prevent_zeros_nonneg (row (st_v st2) r) (st_rng st2)) as Z.
  destruct (_prevent_zeros rnd (row (st_v st2) r) (st_rng st2)) as [x g].
  simpl in *. split.
  - intro Hu. apply nonneg_row_upd. apply Z. now apply N2.
  - intros r' Hr. rewrite row_upd_other by exact Hr. now apply R2.
Qed.

Lemma update_u_rows Zr r st st' :
  update_u P C rnd cfg Zr r st = Ok st' ->
  (u_nonneg cfg = true -> nonneg (row (st_u st') r)) /\
  (forall r', r <> r' -> row (st_u st') r' = row (st_u st) r').
Proof.
  unfold update_u. intro H.
  destruct (for_each _ _ st) as [s|e] eqn:E; simpl in H; [|discriminate].
  injection H as <-. destruct (finish_u_rows r s) as [F1 F2].
  split; [exact F1|]. intros r' Hr. rewrite (F2 r' Hr).
  eapply (for_each_inv (fun s => row (st_u s) r' = row (st_u st) r'));
    [| |exact E].
  - intros s0 n s1 I B. unfold set_u_entry in B.
    destruct (ratio_u _ _ _ _ _ _ _) as [num denom].
    destruct (fdiv num denom) as [x|e]; simpl in B; [|discriminate].
    injection B as <-. simpl. now rewrite row_set2_other.
  - reflexivity.
Qed.

Lemma update_v_rows Zr r st st' :
  update_v P C rnd cfg Zr r st = Ok st' ->
  (v_nonneg cfg = true -> nonneg (row (st_v st') r)) /\
  (forall r', r <> r' -> row (st_v st') r' = row (st_v st) r').
Proof.
  unfold update_v. intro H.
  destruct (for_each _ _ st) as [s|e] eqn:E; simpl in H; [|discriminate].
  injection H as <-. destruct (finish_v_rows r s) as [F1 F2].
  split; [exact F1|]. intros r' Hr. rewrite (F2 r' Hr).
  eapply (for_each_inv (fun s => row (st_v s) r' = row (st_v st) r'));
    [| |exact E].
  - intros s0 n s1 I B. unfold set_v_entry in B.
    destruct (ratio_v _ _ _ _ _ _ _) as [num denom].
    destruct (fdiv num denom) as [x|e]; simpl in B; [|discriminate].
    injection B as <-. simpl. now rewrite row_set2_other.
  - reflexivity.
Qed.

(** A parameter group keeps a non-negative row of [u] non-negative, and
    group [5 * r] makes row [r] non-negative. *)
Lemma update_group_u it st z st' r :
  update_group P C rnd cfg it st z = Ok st' ->
  u_nonneg cfg = true ->
  z = 5 * r \/ nonneg (row (st_u st) r) ->
  nonneg (row (st_u st') r).
Proof.
  intros H Hu D. apply update_group_cases in H. cbv zeta in H.
  assert (K : z mod 5 <> 0 -> nonneg (row (st_u st) r)).
  { intro Q. destruct D as [->|D]; [|exact D].
    rewrite Nat.mul_comm, Nat.Div0.mod_mul in Q. congruence. }
  destruct H as [[Q H]|[[Q H]|[[Q [_ H]]|[[Q [_ H]]|[[Q [_ H]]|[[Q [_ H]]|[Q H]]]]]]].
  - destruct (update_u_rows _ _ _ H) as [F1 F2].
    destruct (Nat.eq_dec (z / 5) r) as [<-|Ne]; [now apply F1|].
    rewrite (F2 r Ne). destruct D as [->|D]; [|exact D].
    rewrite Nat.mul_comm, Nat.div_mul in Ne; congruence.
  - apply update_v_frame in H. destruct H as [_ [-> _]]. apply K. lia.
  - apply update_w_periodic_frame in H. destruct H as [_ [-> _]]. apply K. lia.
  - apply update_w_padded_frame in H. destruct H as [_ [-> _]]. apply K. lia.
  - subst. destruct (update_u_s_frame P C rnd cfg
      (tsub (dim_N cfg) (dim_K cfg) T (st_X st)
            (estimate P C cfg st (Z.of_nat (z / 5)))) (z / 5) st)
      as [_ [-> _]]. apply K. lia.
  - subst. destruct (update_v_s_frame P C rnd cfg
      (tsub (dim_N cfg) (dim_K cfg) T (st_X st)
            (estimate P C cfg st (Z.of_nat (z / 5)))) (z / 5) st)
      as [_ [-> _]]. apply K. lia.
  - subst. apply K. lia.
Qed.

Lemma update_group_v it st z st' r :
  update_group P C rnd cfg it st z = Ok st' ->
  v_nonneg cfg = true ->
  z = 5 * r + 1 \/ nonneg (row (st_v st) r) ->
  nonneg (row (st_v st') r).
Proof.
  intros H Hu D. apply update_group_cases in H. cbv zeta in H.
  assert (M : (5 * r + 1) mod 5 = 1).
  { rewrite Nat.add_comm, Nat.mul_comm, Nat.Div0.mod_add. reflexivity. }
  assert (K : z mod 5 <> 1 -> nonneg (row (st_v st) r)).
  { intro Q. destruct D as [->|D]; [|exact D]. congruence. }
  destruct H as [[Q H]|[[Q H]|[[Q [_ H]]|[[Q [_ H]]|[[Q [_ H]]|[[Q [_ H]]|[Q H]]]]]]].
  - apply update_u_frame in H. destruct H as [_ [-> _]]. apply K. lia.
  - destruct (update_v_rows _ _ _ H) as [F1 F2].
    destruct (Nat.eq_dec (z / 5) r) as [<-|Ne]; [now apply F1|].
    rewrite (F2 r Ne). destruct D as [->|D]; [|exact D].
    rewrite Nat.add_comm, Nat.mul_comm, Nat.div_add in Ne by lia.
    simpl in Ne. congruence.
  - apply update_w_periodic_frame in H. destruct H as [_ [_ [-> _]]].
    apply K. lia.
  - apply update_w_padded_frame in H. destruct H as [_ [_ [-> _]]].
    apply K. lia.
  - subst. destruct (update_u_s_frame P C rnd cfg
      (tsub (dim_N cfg) (dim_K cfg) T (st_X st)
            (estimate P C cfg st (Z.of_nat (z / 5)))) (z / 5) st)
      as [_ [_ [-> _]]]. apply K. lia.
  - subst. destruct (update_v_s_frame P C rnd cfg
      (tsub (dim_N cfg) (dim_K cfg) T (st_X st)
            (estimate P C cfg st (Z.of_nat (z / 5)))) (z / 5) st)
      as [_ [_ [-> _]]]. apply K. lia.
  - subst. apply K. lia.
Qed.

Lemma pass_u it zs : forall st st' r,
  for_each (update_group P C rnd cfg it) zs st = Ok st' ->
  u_nonneg cfg = true ->
  In (5 * r) zs \/ nonneg (row (st_u st) r) ->
  nonneg (row (st_u st') r).
Proof.
  induction zs as [|z zs IH]; simpl; intros st st' r H Hu D.
  - injection H as <-. destruct D as [[]|D]. exact D.
  - destruct (update_group P C rnd cfg it st z) as [s|e] eqn:E; simpl in H;
      [|discriminate].
    apply (IH s st' r H Hu).
    destruct D as [[->|I]|D]; auto; right;
      eapply update_group_u; eauto.
Qed.

Lemma pass_v it zs : forall st st' r,
  for_each (update_group P C rnd cfg it) zs st = Ok st' ->
  v_nonneg cfg = true ->
  In (5 * r + 1) zs \/ nonneg (row (st_v st) r) ->
  nonneg (row (st_v st') r).
Proof.
  induction zs as [|z zs IH]; simpl; intros st st' r H Hu D.
  - injection H as <-. destruct D as [[]|D]. exact D.
  - destruct (update_group P C rnd cfg it st z) as [s|e] eqn:E; simpl in H;
      [|discriminate].
    apply (IH s st' r H Hu).
    destruct D as [[->|I]|D]; auto; right;
      eapply update_group_v; eauto.
Qed.

(** One pass of the gradient loop leaves the first [T] entries of the row
    non-negative. *)
Lemma gradient_step_nonneg WtW rhs ss wr t :
  t < T -> (0 <= get1 (gradient_step P cfg WtW rhs ss wr) t)%Qc.
Proof.
  unfold gradient_step.
  set (grad := vsub T _ rhs).
  set (step := fun (wr : vec) (t : nat) =>
                 upd t (py_max 0 (get1 wr t - ss * get1 grad t)%Qc) wr).
  assert (G : forall m x i, i < m ->
            (0 <= get1 (fold_left step (seq 0 m) x) i)%Qc).
  { induction m as [|m IH]; intros x i Hi; [lia|].
    rewrite seq_S, fold_left_app. simpl.
    set (y := fold_left step (seq 0 m) x). unfold step at 1.
    destruct (Nat.eq_dec i m) as [->|Ne].
    - unfold get1 at 1.
      destruct (Nat.lt_ge_cases m (length y)) as [L|Ge].
      + rewrite nth_upd_same by exact L. apply py_max_0_nonneg.
      + rewrite nth_overflow; [apply Qcle_refl|]. now rewrite length_upd.
    - unfold get1 at 1. rewrite nth_upd_other by congruence.
      apply IH. lia. }
  intro Ht. now apply G.
Qed.

Lemma update_w_padded_nonneg Zr r st st' t :
  update_w_padded P cfg Zr r st = Ok st' ->
  t < T -> (0 <= get2 (st_w st') r t)%Qc.
Proof.
  unfold update_w_padded. intros H Ht.
  destruct (padded_system P cfg Zr r st) as [WtW rhs].
  destruct (fdiv _ _) as [ss|e]; simpl in H; [|discriminate].
  injection H as <-. simpl. unfold get2.
  match goal with |- context [upd r ?x _] =>
    destruct (row_upd_same (st_w st) r x) as [-> | ->] end.
  - simpl. now apply gradient_step_nonneg.
  - unfold get1. destruct t; apply Qcle_refl.
Qed.

Variable linalg_norm : vec -> Qc.

(** C2, as the code has it: at the end of an outer iteration every row
    [r < rank] of [u] is non-negative when [u_nonneg] is set, and every such
    row of [v] is when [v_nonneg] is set.  The temporal factor is
    non-negative on its first [T] entries right after its padded update;
    nothing holds it non-negative afterwards (a later sign flip negates it,
    and the periodic solver does not project). *)
Theorem nonnegativity_after_outer_iteration (it : Z) (st st' : state)
    (loss : Qc) :
  Permutation (permutation rnd (Z.to_nat it) (rank cfg * 5))
              (seq 0 (Z.to_nat (rank cfg * 5))) ->
  outer_iteration P C rnd linalg_norm cfg it st = Ok (st', loss) ->
  (forall r, (Z.of_nat r < rank cfg)%Z ->
     (u_nonneg cfg = true -> nonneg (row (st_u st') r)) /\
     (v_nonneg cfg = true -> nonneg (row (st_v st') r))) /\
  (forall Zr r s s' t,
     update_w_padded P cfg Zr r s = Ok s' ->
     t < T -> (0 <= get2 (st_w s') r t)%Qc).
Proof.
  intros Perm H. split; [|intros; eapply update_w_padded_nonneg; eauto].
  unfold outer_iteration in H.
  destruct (for_each _ _ st) as [st1|e] eqn:E; simpl in H; [|discriminate].
  destruct (fdiv _ _) as [l|e]; simpl in H; [|discriminate].
  injection H as <- _.
  assert (U : st_u (if masked cfg
                    then with_X st1 (impute cfg (estimate P C cfg st1 (-1))
                                            (st_X st1))
                    else st1) = st_u st1) by (destruct (masked cfg); auto).
  assert (V : st_v (if masked cfg
                    then with_X st1 (impute cfg (estimate P C cfg st1 (-1))
                                            (st_X st1))
                    else st1) = st_v st1) by (destruct (masked cfg); auto).
  rewrite U, V. intros r Hr.
  assert (In0 : forall z, z < 5 * r + 5 ->
            In z (permutation rnd (Z.to_nat it) (rank cfg * 5))).
  { intros z Hz. eapply Permutation_in; [apply Permutation_sym, Perm|].
    apply in_seq. lia. }
  split; intro Hn.
  - eapply pass_u; eauto. left. apply In0. lia.
  - eapply pass_v; eauto. left. apply In0. lia.
Qed.

End Signs.

(** ** The padded temporal update *)

Lemma nth_map_seq {A : Type} (g : nat -> A) (n t : nat) (d : A) :
  t < n -> nth t (map g (seq 0 n)) d = g t.
Proof.
  intro H. rewrite (nth_indep _ d (g 0)) by (now rewrite length_map, length_seq).
  rewrite map_nth, seq_nth by exact H. reflexivity.
Qed.

Lemma get1_axpy (n : nat) (a b : vec) (c : Qc) (t : nat) :
  t < n -> get1 (axpy n a c b) t = (get1 a t + c * get1 b t)%Qc.
Proof. intro H. unfold get1 at 1, axpy. now rewrite nth_map_seq. Qed.

Lemma get1_vsub (n : nat) (a b : vec) (t : nat) :
  t < n -> get1 (vsub n a b) t = (get1 a t - get1 b t)%Qc.
Proof. intro H. unfold get1 at 1, vsub. now rewrite nth_map_seq. Qed.

(** [greatest] is the maximum of its arguments. *)
Lemma greatest_spec (l : list Qc) : forall d,
  (greatest l d = d \/ In (greatest l d) l) /\
  (d <= greatest l d)%Qc /\
  (forall x, In x l -> (x <= greatest l d)%Qc).
Proof.
  unfold greatest. induction l as [|y l IH]; intro d; simpl.
  - split; [now left|]. split; [apply Qcle_refl|tauto].
  - destruct (IH (if Qcltb d y then y else d)) as [M [L U]].
    destruct (Qcltb d y) eqn:E.
    + apply Qcltb_iff in E. split; [|split].
      * right. destruct M as [-> | M]; auto.
      * eapply Qcle_trans; [apply Qclt_le_weak, E|exact L].
      * intros x [<-|Hx]; auto.
    + apply Qcltb_false_iff in E. split; [|split].
      * destruct M as [-> | M]; auto.
      * exact L.
      * intros x [<-|Hx]; auto. eapply Qcle_trans; [exact E|exact L].
Qed.

Lemma greatest_map {A : Type} (g : A -> Qc) (l : list A) : forall d,
  greatest (map g l) d
  = fold_left (fun a i => if Qcltb a (g i) then g i else a) l d.
Proof.
  unfold greatest. induction l as [|i l IH]; intro d; simpl; auto.
Qed.

Lemma greatest_perm (l l' : list Qc) (d : Qc) :
  Permutation l l' -> greatest l d = greatest l' d.
Proof.
  intro Hp.
  destruct (greatest_spec l d) as [M [L U]].
  destruct (greatest_spec l' d) as [M' [L' U']].
  apply Qcle_antisym.
  - destruct M as [-> | M]; [exact L'|].
    apply U'. eapply Permutation_in; eauto.
  - destruct M' as [-> | M']; [exact L|].
    apply U. eapply Permutation_in; [apply Permutation_sym|]; eauto.
Qed.

Section PaddedUpdate.

Variable P : padded_shifts.ops.
Variable cfg : config.

Local Abbreviation T := (dim_T cfg).

(** The accumulation of the Gram matrix, entry by entry. *)
Lemma padded_system_entries Zr r st i t :
  i < 2 -> t < T ->
  get2 (fst (padded_system P cfg Zr r st)) i t = gram_entry P cfg r st i t.
Proof.
  intros Hi Ht. unfold padded_system, gram_entry.
  set (W0 := [repeat 0%Qc T; map (fun x => (x + lit_1e_8)%Qc) (repeat 0%Qc T)]).
  assert (I0 : get2 W0 i t = if Nat.eqb i 1 then (0 + lit_1e_8)%Qc else 0%Qc).
  { destruct i as [|[|i]]; [| |lia]; unfold get2, get1, W0, row; simpl.
    - apply nth_repeat.
    - rewrite (nth_indep _ 0%Qc (0 + lit_1e_8)%Qc)
        by (now rewrite length_map, repeat_length).
      rewrite (map_nth (fun x => (x + lit_1e_8)%Qc)). now rewrite nth_repeat. }
  rewrite <- I0. generalize W0 (repeat 0%Qc T). clear I0 W0.
  induction (pairs cfg) as [|[n k] l IH]; intros W rhs; simpl; [reflexivity|].
  rewrite IH. f_equal.
  destruct i as [|[|i]]; [| |lia]; unfold get2 at 1, row; simpl;
    now rewrite get1_axpy.
Qed.

(** The bound computed by the code is the maximum over all rows. *)
Lemma lipschitz_is_gershgorin (WtW : mat) :
  2 <= T -> lipschitz cfg WtW = gershgorin_bound cfg WtW.
Proof.
  intro HT. unfold lipschitz, gershgorin_bound.
  assert (Hs : seq 1 (T - 1) = seq 1 (T - 1 - 1) ++ [1 + (T - 1 - 1)]).
  { rewrite <- seq_S. f_equal. lia. }
  rewrite Hs, map_app. simpl map.
  rewrite <- (greatest_perm (gershgorin_row cfg WtW 0)
                (Permutation_cons_append _ _)).
  unfold greatest at 1. simpl fold_left.
  fold (greatest (map (gershgorin_row cfg WtW) (seq 1 (T - 1 - 1)))).
  rewrite greatest_map.
  assert (E0 : gershgorin_row cfg WtW 0
               = (get2 WtW 1 0 + get2 WtW 0 1)%Qc).
  { unfold gershgorin_row. simpl.
    replace (Nat.ltb 1 T) with true by (symmetry; apply Nat.ltb_lt; lia).
    now rewrite Qcplus_0_r. }
  assert (E1 : gershgorin_row cfg WtW (1 + (T - 1 - 1))
               = (get2 WtW 1 (T - 1) + get2 WtW 0 (T - 1))%Qc).
  { unfold gershgorin_row. replace (1 + (T - 1 - 1)) with (T - 1) by lia.
    replace (Nat.eqb (T - 1) 0) with false
      by (symmetry; apply Nat.eqb_neq; lia).
    replace (Nat.ltb (T - 1 + 1) T) with false
      by (symmetry; apply Nat.ltb_ge; lia).
    now rewrite Qcplus_0_r. }
  change (S (T - 1 - 1)) with (1 + (T - 1 - 1)).
  rewrite E0, E1. unfold py_max, Qcgtb.
  set (d := if Qcltb _ _ then _ else _). clearbody d.
  assert (G : forall l, (forall i, In i l -> 1 <= i /\ i + 1 < T) -> forall d,
            fold_left
              (fun L i =>
                 if Qcltb L (get2 WtW 1 i + get2 WtW 0 i + get2 WtW 0 (i + 1))%Qc
                 then (get2 WtW 1 i + get2 WtW 0 i + get2 WtW 0 (i + 1))%Qc
                 else L) l d
            = fold_left
                (fun a i =>
                   if Qcltb a (gershgorin_row cfg WtW i)
                   then gershgorin_row cfg WtW i else a) l d).
  { induction l as [|i l IH]; intros Hl d'; simpl; [reflexivity|].
    assert (Ei : gershgorin_row cfg WtW i
                 = (get2 WtW 1 i + get2 WtW 0 i + get2 WtW 0 (i + 1))%Qc).
    { destruct (Hl i (or_introl eq_refl)) as [H1 H2].
      unfold gershgorin_row.
      replace (Nat.eqb i 0) with false by (symmetry; apply Nat.eqb_neq; lia).
      replace (Nat.ltb (i + 1) T) with true
        by (symmetry; apply Nat.ltb_lt; lia).
      reflexivity. }
    rewrite Ei. apply IH. intros j Hj. apply Hl. now right. }
  apply G. intros i Hi. apply in_seq in Hi. lia.
Qed.

(** One pass of the gradient loop is one projected step. *)
Lemma gradient_step_is_projected (WtW : mat) (rhs : vec) (ss : Qc) (wr : vec) :
  length wr = T ->
  gradient_step P cfg WtW rhs ss wr = projected_step P cfg WtW rhs ss wr.
Proof.
  intro Hl. unfold gradient_step, projected_step.
  set (ug := padded_shifts.sym_bmat_mul P WtW wr T).
  set (F := fun t x => py_max 0 (x - ss * get1 (vsub T ug rhs) t)%Qc).
  change (fold_left (fun wr t => upd t (F t (get1 wr t)) wr) (seq 0 T) wr
          = map (fun t => py_max 0 (get1 wr t
                                    - ss * (get1 ug t - get1 rhs t))%Qc)
                (seq 0 T)).
  assert (G : forall m, m <= T ->
            let y := fold_left (fun wr t => upd t (F t (get1 wr t)) wr)
                               (seq 0 m) wr in
            length y = T /\
            forall i, get1 y i = if Nat.ltb i m then F i (get1 wr i)
                                 else get1 wr i).
  { induction m as [|m IH]; intro Hm; cbv zeta.
    - simpl. auto.
    - destruct (IH ltac:(lia)) as [Ly Ny].
      rewrite seq_S, fold_left_app. simpl.
      set (y := fold_left _ (seq 0 m) wr) in *.
      split; [now rewrite length_upd|]. intro i. unfold get1 at 1.
      destruct (Nat.eq_dec i m) as [->|Ne].
      + rewrite nth_upd_same by lia. rewrite Ny.
        replace (Nat.ltb m m) with false by (symmetry; apply Nat.ltb_ge; lia).
        replace (Nat.ltb m (S m)) with true by (symmetry; apply Nat.ltb_lt; lia).
        reflexivity.
      + rewrite nth_upd_other by congruence. fold (get1 y i). rewrite Ny.
        destruct (Nat.ltb_spec i m), (Nat.ltb_spec i (S m)); try lia;
          reflexivity. }
  destruct (G T (le_n _)) as [Ly Ny]. cbv zeta in Ly, Ny.
  apply (nth_ext _ _ 0%Qc 0%Qc).
  - now rewrite Ly, length_map, length_seq.
  - intros i Hi. rewrite Ly in Hi.
    change (nth i (fold_left (fun wr t => upd t (F t (get1 wr t)) wr)
                             (seq 0 T) wr) 0%Qc)
      with (get1 (fold_left (fun wr t => upd t (F t (get1 wr t)) wr)
                            (seq 0 T) wr) i).
    rewrite Ny. replace (Nat.ltb i T) with true
      by (symmetry; apply Nat.ltb_lt; lia).
    rewrite nth_map_seq by exact Hi. unfold F. now rewrite get1_vsub.
Qed.

Lemma length_projected_step (WtW : mat) (rhs : vec) (ss : Qc) (wr : vec) :
  length (projected_step P cfg WtW rhs ss wr) = T.
Proof. unfold projected_step. now rewrite length_map, length_seq. Qed.

Lemma gradient_loop_is_iter (WtW : mat) (rhs : vec) (ss : Qc) (n a : nat) :
  forall wr, length wr = T ->
  fold_left (fun wr (_ : nat) => gradient_step P cfg WtW rhs ss wr)
            (seq a n) wr
  = Nat.iter n (projected_step P cfg WtW rhs ss) wr.
Proof.
  revert a. induction n as [|n IH]; intros a wr Hl; [reflexivity|].
  cbn [seq fold_left]. rewrite gradient_step_is_projected by exact Hl.
  rewrite IH by apply length_projected_step.
  now rewrite Nat.iter_succ_r.
Qed.

(** C6: in the padded mode the Gram matrix is accumulated on top of the
    ridge 1e-8 placed on its diagonal row (and on 0 on the off-diagonal
    row), the bound [L] is the maximum of the Gershgorin row sums over all
    [T] rows, and the row [w[r]] is replaced by the result of exactly ten
    projected gradient steps of size [0.95 / L], each of which sets every
    entry to [max(0, w[r, t] - (0.95 / L) * (WtW w[r] - rhs)[t])]. *)
Theorem padded_temporal_update_spec (Zr : tensor) (r : nat) (st : state) :
  2 <= T ->
  length (row (st_w st) r) = T ->
  let WtW := fst (padded_system P cfg Zr r st) in
  let rhs := snd (padded_system P cfg Zr r st) in
  (forall t, t < T ->
     get2 WtW 1 t = gram_entry P cfg r st 1 t /\
     get2 WtW 0 t = gram_entry P cfg r st 0 t) /\
  lipschitz cfg WtW = gershgorin_bound cfg WtW /\
  update_w_padded P cfg Zr r st =
  (wr <- projected_gradient_descent P cfg WtW rhs (gershgorin_bound cfg WtW)
           (row (st_w st) r) ;;
   Ok (with_w st (upd r wr (st_w st)))).
Proof.
  intros HT Hl. cbv zeta. split; [|split].
  - intros t Ht. split; apply padded_system_entries; lia.
  - now apply lipschitz_is_gershgorin.
  - unfold update_w_padded, projected_gradient_descent.
    destruct (padded_system P cfg Zr r st) as [WtW rhs]. simpl fst. simpl snd.
    rewrite lipschitz_is_gershgorin by exact HT.
    destruct (fdiv lit_0_95 (gershgorin_bound cfg WtW)) as [ss|e];
      cbv beta iota delta [bind]; [|reflexivity].
    now rewrite gradient_loop_is_iter by exact Hl.
Qed.

End PaddedUpdate.

(** ** Concrete runs *)

Lemma fixed_oracle_unit (k : nat) :
  (0 <= random fixed_oracle k)%Qc /\ (random fixed_oracle k < 1)%Qc.
Proof.
  assert (B : k mod 4 < 4) by (apply Nat.mod_upper_bound; lia).
  unfold fixed_oracle, ratio. cbn [random].
  set (m := k mod 4) in *. clearbody m.
  unfold Qcle, Qclt. cbn [this Q2Qc]. rewrite !Qred_correct.
  unfold Qle, Qlt. simpl. lia.
Qed.

Lemma fixed_oracle_permutation (i : nat) :
  Permutation (permutation fixed_oracle i (1 * 5)) (seq 0 (Z.to_nat (1 * 5))).
Proof.
  change (Permutation [2; 0; 1; 3; 4] [0; 1; 2; 3; 4]).
  apply perm_trans with [0; 2; 1; 3; 4]; [apply perm_swap|].
  apply perm_skip, perm_swap.
Qed.

Section ReplayFacts.

Variable P : padded_shifts.ops.
Variable C : periodic_shifts.ops.
Variable rnd : oracle.
Variable linalg_norm : vec -> Qc.
Variable cfg : config.

Lemma runs_advance (n : nat) : forall ls,
  completes P C rnd linalg_norm cfg n ls = true ->
  runs P C rnd linalg_norm cfg n ls (advance P C rnd linalg_norm cfg n ls).
Proof.
  induction n as [|n IH]; intros ls H; simpl in *.
  - constructor.
  - apply andb_true_iff in H. destruct H as [G H].
    destruct (while_body P C rnd linalg_norm cfg ls) as [ls1|e] eqn:W;
      [|discriminate].
    econstructor; eauto.
Qed.

End ReplayFacts.

Local Abbreviation Pm := padded_model.ops.
Local Abbreviation Cm := periodic_model.ops.

(** On all-negative data and with the default arguments, the temporal row
    is projected to zero by its update and the next ratio update divides by
    zero; with a negative [patience] the convergence test indexes the loss
    history out of range. *)
Lemma fit_shift_cp2_can_raise :
  fit_shift_cp2 Pm Cm fixed_oracle norm_model (defaults X_negative false)
    (ones X_negative) = Raise ZeroDivisionError /\
  fit_shift_cp2 Pm Cm fixed_oracle norm_model
    (retuned (defaults X_positive false) 0 3 (-2)) (ones X_positive)
  = Raise IndexError.
Proof. split; vm_compute; reflexivity. Qed.

Lemma fit_shift_cp2_loop_witness :
  (0 <= patience masked_config)%Z /\
  exists n ls,
    runs Pm Cm fixed_oracle norm_model masked_config n
         (mkLoop masked_start 0 [] false) ls /\
    length (loss_hist ls) = n.
Proof.
  assert (H : (0 <= patience masked_config)%Z) by (vm_compute; discriminate).
  split; [exact H|].
  destruct (fit_shift_cp2_loop Pm Cm fixed_oracle norm_model masked_config
              masked_start H) as [n [ls [R [_ [_ [L _]]]]]].
  exists n, ls. split; [exact R|exact L].
Defined.

(** With [u] negative at entry, the temporal row fitted by the padded
    update is negated by the sign flip of the axis-0 update that follows it
    in the same outer iteration; on all-negative data the periodic solver
    returns a negative row. *)
Lemma temporal_factor_can_be_negative :
  match outer_iteration Pm Cm fixed_oracle norm_model
          (defaults X_negative false) 0 negative_u_start with
  | Ok (st', _) => (get2 (st_w st') 0 0 < 0)%Qc
  | Raise _ => False
  end /\
  match outer_iteration Pm Cm fixed_oracle norm_model
          (defaults X_negative true) 0 (ones X_negative) with
  | Ok (st', _) => (get2 (st_w st') 0 0 < 0)%Qc
  | Raise _ => False
  end.
Proof. split; vm_compute; reflexivity. Qed.

Lemma nonnegativity_witness :
  nonneg (row (st_u (fst masked_first_pass)) 0) /\
  nonneg (row (st_v (fst masked_first_pass)) 0).
Proof.
  assert (H : outer_iteration Pm Cm fixed_oracle norm_model masked_config 0
                masked_start
              = Ok (fst masked_first_pass, snd masked_first_pass))
    by (vm_compute; reflexivity).
  destruct (@nonnegativity_after_outer_iteration Pm Cm fixed_oracle
              (fun k => proj1 (fixed_oracle_unit k)) masked_config norm_model
              0 masked_start (fst masked_first_pass) (snd masked_first_pass)
              (fixed_oracle_permutation 0) H) as [A _].
  destruct (A 0 ltac:(reflexivity)) as [U V].
  split; [apply U|apply V]; reflexivity.
Defined.

(** A shift outside its bound at entry is still there after the first outer
    iteration, and a search of one pass returns its seed 1/2 under the
    bound 1/5. *)
Lemma shift_can_exceed_bound :
  match outer_iteration Pm Cm fixed_oracle norm_model
          (defaults X_positive false) 0 wide_shift_start with
  | Ok (st', _) =>
      (max_shift_axis0 (defaults X_positive false) * of_nat 2
       < Qcabs (get2 (st_u_s st') 0 0))%Qc
  | Raise _ => False
  end /\
  fst (_fit_shift Pm Cm fixed_oracle [[ratio 1 1; ratio 2 1]] (ratio 1 1)
         [ratio 1 1] [ratio 0 1] [ratio 1 1; ratio 1 1] (ratio 1 5) false 1
         (ratio 1 2) 1 2 0)
  = ratio 1 2.
Proof. split; vm_compute; reflexivity. Qed.

Lemma shift_bounds_witness :
  shifts_within_bounds masked_config masked_start /\
  shifts_within_bounds masked_config
    (ls_state (advance Pm Cm fixed_oracle norm_model masked_config 2
                       (mkLoop masked_start 0 [] false))).
Proof.
  assert (B : shifts_within_bounds masked_config masked_start).
  { split; repeat constructor; vm_compute; discriminate. }
  split; [exact B|].
  apply (@shift_bounds_preserved Pm Cm fixed_oracle fixed_oracle_unit
           masked_config norm_model masked_start 2); [|exact B].
  apply runs_advance. vm_compute. reflexivity.
Defined.

Lemma fit_shift_witness :
  exists j,
    j < 5 /\
    _fit_shift Pm Cm fixed_oracle [[ratio 1 1; ratio 2 1]] (ratio 1 1)
      [ratio 1 1] [ratio 0 1] [ratio 1 1; ratio 1 1] (ratio 1 5) false 5
      (ratio 1 2) 1 2 0
    = (candidate fixed_oracle (ratio 1 5) (ratio 1 2) 0 j, 0 + (5 - 1)) /\
    forall i, i < 5 ->
      Qcle
        (squared_residual_loss Pm Cm [[ratio 1 1; ratio 2 1]] (ratio 1 1)
           [ratio 1 1] [ratio 0 1] [ratio 1 1; ratio 1 1] false 1 2
           (candidate fixed_oracle (ratio 1 5) (ratio 1 2) 0 j))
        (squared_residual_loss Pm Cm [[ratio 1 1; ratio 2 1]] (ratio 1 1)
           [ratio 1 1] [ratio 0 1] [ratio 1 1; ratio 1 1] false 1 2
           (candidate fixed_oracle (ratio 1 5) (ratio 1 2) 0 i)).
Proof.
  destruct (@fit_shift_returns_first_minimiser Pm Cm fixed_oracle
              [[ratio 1 1; ratio 2 1]] (ratio 1 1) [ratio 1 1] [ratio 0 1]
              [ratio 1 1; ratio 1 1] (ratio 1 5) false (ratio 1 2) 1 2 5 0)
    as [_ [_ [j [Hj [E [Hmin _]]]]]].
  - reflexivity.
  - vm_compute. discriminate.
  - exact fixed_oracle_unit.
  - exists j. split; [exact Hj|]. split; [exact E|exact Hmin].
Defined.

(** C5 at the failing input: on all-negative data, with the default
    arguments and all factors one, the padded temporal update leaves the
    row [w[0]] with every entry below 1e-9 in magnitude and draws nothing
    from the generator, and the axis-0 update that comes next divides by
    zero. *)
Theorem temporal_row_left_at_zero :
  update_group Pm Cm fixed_oracle (defaults X_negative false) 0
               (ones X_negative) 2 = Ok collapsed /\
  length (row (st_w collapsed) 0) = 2 /\
  Forall (fun x => (Qcabs x < lit_1e_9)%Qc) (row (st_w collapsed) 0) /\
  st_rng collapsed = st_rng (ones X_negative) /\
  update_group Pm Cm fixed_oracle (defaults X_negative false) 0 collapsed 0
  = Raise ZeroDivisionError.
Proof.
  split; [vm_compute; reflexivity|].
  split; [vm_compute; reflexivity|].
  split; [|split; vm_compute; reflexivity].
  assert (E : map this (row (st_w collapsed) 0) = [0#1; 0#1]%Q)
    by (vm_compute; reflexivity).
  destruct (row (st_w collapsed) 0) as [|a [|b [|c l]]]; try discriminate.
  injection E as Ea Eb.
  constructor; [|constructor; [|constructor]];
    unfold Qclt; cbn [this Qcabs]; [rewrite Ea|rewrite Eb]; reflexivity.
Qed.

Lemma padded_temporal_update_witness :
  lipschitz (defaults X_positive false)
            (fst (padded_system Pm (defaults X_positive false)
                                X_positive 0 (ones X_positive)))
  = gershgorin_bound (defaults X_positive false)
      (fst (padded_system Pm (defaults X_positive false)
                          X_positive 0 (ones X_positive))).
Proof.
  destruct (padded_temporal_update_spec Pm (defaults X_positive false)
              X_positive 0 (ones X_positive)) as [_ [L _]].
  - vm_compute. lia.
  - reflexivity.
  - exact L.
Defined.

(** The axis-0 ratio update on the state left by the collapsed temporal
    row: the denominator is zero and the update raises. *)
Lemma ratio_update_divides_by_zero :
  snd (ratio_u Pm Cm (defaults X_negative false) X_negative 0 collapsed 0)
  = 0%Qc /\
  set_u_entry Pm Cm (defaults X_negative false) X_negative 0 collapsed 0
  = Raise ZeroDivisionError.
Proof.
  split; [apply Qc_is_canon|]; vm_compute; reflexivity.
Qed.

(** A call with a negative rank, [max_iter = 0], shift bounds 0 and -1 and
    arrays of mismatched shapes returns normally; with [max_iter = 1] and
    the same rank and bounds it makes its pass and records a loss. *)
Lemma invalid_arguments_are_accepted :
  fit_shift_cp2 Pm Cm fixed_oracle norm_model invalid_config mismatched_start
  = Ok (st_u mismatched_start, st_v mismatched_start, st_w mismatched_start,
        st_u_s mismatched_start, st_v_s mismatched_start, []) /\
  match fit_shift_cp2 Pm Cm fixed_oracle norm_model invalid_config_one_pass
          (ones X_positive) with
  | Ok (_, _, _, _, _, hist) => length hist = 1
  | Raise _ => False
  end.
Proof. split; vm_compute; reflexivity. Qed.

Lemma data_frame_witness :
  well_shaped (st_X masked_start) 1 2 3 /\
  mask_matches (mask masked_config) 1 2 3 /\
  get3 (st_X (ls_state (advance Pm Cm fixed_oracle norm_model masked_config 2
                                (mkLoop masked_start 0 [] false)))) 0 1 2
  = get3 (st_X masked_start) 0 1 2.
Proof.
  assert (W : well_shaped (st_X masked_start) 1 2 3).
  { split; [reflexivity|]. repeat constructor. }
  split; [exact W|].
  split; [split; reflexivity|].
  destruct (@data_written_by_imputation_only Pm Cm fixed_oracle norm_model
              masked_config masked_start 2 _
              (@runs_advance Pm Cm fixed_oracle norm_model masked_config 2
                 (mkLoop masked_start 0 [] false) eq_refl) W)
    as [_ [_ [M _]]].
  destruct (M (conj eq_refl eq_refl)) as [_ M'].
  apply (M' 0 1 2); repeat constructor.
Defined.

Lemma standardize_kruskal_witness :
  let factors := [mkArray (2, 1) [[ratio 3 1]; [ratio 4 1]]] in
  factors <> [] /\
  standardize_kruskal norm_model (fun _ => []) factors = Raise NameError.
Proof.
  cbv zeta.
  assert (H : [mkArray (2, 1) [[ratio 3 1]; [ratio 4 1]]] <> [])
    by discriminate.
  split; [exact H|].
  apply (@standardize_kruskal_raises_NameError norm_model (fun _ => []) _ H).
Defined.

(** ** Further facts on the main loop *)

Section LoopFacts.

Variable P : padded_shifts.ops.
Variable C : periodic_shifts.ops.
Variable rnd : oracle.
Variable linalg_norm : vec -> Qc.
Variable cfg : config.

Local Abbreviation reach := (runs P C rnd linalg_norm cfg).

(** A parameter group entered with [itercount <= 0] leaves both shift
    arrays alone. *)
Lemma update_group_first_pass it st z st' :
  (it <= 0)%Z ->
  update_group P C rnd cfg it st z = Ok st' ->
  st_u_s st' = st_u_s st /\ st_v_s st' = st_v_s st.
Proof.
  intros Hit H. apply update_group_cases in H. cbv zeta in H.
  destruct H as [[_ H]|[[_ H]|[[_ [_ H]]|[[_ [_ H]]|[[_ [I _]]|[[_ [I _]]|[_ H]]]]]]].
  - apply update_u_frame in H. destruct H as [_ [_ [-> ->]]]. auto.
  - apply update_v_frame in H. destruct H as [_ [_ [-> ->]]]. auto.
  - apply update_w_periodic_frame in H.
    destruct H as [_ [_ [_ [-> [-> _]]]]]. auto.
  - apply update_w_padded_frame in H.
    destruct H as [_ [_ [_ [-> [-> _]]]]]. auto.
  - lia.
  - lia.
  - subst. auto.
Qed.

(** X1: the shift arrays are not updated on the first outer iteration: after
    the pass entered with [itercount = 0], [u_s] and [v_s] are the arrays
    passed by the caller, whatever the permutation and the data. *)
Theorem shifts_kept_on_first_pass (st st' : state) (loss : Qc) :
  outer_iteration P C rnd linalg_norm cfg 0 st = Ok (st', loss) ->
  st_u_s st' = st_u_s st /\ st_v_s st' = st_v_s st.
Proof.
  unfold outer_iteration. intro H.
  destruct (for_each _ _ st) as [st1|e] eqn:E; simpl in H; [|discriminate].
  destruct (fdiv _ _) as [l|e]; simpl in H; [|discriminate].
  injection H as <- _.
  assert (K : st_u_s st1 = st_u_s st /\ st_v_s st1 = st_v_s st).
  { eapply (for_each_inv
              (fun s => st_u_s s = st_u_s st /\ st_v_s s = st_v_s st));
      [| |exact E].
    - intros s z s' [I1 I2] B.
      destruct (update_group_first_pass (it := 0) s z ltac:(lia) B)
        as [-> ->]. auto.
    - auto. }
  destruct (masked cfg); exact K.
Qed.

(** X2: with no component to update ([rank <= 0], so that the permutation is
    empty) an outer iteration changes no factor, no shift and draws
    nothing; it only imputes and records a loss. *)
Theorem no_component_no_update (it : Z) (st st' : state) (loss : Qc) :
  (rank cfg <= 0)%Z ->
  Permutation (permutation rnd (Z.to_nat it) (rank cfg * 5))
              (seq 0 (Z.to_nat (rank cfg * 5))) ->
  outer_iteration P C rnd linalg_norm cfg it st = Ok (st', loss) ->
  st_u st' = st_u st /\ st_v st' = st_v st /\ st_w st' = st_w st /\
  st_u_s st' = st_u_s st /\ st_v_s st' = st_v_s st /\
  st_rng st' = st_rng st.
Proof.
  intros Hr Perm H. unfold outer_iteration in H.
  replace (Z.to_nat (rank cfg * 5)) with 0 in Perm by lia.
  apply Permutation_sym, Permutation_nil in Perm. rewrite Perm in H.
  simpl in H. destruct (fdiv _ _) as [l|e]; simpl in H; [|discriminate].
  injection H as <- _. destruct (masked cfg); simpl; tauto.
Qed.

(** X3: after an outer iteration with a mask, the residual [X - Xest] is zero
    at every entry whose mask is false: imputed entries add nothing to the
    loss. *)
Theorem imputed_entries_have_zero_residual (it : Z) (st st' : state)
    (loss : Qc) (i k t : nat) :
  outer_iteration P C rnd linalg_norm cfg it st = Ok (st', loss) ->
  well_shaped (st_X st) (dim_N cfg) (dim_K cfg) (dim_T cfg) ->
  mask_size (mask cfg) = dim_N cfg * dim_K cfg * dim_T cfg ->
  i < dim_N cfg -> k < dim_K cfg -> t < dim_T cfg ->
  mask_at (mask cfg) i k t = false ->
  get3 (tsub (dim_N cfg) (dim_K cfg) (dim_T cfg) (st_X st')
             (estimate P C cfg st' (-1))) i k t = 0%Qc.
Proof.
  intros H W Hm Hi Hk Ht Hmask.
  destruct (@outer_iteration_X P C rnd linalg_norm cfg it st st' loss H W)
    as [_ [_ M]].
  specialize (M (proj2 (masked_iff cfg) Hm) i k t Hi Hk Ht).
  rewrite Hmask in M.
  unfold get3 at 1, slice at 1, row, tsub.
  rewrite nth_map_seq by exact Hi.
  rewrite nth_map_seq by exact Hk.
  rewrite get1_vsub by exact Ht.
  fold (get3 (st_X st') i k t). fold (get3 (estimate P C cfg st' (-1)) i k t).
  rewrite M. apply Qcplus_opp_r.
Qed.

(** Consistency of the loop variables along the passes. *)
Lemma runs_consistent (n : nat) (ls ls' : loop_state) :
  (0 <= patience cfg)%Z ->
  reach n ls ls' -> consistent cfg ls ->
  consistent cfg ls' /\ itercount ls' = (itercount ls + Z.of_nat n)%Z.
Proof.
  intros Hp R. induction R as [ls|n ls ls1 ls' G W R IH]; intro J.
  - split; [exact J|lia].
  - destruct (while_body_spec P C rnd linalg_norm Hp J G)
      as [[e [_ W']]|[ls2 [W' [J2 [I2 _]]]]]; [congruence|].
    assert (ls2 = ls1) by congruence. subst ls2.
    destruct (IH J2) as [J' I']. split; [exact J'|lia].
Qed.

(** The last pass of a run. *)
Lemma runs_last (n : nat) (ls ls' : loop_state) :
  reach (S n) ls ls' ->
  exists mid,
    reach n ls mid /\ guard cfg mid = true /\
    while_body P C rnd linalg_norm cfg mid = Ok ls'.
Proof.
  revert ls. induction n as [|n IH]; intros ls R.
  - inversion R as [|? ? ls1 ? G W R1]; subst. inversion R1; subst.
    exists ls. split; [constructor|auto].
  - inversion R as [|? ? ls1 ? G W R1]; subst.
    destruct (IH _ R1) as [mid [Rm [Gm Wm]]].
    exists mid. split; [econstructor; eauto|auto].
Qed.

(** X4: with [tol <= 0] convergence is never declared: a returning call has
    made exactly [max_iter] passes (none when [max_iter] is negative). *)
Theorem nonpositive_tol_runs_to_max_iter (st : state) (ls : loop_state) :
  (0 <= patience cfg)%Z ->
  (tol cfg <= 0)%Qc ->
  fit_run P C rnd linalg_norm cfg st = Ok ls ->
  converged ls = false /\
  length (loss_hist ls) = Z.to_nat (max_iter cfg).
Proof.
  intros Hp Ht H. unfold fit_run in H.
  destruct (@main_loop_spec P C rnd linalg_norm cfg
              (Z.to_nat (max_iter cfg)) Hp (mkLoop st 0 [] false))
    as [n [ls' [_ [Hn [[Jc Jv] [I [L D]]]]]]].
  - now apply consistent_init.
  - simpl. lia.
  - destruct D as [[M G]|[_ [e [_ M]]]]; [|congruence].
    assert (ls' = ls) by congruence. subst ls'. simpl in I, L.
    assert (Cv : converged ls = false).
    { destruct (converged ls) eqn:E; [|reflexivity].
      destruct (proj1 Jv eq_refl) as [_ [a [b [_ [_ Lt]]]]].
      exfalso. apply (Qclt_not_le _ _ Lt).
      eapply Qcle_trans; [exact Ht|apply Qcabs_nonneg]. }
    split; [exact Cv|].
    unfold guard in G. rewrite Cv in G. simpl in G.
    rewrite andb_true_r in G. apply Z.ltb_ge in G. lia.
Qed.

(** X5: a returning call has made at least
    [min(max_iter, max(patience, min_iter) + 1)] passes: convergence is
    not tested before that. *)
Theorem minimum_number_of_passes (st : state) (ls : loop_state) :
  (0 <= patience cfg)%Z ->
  fit_run P C rnd linalg_norm cfg st = Ok ls ->
  (Z.min (max_iter cfg) (Z.max (patience cfg) (min_iter cfg) + 1)
   <= Z.of_nat (length (loss_hist ls)))%Z.
Proof.
  intros Hp H. unfold fit_run in H.
  destruct (@main_loop_spec P C rnd linalg_norm cfg
              (Z.to_nat (max_iter cfg)) Hp (mkLoop st 0 [] false))
    as [n [ls' [_ [Hn [[Jc Jv] [I [L D]]]]]]].
  - now apply consistent_init.
  - simpl. lia.
  - destruct D as [[M G]|[_ [e [_ M]]]]; [|congruence].
    assert (ls' = ls) by congruence. subst ls'. simpl in I, L.
    unfold guard in G. apply andb_false_iff in G. destruct G as [G|G].
    + apply Z.ltb_ge in G. lia.
    + destruct (converged ls) eqn:E; [|discriminate].
      destruct (proj1 Jv eq_refl) as [Gt _]. unfold min_iter' in Gt. lia.
Qed.

(** X6: with [patience = 1] the test compares the last loss with itself, so
    that for a positive [tol] convergence is declared at the first pass
    where it is tested: no run has more than [max(1, min_iter) + 1]
    passes. *)
Theorem patience_one_stops_at_first_test (st : state) (n : nat)
    (ls : loop_state) :
  patience cfg = 1%Z ->
  (0 < tol cfg)%Qc ->
  reach n (mkLoop st 0 [] false) ls ->
  (Z.of_nat n <= Z.max 1 (min_iter cfg) + 1)%Z.
Proof.
  intros Hp Ht R. destruct n as [|n]; [lia|].
  destruct (runs_last R) as [mid [Rm [G W]]].
  assert (Hp0 : (0 <= patience cfg)%Z) by lia.
  destruct (runs_consistent Hp0 Rm (consistent_init cfg st Hp0))
    as [[Jc Jv] I]. simpl in I.
  unfold guard in G. apply andb_true_iff in G. destruct G as [_ G].
  destruct (converged mid) eqn:E; [discriminate|].
  destruct (Z_le_gt_dec (itercount mid) (min_iter' cfg)) as [Le|Gt].
  - unfold min_iter' in Le. lia.
  - exfalso. assert (Hne : loss_hist mid <> []).
    { intro E0. rewrite E0 in Jc. simpl in Jc. unfold min_iter' in Gt. lia. }
    destruct (py_getitem_last Hne) as [b Hb].
    assert (T : false = true); [|discriminate T].
    apply Jv. split; [exact Gt|]. exists b, b. rewrite Hp.
    split; [exact Hb|]. split; [exact Hb|].
    replace (b - b)%Qc with 0%Qc by (symmetry; apply Qcplus_opp_r).
    rewrite Qcabs_pos by apply Qcle_refl. exact Ht.
Qed.

End LoopFacts.

(** ** Components are updated one at a time *)

Lemma same_rows_refl (r : nat) (a : mat) : same_rows_but r a a.
Proof. intros r' _. reflexivity. Qed.

Lemma same_rows_trans (r : nat) (a b c : mat) :
  same_rows_but r a b -> same_rows_but r b c -> same_rows_but r a c.
Proof. intros H1 H2 r' Hr. rewrite (H2 r' Hr). now apply H1. Qed.

Lemma same_rows_upd (r : nat) (x : vec) (a : mat) :
  same_rows_but r a (upd r x a).
Proof. intros r' Hr. now apply row_upd_other. Qed.

Lemma same_rows_set2 (r i : nat) (x : Qc) (a : mat) :
  same_rows_but r a (set2 a r i x).
Proof. intros r' Hr. now apply row_set2_other. Qed.

Lemma same_rows_eq (r : nat) (a b : mat) : b = a -> same_rows_but r a b.
Proof. intros ->. apply same_rows_refl. Qed.

Section OneComponent.

Variable P : padded_shifts.ops.
Variable C : periodic_shifts.ops.
Variable rnd : oracle.
Variable cfg : config.

Lemma finish_u_component (r : nat) (st : state) :
  same_rows_but r (st_u st) (st_u (finish_u rnd cfg r st)) /\
  same_rows_but r (st_w st) (st_w (finish_u rnd cfg r st)).
Proof.
  unfold finish_u.
  destruct (_prevent_zeros rnd _ _) as [x g] eqn:E. clear E.
  destruct (all_negative (row (st_u st) r)), (u_nonneg cfg); simpl;
    repeat split;
    repeat (first [apply same_rows_refl | apply same_rows_upd
                  | eapply same_rows_trans; [|apply same_rows_upd]]).
Qed.

Lemma finish_v_component (r : nat) (st : state) :
  same_rows_but r (st_v st) (st_v (finish_v rnd cfg r st)) /\
  same_rows_but r (st_w st) (st_w (finish_v rnd cfg r st)).
Proof.
  unfold finish_v.
  destruct (_prevent_zeros rnd _ _) as [x g] eqn:E. clear E.
  destruct (all_negative (row (st_v st) r)), (v_nonneg cfg); simpl;
    repeat split;
    repeat (first [apply same_rows_refl | apply same_rows_upd
                  | eapply same_rows_trans; [|apply same_rows_upd]]).
Qed.

Lemma update_u_component Zr r st st' :
  update_u P C rnd cfg Zr r st = Ok st' ->
  same_rows_but r (st_u st) (st_u st') /\
  same_rows_but r (st_w st) (st_w st').
Proof.
  unfold update_u. intro H.
  destruct (for_each _ _ st) as [s|e] eqn:E; simpl in H; [|discriminate].
  injection H as <-.
  assert (K : same_rows_but r (st_u st) (st_u s) /\ st_w s = st_w st).
  { eapply (for_each_inv
              (fun s => same_rows_but r (st_u st) (st_u s) /\
                        st_w s = st_w st)); [| |exact E].
    - intros s0 n s1 [I1 I2] B. unfold set_u_entry in B.
      destruct (ratio_u _ _ _ _ _ _ _) as [num denom].
      destruct (fdiv num denom) as [x|e]; simpl in B; [|discriminate].
      injection B as <-. simpl. split; [|exact I2].
      eapply same_rows_trans; [exact I1|apply same_rows_set2].
    - split; [apply same_rows_refl|reflexivity]. }
  destruct K as [K1 K2]. destruct (finish_u_component r s) as [F1 F2].
  split; [eapply same_rows_trans; eauto|]. now rewrite <- K2.
Qed.

Lemma update_v_component Zr r st st' :
  update_v P C rnd cfg Zr r st = Ok st' ->
  same_rows_but r (st_v st) (st_v st') /\
  same_rows_but r (st_w st) (st_w st').
Proof.
  unfold update_v. intro H.
  destruct (for_each _ _ st) as [s|e] eqn:E; simpl in H; [|discriminate].
  injection H as <-.
  assert (K : same_rows_but r (st_v st) (st_v s) /\ st_w s = st_w st).
  { eapply (for_each_inv
              (fun s => same_rows_but r (st_v st) (st_v s) /\
                        st_w s = st_w st)); [| |exact E].
    - intros s0 n s1 [I1 I2] B. unfold set_v_entry in B.
      destruct (ratio_v _ _ _ _ _ _ _) as [num denom].
      destruct (fdiv num denom) as [x|e]; simpl in B; [|discriminate].
      injection B as <-. simpl. split; [|exact I2].
      eapply same_rows_trans; [exact I1|apply same_rows_set2].
    - split; [apply same_rows_refl|reflexivity]. }
  destruct K as [K1 K2]. destruct (finish_v_component r s) as [F1 F2].
  split; [eapply same_rows_trans; eauto|]. now rewrite <- K2.
Qed.

Lemma update_w_component Zr r st st' :
  update_w_periodic C cfg Zr r st = Ok st' \/
  update_w_padded P cfg Zr r st = Ok st' ->
  same_rows_but r (st_w st) (st_w st').
Proof.
  unfold update_w_periodic, update_w_padded. intros [H|H].
  - destruct (periodic_system C cfg Zr r st) as [[d off_d] rhs].
    destruct (periodic_shifts.rojo_solve _ _ _ _ _ _) as [x|e]; simpl in H;
      [|discriminate].
    injection H as <-. simpl. apply same_rows_upd.
  - destruct (padded_system P cfg Zr r st) as [WtW rhs].
    destruct (fdiv _ _) as [ss|e]; simpl in H; [|discriminate].
    injection H as <-. simpl. apply same_rows_upd.
Qed.

Lemma update_u_s_component Zr r st :
  same_rows_but r (st_u_s st) (st_u_s (update_u_s P C rnd cfg Zr r st)).
Proof.
  unfold update_u_s.
  apply (fold_left_inv (fun s => same_rows_but r (st_u_s st) (st_u_s s)));
    [|apply same_rows_refl].
  intros s n I.
  match goal with |- context [_fit_shift ?a ?b ?c ?d ?e ?f ?g ?h ?i ?j ?k ?l ?m ?n ?o] =>
    destruct (_fit_shift a b c d e f g h i j k l m n o) end.
  simpl. eapply same_rows_trans; [exact I|apply same_rows_set2].
Qed.

Lemma update_v_s_component Zr r st :
  same_rows_but r (st_v_s st) (st_v_s (update_v_s P C rnd cfg Zr r st)).
Proof.
  unfold update_v_s.
  apply (fold_left_inv (fun s => same_rows_but r (st_v_s st) (st_v_s s)));
    [|apply same_rows_refl].
  intros s n I.
  match goal with |- context [_fit_shift ?a ?b ?c ?d ?e ?f ?g ?h ?i ?j ?k ?l ?m ?n ?o] =>
    destruct (_fit_shift a b c d e f g h i j k l m n o) end.
  simpl. eapply same_rows_trans; [exact I|apply same_rows_set2].
Qed.

(** X7: the update of group [z] belongs to component [r = z // 5]: it changes
    no row of [u], [v], [w], [u_s] or [v_s] other than row [r]. *)
Theorem group_updates_one_component (it : Z) (st st' : state) (z : nat) :
  update_group P C rnd cfg it st z = Ok st' ->
  same_rows_but (z / 5) (st_u st) (st_u st') /\
  same_rows_but (z / 5) (st_v st) (st_v st') /\
  same_rows_but (z / 5) (st_w st) (st_w st') /\
  same_rows_but (z / 5) (st_u_s st) (st_u_s st') /\
  same_rows_but (z / 5) (st_v_s st) (st_v_s st').
Proof.
  intro H. apply update_group_cases in H. cbv zeta in H.
  destruct H as [[_ H]|[[_ H]|[[_ [_ H]]|[[_ [_ H]]|[[_ [_ H]]|[[_ [_ H]]|[_ H]]]]]]].
  - destruct (@update_u_component _ _ _ _ H) as [U W].
    apply update_u_frame in H. destruct H as [_ [Hv [Hus Hvs]]].
    repeat split; auto using same_rows_eq.
  - destruct (@update_v_component _ _ _ _ H) as [V W].
    apply update_v_frame in H. destruct H as [_ [Hu [Hus Hvs]]].
    repeat split; auto using same_rows_eq.
  - pose proof (@update_w_component _ _ _ st' (or_introl H)) as W.
    apply update_w_periodic_frame in H.
    destruct H as [_ [Hu [Hv [Hus [Hvs _]]]]].
    repeat split; auto using same_rows_eq.
  - pose proof (@update_w_component _ _ _ st' (or_intror H)) as W.
    apply update_w_padded_frame in H.
    destruct H as [_ [Hu [Hv [Hus [Hvs _]]]]].
    repeat split; auto using same_rows_eq.
  - subst st'. match goal with |- context [update_u_s _ _ _ _ ?Z ?r _] =>
      pose proof (@update_u_s_component Z r st) as S;
      destruct (update_u_s_frame P C rnd cfg Z r st)
        as [_ [Hu [Hv [Hw Hvs]]]] end.
    repeat split; auto using same_rows_eq.
  - subst st'. match goal with |- context [update_v_s _ _ _ _ ?Z ?r _] =>
      pose proof (@update_v_s_component Z r st) as S;
      destruct (update_v_s_frame P C rnd cfg Z r st)
        as [_ [Hu [Hv [Hw Hus]]]] end.
    repeat split; auto using same_rows_eq.
  - subst st'. repeat split; apply same_rows_refl.
Qed.

End OneComponent.

(** ** Reseeding, and more on the shift search *)

Lemma prevent_zeros_keeps (rnd : oracle) (x : vec) (g : nat) :
  (exists xi, In xi x /\ (lit_1e_9 < Qcabs xi)%Qc) ->
  _prevent_zeros rnd x g = (x, g).
Proof.
  intros [xi [I G]]. unfold _prevent_zeros.
  replace (existsb (fun xi => Qcgtb (Qcabs xi) lit_1e_9) x) with true;
    [reflexivity|].
  symmetry. apply existsb_exists. exists xi. split; [exact I|].
  unfold Qcgtb. now apply Qcltb_iff.
Qed.

(** X8: [_prevent_zeros] keeps the length of its argument.  A vector with an
    entry above 1e-9 in magnitude is returned as it is and nothing is
    drawn; a vector whose entries all have magnitude at most 1e-9 (the
    threshold included) is replaced by [len(x)] consecutive draws of the
    generator. *)
Theorem prevent_zeros_spec (rnd : oracle) (x : vec) (g : nat) :
  length (fst (_prevent_zeros rnd x g)) = length x /\
  ((exists xi, In xi x /\ (lit_1e_9 < Qcabs xi)%Qc) ->
   _prevent_zeros rnd x g = (x, g)) /\
  ((forall xi, In xi x -> (Qcabs xi <= lit_1e_9)%Qc) ->
   _prevent_zeros rnd x g
   = (map (random rnd) (seq g (length x)), g + length x)).
Proof.
  split; [|split; [apply prevent_zeros_keeps|]].
  - unfold _prevent_zeros, rand. destruct (existsb _ x); simpl;
      [reflexivity|now rewrite length_map, length_seq].
  - intro H. unfold _prevent_zeros, rand.
    destruct (existsb (fun xi => Qcgtb (Qcabs xi) lit_1e_9) x) eqn:E;
      [|reflexivity].
    exfalso. apply existsb_exists in E. destruct E as [xi [I G]].
    unfold Qcgtb in G. apply Qcltb_iff in G.
    apply (Qclt_not_le _ _ G). now apply H.
Qed.

Section SearchFacts.

Variable P : padded_shifts.ops.
Variable C : periodic_shifts.ops.
Variable rnd : oracle.
Variables (Zm : mat) (y : Qc) (f f_s w : vec) (max_shift : Qc).
Variables (periodic : bool) (init_shift : Qc) (M T : nat).

Local Abbreviation total := (total_loss P C Zm y f f_s w periodic M T).
Local Abbreviation search :=
  (_fit_shift P C rnd Zm y f f_s w max_shift periodic).

(** The result of a search with at least one pass, by its rank among the
    candidates. *)
Lemma search_result (n_iter : Z) (g : nat) :
  (0 < n_iter)%Z ->
  exists j,
    fst (search n_iter init_shift M T g) = candidate rnd max_shift init_shift g j /\
    (total (candidate rnd max_shift init_shift g j) <= total init_shift)%Qc /\
    (forall i, i < j ->
       (total (candidate rnd max_shift init_shift g j)
        < total (candidate rnd max_shift init_shift g i))%Qc).
Proof.
  intro Hn. destruct (Z.to_nat n_iter) as [|n] eqn:En; [lia|].
  destruct (candidate_loop P C rnd Zm y f f_s w max_shift periodic init_shift
              M T g n) as [j [Hj [E [Hmin Hfirst]]]].
  exists j. split; [|split].
  - unfold _fit_shift. rewrite En, E. reflexivity.
  - rewrite <- (candidate_0 rnd max_shift init_shift g). apply Hmin. lia.
  - exact Hfirst.
Qed.

(** X9: a shift update never makes the block loss worse: the total loss of the
    shift returned is at most the total loss of the seed. *)
Theorem search_never_worse_than_seed (n_iter : Z) (g : nat) :
  (0 < n_iter)%Z ->
  (total_loss P C Zm y f f_s w periodic M T
     (fst (_fit_shift P C rnd Zm y f f_s w max_shift periodic n_iter
             init_shift M T g))
   <= total_loss P C Zm y f f_s w periodic M T init_shift)%Qc.
Proof.
  intro Hn. destruct (search_result g Hn) as [j [E [L _]]].
  rewrite E. exact L.
Qed.

(** The total loss does not depend on the shift when the outer weight is
    zero or the block has no row. *)
Lemma total_loss_flat (s s' : Qc) :
  y = 0%Qc \/ M = 0 -> total s = total s'.
Proof.
  intros [Hy|HM]; unfold total_loss.
  - assert (E : forall loss m,
              add_row_loss P C Zm y f f_s w periodic T s loss m
              = add_row_loss P C Zm y f f_s w periodic T s' loss m).
    { intros loss m. unfold add_row_loss. rewrite Hy.
      generalize (seq 0 T). intro l. revert loss.
      induction l as [|t l IH]; intro loss; simpl; [reflexivity|].
      rewrite !Qcmult_0_l. apply IH. }
    generalize (seq 0 M) 0%Qc. intro l.
    induction l as [|m l IH]; intro loss; simpl; [reflexivity|].
    rewrite E. apply IH.
  - rewrite HM. reflexivity.
Qed.

(** X10: a zero weight, or an empty block, leaves the shift where it was: every
    candidate ties with the seed, and the seed is the first. *)
Theorem seed_kept_when_loss_is_flat (n_iter : Z) (g : nat) :
  (0 < n_iter)%Z ->
  y = 0%Qc \/ M = 0 ->
  fst (_fit_shift P C rnd Zm y f f_s w max_shift periodic n_iter init_shift
         M T g)
  = init_shift.
Proof.
  intros Hn Hflat. destruct (search_result g Hn) as [j [E [_ F]]].
  rewrite E. destruct j as [|j]; [apply candidate_0|].
  exfalso. specialize (F 0 ltac:(lia)).
  rewrite (total_loss_flat _ (candidate rnd max_shift init_shift g 0) Hflat)
    in F.
  revert F. apply Qcle_not_lt, Qcle_refl.
Qed.

End SearchFacts.

Section KruskalEdge.

Variable linalg_norm : vec -> Qc.
Variable argsort_reversed : vec -> list nat.

(** X11: [standardize_kruskal] returns on no input: the empty list fails at
    [factors[0]] with [IndexError], every other list at [self] with
    [NameError]. *)
Theorem standardize_kruskal_never_returns (factors : list ndarray) :
  standardize_kruskal linalg_norm argsort_reversed factors
  = Raise (match factors with [] => IndexError | _ :: _ => NameError end).
Proof. destruct factors; reflexivity. Qed.

End KruskalEdge.

(** ** The estimate, component by component *)

Section Estimate.

Variable P : padded_shifts.ops.
Variable C : periodic_shifts.ops.
Variables (u v w u_s v_s : mat) (periodic : bool) (T : nat).

Local Abbreviation term := (component_term P C u v w u_s v_s periodic T).
Local Abbreviation psum := (partial_sum P C u v w u_s v_s periodic T).

Lemma predict_slice_entry (skip_dim : Z) (n k t : nat) :
  t < T ->
  get1 (predict_slice P C u v w u_s v_s periodic T skip_dim n k) t
  = psum skip_dim n k t (seq 0 (length u)) 0%Qc.
Proof.
  intro Ht. unfold predict_slice.
  assert (Z0 : get1 (repeat 0%Qc T) t = 0%Qc) by apply nth_repeat.
  rewrite <- Z0 at 2. generalize (repeat 0%Qc T). generalize (seq 0 (length u)).
  induction l as [|r l IH]; intro acc; simpl; [reflexivity|].
  rewrite IH. destruct (Z.of_nat r =? skip_dim)%Z; [reflexivity|].
  f_equal. unfold get1 at 1. now rewrite nth_map_seq.
Qed.

Lemma partial_sum_shift (skip_dim : Z) (n k t : nat) (l : list nat)
    (acc x : Qc) :
  psum skip_dim n k t l (acc + x)%Qc
  = (psum skip_dim n k t l acc + x)%Qc.
Proof.
  revert acc. induction l as [|r l IH]; intro acc; simpl; [reflexivity|].
  destruct (Z.of_nat r =? skip_dim)%Z; [apply IH|].
  rewrite <- IH. f_equal. ring.
Qed.

Lemma partial_sum_without (r n k t : nat) (l : list nat) (acc : Qc) :
  ~ In r l ->
  psum (-1)%Z n k t l acc = psum (Z.of_nat r) n k t l acc.
Proof.
  revert acc. induction l as [|a l IH]; intros acc Hr; simpl; [reflexivity|].
  replace (Z.of_nat a =? -1)%Z with false by (symmetry; apply Z.eqb_neq; lia).
  replace (Z.of_nat a =? Z.of_nat r)%Z with false.
  - apply IH. intro I. apply Hr. now right.
  - symmetry. apply Z.eqb_neq. intro E. apply Hr. left. lia.
Qed.

Lemma partial_sum_with (r n k t : nat) (l : list nat) :
  NoDup l -> In r l -> forall acc,
  psum (-1)%Z n k t l acc
  = (psum (Z.of_nat r) n k t l acc + term n k t r)%Qc.
Proof.
  induction l as [|a l IH]; intros Hnd Hin acc; [destruct Hin|].
  inversion Hnd as [|? ? Ha Hl]; subst. simpl.
  replace (Z.of_nat a =? -1)%Z with false by (symmetry; apply Z.eqb_neq; lia).
  destruct (Nat.eq_dec a r) as [->|Ne].
  - rewrite Z.eqb_refl. rewrite partial_sum_shift.
    now rewrite (partial_sum_without r n k t l acc Ha).
  - replace (Z.of_nat a =? Z.of_nat r)%Z with false
      by (symmetry; apply Z.eqb_neq; lia).
    apply IH; [exact Hl|]. destruct Hin as [E|I]; [congruence|exact I].
Qed.

(** X12: the residual against [predict(..., skip_dim=r)] is a leave-one-out
    residual: the full estimate is the estimate without component [r]
    plus the contribution [u[r, n] * v[r, k] * shift(w[r])[t]] of that
    component. *)
Theorem predict_leave_one_out (N K r n k t : nat) :
  r < length u -> n < N -> k < K -> t < T ->
  get3 (predict P C u v w u_s v_s periodic N K T (-1)) n k t
  = (get3 (predict P C u v w u_s v_s periodic N K T (Z.of_nat r)) n k t
     + get1 (shifted P C periodic (row w r)
               (get2 u_s r n + get2 v_s r k)%Qc T) t
       * get2 u r n * get2 v r k)%Qc.
Proof.
  intros Hr Hn Hk Ht. unfold get3, slice, row, predict.
  rewrite !nth_map_seq by assumption.
  rewrite !predict_slice_entry by exact Ht.
  apply (partial_sum_with r n k t (seq_NoDup _ _)). apply in_seq. lia.
Qed.

(** Without any component the estimate is zero. *)
Lemma predict_slice_entry_nil (skip_dim : Z) (n k t : nat) :
  u = [] -> t < T ->
  get1 (predict_slice P C u v w u_s v_s periodic T skip_dim n k) t = 0%Qc.
Proof. intros -> Ht. apply nth_repeat. Qed.

End Estimate.

(** ** The sign flip *)

Lemma Qcopp_0 : (- 0)%Qc = 0%Qc.
Proof. ring. Qed.

Lemma get1_vneg (x : vec) (t : nat) : get1 (vneg x) t = (- get1 x t)%Qc.
Proof.
  unfold get1, vneg. rewrite <- Qcopp_0 at 1. apply map_nth.
Qed.

Lemma upd_upd {A : Type} (i : nat) (x y : A) (l : list A) :
  upd i y (upd i x l) = upd i y l.
Proof.
  revert i. induction l as [|a l IH]; intros [|i]; simpl; auto.
  now rewrite IH.
Qed.

Lemma row_upd_in_range (m : mat) (r : nat) (x : vec) :
  r < length m -> row (upd r x m) r = x.
Proof. intro H. unfold row. now apply nth_upd_same. Qed.

(** On a vector of negative entries the projection leaves the negated
    vector as it is. *)
Lemma np_maximum0_vneg (x : vec) :
  all_negative x = true -> np_maximum0 (vneg x) = vneg x.
Proof.
  unfold all_negative, np_maximum0, vneg. intro H.
  rewrite forallb_forall in H. rewrite map_map. apply map_ext_in.
  intros a Ha. specialize (H a Ha). apply Qcltb_iff in H.
  unfold py_max, Qcgtb.
  replace (Qcltb 0 (- a)) with true; [reflexivity|].
  symmetry. apply Qcltb_iff. apply Qclt_minus_iff in H.
  now rewrite Qcplus_0_l in H.
Qed.

Section SignFlip.

Variable P : padded_shifts.ops.
Variable C : periodic_shifts.ops.
Variable rnd : oracle.
Variable cfg : config.

(** The shift operator of the boundary mode commutes with negation. *)
Hypothesis shift_is_odd :
  forall x s T,
    shifted P C (periodic cfg) (vneg x) s T
    = vneg (shifted P C (periodic cfg) x s T).

(** The end of the axis-0 update on an all-negative row with an entry
    above the reseeding threshold: [u[r]] and [w[r]] are negated together
    and nothing else changes. *)
Lemma finish_u_flips (r : nat) (st : state) :
  all_negative (row (st_u st) r) = true ->
  (exists xi, In xi (row (st_u st) r) /\ (lit_1e_9 < Qcabs xi)%Qc) ->
  finish_u rnd cfg r st
  = with_w (with_u st (upd r (vneg (row (st_u st) r)) (st_u st)))
           (upd r (vneg (row (st_w st) r)) (st_w st)).
Proof.
  intros Hneg [xi [Hin Hbig]].
  assert (Hr : r < length (st_u st)).
  { destruct (Nat.lt_ge_cases r (length (st_u st))) as [L|G]; [exact L|].
    unfold row in Hin. rewrite nth_overflow in Hin by exact G.
    destruct Hin. }
  unfold finish_u. rewrite Hneg.
  set (st1 := with_w _ _).
  assert (R1 : row (st_u st1) r = vneg (row (st_u st) r)).
  { unfold st1. simpl. now apply row_upd_in_range. }
  set (st2 := if u_nonneg cfg then _ else st1).
  assert (E2 : st2 = st1).
  { unfold st2. destruct (u_nonneg cfg); [|reflexivity].
    rewrite R1, (np_maximum0_vneg _ Hneg). unfold st1. simpl.
    unfold with_u. simpl. now rewrite upd_upd. }
  rewrite E2.
  assert (Z : _prevent_zeros rnd (row (st_u st1) r) (st_rng st1)
              = (row (st_u st1) r, st_rng st1)).
  { apply prevent_zeros_keeps.
    exists (- xi)%Qc. split.
    - rewrite R1. unfold vneg. now apply in_map.
    - now rewrite Qcabs_opp. }
  rewrite Z, R1. unfold st1, with_rng, with_u, with_w. simpl.
  now rewrite upd_upd.
Qed.

(** X13: the sign flip of the axis-0 update preserves the model: when [u[r]]
    comes out all negative (with an entry above the reseeding threshold),
    negating [u[r]] and [w[r]] together leaves every entry of the
    estimate, with or without a skipped component, as it was. *)
Theorem sign_flip_keeps_estimate (r : nat) (st : state) (skip_dim : Z)
    (n k t : nat) :
  all_negative (row (st_u st) r) = true ->
  (exists xi, In xi (row (st_u st) r) /\ (lit_1e_9 < Qcabs xi)%Qc) ->
  r < length (st_w st) ->
  n < dim_N cfg -> k < dim_K cfg -> t < dim_T cfg ->
  st_w (finish_u rnd cfg r st) = upd r (vneg (row (st_w st) r)) (st_w st) /\
  get3 (estimate P C cfg (finish_u rnd cfg r st) skip_dim) n k t
  = get3 (estimate P C cfg st skip_dim) n k t.
Proof.
  intros Hneg Hbig Hw Hn Hk Ht. rewrite (finish_u_flips r st Hneg Hbig).
  split; [reflexivity|].
  assert (Hr : r < length (st_u st)).
  { destruct Hbig as [xi [Hin _]].
    destruct (Nat.lt_ge_cases r (length (st_u st))) as [L|G]; [exact L|].
    unfold row in Hin. rewrite nth_overflow in Hin by exact G.
    destruct Hin. }
  unfold estimate, get3, slice, row, predict. simpl.
  rewrite !nth_map_seq by assumption.
  rewrite !predict_slice_entry by exact Ht.
  rewrite length_upd. unfold partial_sum.
  generalize 0%Qc. generalize (seq 0 (length (st_u st))).
  intro l. induction l as [|a l IH]; intro acc; simpl; [reflexivity|].
  assert (E : component_term P C
                (upd r (vneg (nth r (st_u st) [])) (st_u st)) (st_v st)
                (upd r (vneg (nth r (st_w st) [])) (st_w st)) (st_u_s st)
                (st_v_s st) (periodic cfg) (dim_T cfg) n k t a
              = component_term P C (st_u st) (st_v st) (st_w st) (st_u_s st)
                  (st_v_s st) (periodic cfg) (dim_T cfg) n k t a).
  { unfold component_term. destruct (Nat.eq_dec r a) as [<-|Ne].
    - unfold get2 at 3 7. rewrite !row_upd_in_range by assumption.
      rewrite shift_is_odd, !get1_vneg. unfold get2, row. ring.
    - unfold get2 at 3 7. rewrite !row_upd_other by exact Ne. reflexivity. }
  rewrite E. apply IH.
Qed.

(** The end of the axis-1 update on an all-negative row with an entry
    above the reseeding threshold: [v[r]] and [w[r]] are negated together
    and nothing else changes. *)
Lemma finish_v_flips (r : nat) (st : state) :
  all_negative (row (st_v st) r) = true ->
  (exists xi, In xi (row (st_v st) r) /\ (lit_1e_9 < Qcabs xi)%Qc) ->
  finish_v rnd cfg r st
  = with_w (with_v st (upd r (vneg (row (st_v st) r)) (st_v st)))
           (upd r (vneg (row (st_w st) r)) (st_w st)).
Proof.
  intros Hneg [xi [Hin Hbig]].
  assert (Hr : r < length (st_v st)).
  { destruct (Nat.lt_ge_cases r (length (st_v st))) as [L|G]; [exact L|].
    unfold row in Hin. rewrite nth_overflow in Hin by exact G.
    destruct Hin. }
  unfold finish_v. rewrite Hneg.
  set (st1 := with_w _ _).
  assert (R1 : row (st_v st1) r = vneg (row (st_v st) r)).
  { unfold st1. simpl. now apply row_upd_in_range. }
  set (st2 := if v_nonneg cfg then _ else st1).
  assert (E2 : st2 = st1).
  { unfold st2. destruct (v_nonneg cfg); [|reflexivity].
    rewrite R1, (np_maximum0_vneg _ Hneg). unfold st1. simpl.
    unfold with_v. simpl. now rewrite upd_upd. }
  rewrite E2.
  assert (Z : _prevent_zeros rnd (row (st_v st1) r) (st_rng st1)
              = (row (st_v st1) r, st_rng st1)).
  { apply prevent_zeros_keeps.
    exists (- xi)%Qc. split.
    - rewrite R1. unfold vneg. now apply in_map.
    - now rewrite Qcabs_opp. }
  rewrite Z, R1. unfold st1, with_rng, with_v, with_w. simpl.
  now rewrite upd_upd.
Qed.

(** X14: the sign flip of the axis-1 update preserves the model: when [v[r]]
    comes out all negative (with an entry above the reseeding threshold),
    negating [v[r]] and [w[r]] together leaves every entry of the
    estimate, with or without a skipped component, as it was. *)
Theorem sign_flip_v_keeps_estimate (r : nat) (st : state) (skip_dim : Z)
    (n k t : nat) :
  all_negative (row (st_v st) r) = true ->
  (exists xi, In xi (row (st_v st) r) /\ (lit_1e_9 < Qcabs xi)%Qc) ->
  r < length (st_w st) ->
  n < dim_N cfg -> k < dim_K cfg -> t < dim_T cfg ->
  st_w (finish_v rnd cfg r st) = upd r (vneg (row (st_w st) r)) (st_w st) /\
  get3 (estimate P C cfg (finish_v rnd cfg r st) skip_dim) n k t
  = get3 (estimate P C cfg st skip_dim) n k t.
Proof.
  intros Hneg Hbig Hw Hn Hk Ht. rewrite (finish_v_flips r st Hneg Hbig).
  split; [reflexivity|].
  assert (Hr : r < length (st_v st)).
  { destruct Hbig as [xi [Hin _]].
    destruct (Nat.lt_ge_cases r (length (st_v st))) as [L|G]; [exact L|].
    unfold row in Hin. rewrite nth_overflow in Hin by exact G.
    destruct Hin. }
  unfold estimate, get3, slice, row, predict. simpl.
  rewrite !nth_map_seq by assumption.
  rewrite !predict_slice_entry by exact Ht.
  unfold partial_sum.
  generalize 0%Qc. generalize (seq 0 (length (st_u st))).
  intro l. induction l as [|a l IH]; intro acc; simpl; [reflexivity|].
  assert (E : component_term P C (st_u st)
                (upd r (vneg (nth r (st_v st) [])) (st_v st))
                (upd r (vneg (nth r (st_w st) [])) (st_w st)) (st_u_s st)
                (st_v_s st) (periodic cfg) (dim_T cfg) n k t a
              = component_term P C (st_u st) (st_v st) (st_w st) (st_u_s st)
                  (st_v_s st) (periodic cfg) (dim_T cfg) n k t a).
  { unfold component_term. destruct (Nat.eq_dec r a) as [<-|Ne].
    - unfold get2 at 4 8. rewrite !row_upd_in_range by assumption.
      rewrite shift_is_odd, !get1_vneg. unfold get2, row. ring.
    - unfold get2 at 4 8. rewrite !row_upd_other by exact Ne. reflexivity. }
  rewrite E. apply IH.
Qed.

End SignFlip.

(** ** The ridge and the step size *)

Lemma Qcmult_nonneg (a b : Qc) : (0 <= a)%Qc -> (0 <= b)%Qc -> (0 <= a * b)%Qc.
Proof.
  intros Ha Hb. rewrite <- (Qcmult_0_l b). now apply Qcmult_le_compat_r.
Qed.

Lemma Qcplus_nonneg_r (a b : Qc) : (0 <= b)%Qc -> (a <= a + b)%Qc.
Proof.
  intro Hb. rewrite <- (Qcplus_0_r a) at 1.
  apply Qcplus_le_compat; [apply Qcle_refl|exact Hb].
Qed.

Lemma lit_1e_8_positive : (0 < lit_1e_8)%Qc.
Proof. reflexivity. Qed.

Section Ridge.

Variable P : padded_shifts.ops.
Variable cfg : config.

Local Abbreviation T := (dim_T cfg).

(** The contributions to the Gram matrix have non-negative entries. *)
Hypothesis gram_nonneg :
  forall s n i t, (0 <= get2 (padded_shifts.shift_gram P s n) i t)%Qc.

Lemma gram_entry_lower (r : nat) (st : state) (i t : nat) :
  ((if Nat.eqb i 1 then (0 + lit_1e_8)%Qc else 0%Qc)
   <= gram_entry P cfg r st i t)%Qc.
Proof.
  unfold gram_entry.
  apply (fold_left_inv
           (fun acc => ((if Nat.eqb i 1 then (0 + lit_1e_8)%Qc else 0%Qc)
                        <= acc)%Qc)); [|apply Qcle_refl].
  intros acc [n k] H. eapply Qcle_trans; [exact H|].
  apply Qcplus_nonneg_r. apply Qcmult_nonneg; [|apply gram_nonneg].
  apply Qc_square_nonneg.
Qed.

Lemma lipschitz_lower (WtW : mat) :
  (lit_1e_8 <= get2 WtW 1 0)%Qc -> (0 <= get2 WtW 0 1)%Qc ->
  (lit_1e_8 <= lipschitz cfg WtW)%Qc.
Proof.
  intros Hd Hs. unfold lipschitz.
  apply (fold_left_inv (fun L => (lit_1e_8 <= L)%Qc)).
  - intros L i H. destruct (Qcgtb _ L) eqn:G; [|exact H].
    unfold Qcgtb in G. apply Qcltb_iff in G.
    eapply Qcle_trans; [exact H|now apply Qclt_le_weak].
  - assert (A : (lit_1e_8 <= get2 WtW 1 0 + get2 WtW 0 1)%Qc).
    { eapply Qcle_trans; [exact Hd|now apply Qcplus_nonneg_r]. }
    unfold py_max. destruct (Qcgtb _ _) eqn:G; [|exact A].
    unfold Qcgtb in G. apply Qcltb_iff in G.
    eapply Qcle_trans; [exact A|now apply Qclt_le_weak].
Qed.

(** X15: with the ridge on the diagonal the padded temporal update cannot
    fail: for [T >= 2] and non-negative Gram contributions the bound [L]
    is at least 1e-8, so that [0.95 / L] never divides by zero. *)
Theorem padded_temporal_update_never_raises (Zr : tensor) (r : nat)
    (st : state) :
  2 <= T ->
  (lit_1e_8 <= lipschitz cfg (fst (padded_system P cfg Zr r st)))%Qc /\
  exists st', update_w_padded P cfg Zr r st = Ok st'.
Proof.
  intro HT.
  assert (L : (lit_1e_8
               <= lipschitz cfg (fst (padded_system P cfg Zr r st)))%Qc).
  { apply lipschitz_lower.
    - rewrite (padded_system_entries P cfg Zr r st (i := 1) (t := 0))
        by lia.
      pose proof (gram_entry_lower r st 1 0) as G. simpl in G.
      now rewrite Qcplus_0_l in G.
    - rewrite (padded_system_entries P cfg Zr r st (i := 0) (t := 1))
        by lia.
      apply (gram_entry_lower r st 0 1). }
  split; [exact L|].
  unfold update_w_padded.
  destruct (padded_system P cfg Zr r st) as [WtW rhs]. simpl in L.
  rewrite fdiv_nonzero; [simpl; eauto|].
  intro E. rewrite E in L.
  apply (Qclt_not_le _ _ lit_1e_8_positive L).
Qed.

End Ridge.

(** ** The operators modelled from the specification *)

Lemma frac_unit (s : Qc) : (0 <= frac s)%Qc /\ (frac s <= 1)%Qc.
Proof.
  unfold frac, whole, of_Z.
  pose proof (Qfloor_le s) as Lo. pose proof (Qlt_floor s) as Hi.
  rewrite inject_Z_plus in Hi.
  unfold Qcle, Qcminus, Qcplus, Qcopp. cbn [this Q2Qc].
  rewrite !Qred_correct. change (inject_Z 1) with 1%Q in Hi.
  split; lra.
Qed.

Lemma indicator_nonneg (b : bool) : (0 <= indicator b)%Qc.
Proof. destruct b; simpl; [discriminate|apply Qcle_refl]. Qed.

Lemma get1_map_seq_nonneg (g : nat -> Qc) (n t : nat) :
  (forall j, (0 <= g j)%Qc) -> (0 <= get1 (map g (seq 0 n)) t)%Qc.
Proof.
  intro H. unfold get1. destruct (Nat.lt_ge_cases t n) as [L|G].
  - rewrite nth_map_seq by exact L. apply H.
  - rewrite nth_overflow; [apply Qcle_refl|].
    now rewrite length_map, length_seq.
Qed.

Lemma padded_model_gram_nonneg (s : Qc) (n i t : nat) :
  (0 <= get2 (padded_shifts.shift_gram padded_model.ops s n) i t)%Qc.
Proof.
  destruct (frac_unit s) as [F0 F1].
  assert (G1 : (0 <= 1 - frac s)%Qc).
  { apply Qcle_minus_iff in F1. exact F1. }
  simpl. unfold padded_model.shift_gram, get2, row.
  destruct i as [|[|i]]; simpl.
  - apply get1_map_seq_nonneg. intro j.
    destruct (Nat.eqb j 0); [apply Qcle_refl|].
    repeat apply Qcmult_nonneg; auto using indicator_nonneg.
  - apply get1_map_seq_nonneg. intro j.
    eapply Qcle_trans; [|apply Qcplus_nonneg_r];
      repeat apply Qcmult_nonneg; auto using indicator_nonneg.
  - unfold get1. destruct i, t; apply Qcle_refl.
Qed.

Lemma at_or_zero_vneg (x : vec) (n : nat) (j : Z) :
  at_or_zero (vneg x) n j = (- at_or_zero x n j)%Qc.
Proof.
  unfold at_or_zero. destruct (_ && _); [apply get1_vneg|].
  symmetry. apply Qcopp_0.
Qed.

Lemma padded_model_shift_is_odd (x : vec) (s : Qc) (n : nat) :
  padded_shifts.apply_shift padded_model.ops (vneg x) s n
  = vneg (padded_shifts.apply_shift padded_model.ops x s n).
Proof.
  simpl. unfold padded_model.apply_shift, vneg at 3. rewrite map_map.
  apply map_ext. intro t. rewrite !at_or_zero_vneg. ring.
Qed.

(** ** The generator in the shift search, and the skipped component *)

Section SearchDraws.

Variable P : padded_shifts.ops.
Variable C : periodic_shifts.ops.
Variable rnd : oracle.
Variables (Zm : mat) (y : Qc) (f f_s w : vec) (max_shift : Qc).
Variables (periodic : bool) (init_shift : Qc) (M T : nat).

(** X16: a shift search draws once per pass after the first, whatever the
    data: the early exit leaves the row loop, not the candidate loop, so
    that the generator is advanced by [max(n_iter - 1, 0)]. *)
Theorem search_draw_count (n_iter : Z) (g : nat) :
  snd (_fit_shift P C rnd Zm y f f_s w max_shift periodic n_iter init_shift
         M T g)
  = g + (Z.to_nat n_iter - 1).
Proof.
  unfold _fit_shift. destruct (Z.to_nat n_iter) as [|n] eqn:En.
  - simpl. lia.
  - destruct (candidate_loop P C rnd Zm y f f_s w max_shift periodic
                init_shift M T g n) as [j [_ [E _]]].
    rewrite E. simpl. lia.
Qed.

End SearchDraws.

Section SkippedComponent.

Variable P : padded_shifts.ops.
Variable C : periodic_shifts.ops.
Variables (u v w u_s v_s : mat) (periodic : bool) (T : nat).

Lemma partial_sum_out_of_range (skip_dim : Z) (n k t : nat) (l : list nat)
    (acc : Qc) :
  (forall a, In a l -> Z.of_nat a <> skip_dim) ->
  partial_sum P C u v w u_s v_s periodic T skip_dim n k t l acc
  = partial_sum P C u v w u_s v_s periodic T (-1) n k t l acc.
Proof.
  revert acc. induction l as [|a l IH]; intros acc H; simpl; [reflexivity|].
  replace (Z.of_nat a =? -1)%Z with false by (symmetry; apply Z.eqb_neq; lia).
  replace (Z.of_nat a =? skip_dim)%Z with false.
  - apply IH. intros b Hb. apply H. now right.
  - symmetry. apply Z.eqb_neq. apply H. now left.
Qed.

(** X17: a [skip_dim] that is no component index skips nothing: negative
    values (no wrap-around, the index is only compared) and values from
    the rank on give the full estimate, as the default [-1] does. *)
Theorem predict_skip_out_of_range (N K : nat) (skip_dim : Z) (n k t : nat) :
  (skip_dim < 0 \/ Z.of_nat (length u) <= skip_dim)%Z ->
  n < N -> k < K -> t < T ->
  get3 (predict P C u v w u_s v_s periodic N K T skip_dim) n k t
  = get3 (predict P C u v w u_s v_s periodic N K T (-1)) n k t.
Proof.
  intros Hs Hn Hk Ht. unfold get3, slice, row, predict.
  rewrite !nth_map_seq by assumption.
  rewrite !predict_slice_entry by exact Ht.
  apply partial_sum_out_of_range. intros a Ha. apply in_seq in Ha. lia.
Qed.

End SkippedComponent.

(** ** Divisions and their guards *)

Section Divisions.

Variable P : padded_shifts.ops.
Variable C : periodic_shifts.ops.
Variable rnd : oracle.
Variable linalg_norm : vec -> Qc.
Variable cfg : config.

(** C7, as the code has it: one division of the main loop is protected,
    the others are not.  The ratio updates of [u[r, n]] and [v[r, k]]
    raise [ZeroDivisionError] exactly when the accumulated denominator is
    zero and store the exact quotient otherwise, and the loss
    [norm / Xnorm] raises exactly when [Xnorm] is zero.  The step size
    [0.95 / L] of the padded temporal update is protected by the ridge:
    with [T >= 2] and non-negative contributions to the Gram matrix, [L]
    is at least 1e-8 and the update raises nothing. *)
Theorem only_step_size_is_guarded (Zr : tensor) (r i : nat) (st : state) :
  (set_u_entry P C cfg Zr r st i = Raise ZeroDivisionError <->
   snd (ratio_u P C cfg Zr r st i) = 0%Qc) /\
  (set_v_entry P C cfg Zr r st i = Raise ZeroDivisionError <->
   snd (ratio_v P C cfg Zr r st i) = 0%Qc) /\
  (snd (ratio_u P C cfg Zr r st i) <> 0%Qc ->
   set_u_entry P C cfg Zr r st i =
   Ok (with_u st (set2 (st_u st) r i
                    (fst (ratio_u P C cfg Zr r st i)
                     / snd (ratio_u P C cfg Zr r st i))%Qc))) /\
  (snd (ratio_v P C cfg Zr r st i) <> 0%Qc ->
   set_v_entry P C cfg Zr r st i =
   Ok (with_v st (set2 (st_v st) r i
                    (fst (ratio_v P C cfg Zr r st i)
                     / snd (ratio_v P C cfg Zr r st i))%Qc))) /\
  (forall it st1,
     for_each (update_group P C rnd cfg it)
       (permutation rnd (Z.to_nat it) (rank cfg * 5)) st = Ok st1 ->
     (outer_iteration P C rnd linalg_norm cfg it st = Raise ZeroDivisionError
      <-> Xnorm cfg = 0%Qc)) /\
  (2 <= dim_T cfg ->
   (forall s n j t,
      (0 <= get2 (padded_shifts.shift_gram P s n) j t)%Qc) ->
   (lit_1e_8 <= lipschitz cfg (fst (padded_system P cfg Zr r st)))%Qc /\
   forall e, update_w_padded P cfg Zr r st <> Raise e).
Proof.
  assert (D : forall x y (k : Qc -> res state),
             (forall q, k q <> Raise ZeroDivisionError) ->
             ((q <- fdiv x y ;; k q) = Raise ZeroDivisionError <-> y = 0%Qc)).
  { intros x y k Hk. unfold fdiv. destruct (Qc_eq_bool y 0) eqn:E; simpl.
    - apply Qc_eq_bool_iff in E. tauto.
    - split; [intro H; now apply Hk in H|].
      intro H. apply Qc_eq_bool_iff in H. congruence. }
  split; [|split; [|split; [|split; [|split]]]].
  - unfold set_u_entry. destruct (ratio_u P C cfg Zr r st i) as [nu du].
    apply D. discriminate.
  - unfold set_v_entry. destruct (ratio_v P C cfg Zr r st i) as [nv dv].
    apply D. discriminate.
  - unfold set_u_entry. destruct (ratio_u P C cfg Zr r st i) as [nu du].
    simpl. intro H. now rewrite (fdiv_nonzero _ H).
  - unfold set_v_entry. destruct (ratio_v P C cfg Zr r st i) as [nv dv].
    simpl. intro H. now rewrite (fdiv_nonzero _ H).
  - intros it st1 E. unfold outer_iteration. rewrite E. simpl.
    unfold fdiv. destruct (Qc_eq_bool (Xnorm cfg) 0) eqn:X; simpl.
    + apply Qc_eq_bool_iff in X. tauto.
    + split; [discriminate|]. intro H. apply Qc_eq_bool_iff in H.
      congruence.
  - intros HT Hg.
    assert (L : (lit_1e_8
                 <= lipschitz cfg (fst (padded_system P cfg Zr r st)))%Qc).
    { apply lipschitz_lower.
      - rewrite (padded_system_entries P cfg Zr r st (i := 1) (t := 0))
          by lia.
        pose proof (@gram_entry_lower P cfg Hg r st 1 0) as G. simpl in G.
        now rewrite Qcplus_0_l in G.
      - rewrite (padded_system_entries P cfg Zr r st (i := 0) (t := 1))
          by lia.
        apply (@gram_entry_lower P cfg Hg r st 0 1). }
    split; [exact L|]. intro e. unfold update_w_padded.
    destruct (padded_system P cfg Zr r st) as [WtW rhs]. simpl in L.
    rewrite fdiv_nonzero; [simpl; discriminate|].
    intro E. rewrite E in L.
    apply (Qclt_not_le _ _ lit_1e_8_positive L).
Qed.

End Divisions.

(** ** Entry checks *)

(** A draw of [npr.uniform(-B, B)] has magnitude at most [|B|], whatever
    the sign of [B]. *)
Lemma uniform_magnitude (B x : Qc) :
  (0 <= x)%Qc -> (x < 1)%Qc ->
  (Qcabs (- B + (B - - B) * x) <= Qcabs B)%Qc.
Proof.
  intros H0 H1. apply Qcabs_le_iff.
  destruct (Qclt_le_dec B 0) as [Neg|Pos].
  - rewrite (Qcabs_neg B) by now apply Qclt_le_weak.
    to_Q. split; nra.
  - rewrite (Qcabs_pos B) by exact Pos.
    to_Q. split; nra.
Qed.

Section EntryChecks.

Variable P : padded_shifts.ops.
Variable C : periodic_shifts.ops.
Variable rnd : oracle.
Variable linalg_norm : vec -> Qc.
Variable cfg : config.

Local Abbreviation reach := (runs P C rnd linalg_norm cfg).

(** A pass over an empty permutation completes when [Xnorm] is not zero,
    and leaves the factors and the shifts as they were. *)
Lemma empty_permutation_pass (it : Z) (st : state) :
  (rank cfg <= 0)%Z ->
  Permutation (permutation rnd (Z.to_nat it) (rank cfg * 5))
              (seq 0 (Z.to_nat (rank cfg * 5))) ->
  Xnorm cfg <> 0%Qc ->
  exists st' loss,
    outer_iteration P C rnd linalg_norm cfg it st = Ok (st', loss) /\
    st_u st' = st_u st /\ st_v st' = st_v st /\ st_w st' = st_w st /\
    st_u_s st' = st_u_s st /\ st_v_s st' = st_v_s st.
Proof.
  intros Hr Perm HX. unfold outer_iteration.
  replace (Z.to_nat (rank cfg * 5)) with 0 in Perm by lia.
  apply Permutation_sym, Permutation_nil in Perm. rewrite Perm. simpl.
  rewrite (fdiv_nonzero _ HX). simpl. eexists. eexists.
  split; [reflexivity|]. destruct (masked cfg); simpl; tauto.
Qed.

Lemma runs_without_component (n : nat) (ls ls' : loop_state) :
  (rank cfg <= 0)%Z ->
  (forall g, Permutation (permutation rnd g (rank cfg * 5))
                         (seq 0 (Z.to_nat (rank cfg * 5)))) ->
  Xnorm cfg <> 0%Qc ->
  reach n ls ls' ->
  st_u (ls_state ls') = st_u (ls_state ls) /\
  st_v (ls_state ls') = st_v (ls_state ls) /\
  st_w (ls_state ls') = st_w (ls_state ls) /\
  st_u_s (ls_state ls') = st_u_s (ls_state ls) /\
  st_v_s (ls_state ls') = st_v_s (ls_state ls).
Proof.
  intros Hr Perm HX R. induction R as [ls|n ls ls1 ls' G W R IH].
  - tauto.
  - destruct (empty_permutation_pass (itercount ls) (ls_state ls) Hr
                (Perm _) HX) as [st' [loss [O F]]].
    unfold while_body in W. rewrite O in W. simpl in W.
    destruct (check_converged _ _ _ _) as [c|e]; simpl in W;
      [|discriminate].
    injection W as <-. simpl in IH.
    destruct F as (F1 & F2 & F3 & F4 & F5).
    destruct IH as (I1 & I2 & I3 & I4 & I5).
    rewrite I1, I2, I3, I4, I5. auto.
Qed.

(** C8, as the code has it: nothing is validated at entry.  Whatever the
    rank, the shift bounds and the shapes of the arrays, a call whose
    [max_iter] is not positive returns its arrays as they were passed,
    with an empty loss history.  A rank that is zero or negative is not
    rejected: the permutation of [rank * 5] groups is empty, and the call
    makes its passes and returns the factors and the shifts unchanged,
    with one loss per pass.  A shift bound that is zero or negative is not
    rejected: it reaches [npr.uniform(-max_shift, max_shift)] as it is,
    and the search returns its seed or a draw of magnitude at most
    [|max_shift|]. *)
Theorem no_validation_at_entry (st : state) :
  ((max_iter cfg <= 0)%Z ->
   fit_shift_cp2 P C rnd linalg_norm cfg st =
   Ok (st_u st, st_v st, st_w st, st_u_s st, st_v_s st, [])) /\
  ((rank cfg <= 0)%Z ->
   (forall g, Permutation (permutation rnd g (rank cfg * 5))
                          (seq 0 (Z.to_nat (rank cfg * 5)))) ->
   shapes_agree cfg st ->
   Xnorm cfg <> 0%Qc ->
   (0 <= patience cfg)%Z ->
   exists hist,
     fit_shift_cp2 P C rnd linalg_norm cfg st =
     Ok (st_u st, st_v st, st_w st, st_u_s st, st_v_s st, hist) /\
     (Z.of_nat (length hist) <= Z.max 0 (max_iter cfg))%Z /\
     ((0 < max_iter cfg)%Z -> 1 <= length hist)) /\
  ((forall k, (0 <= random rnd k)%Qc /\ (random rnd k < 1)%Qc) ->
   forall Zm y f f_s w max_shift periodic n_iter init_shift M T g,
     (0 < n_iter)%Z ->
     fst (_fit_shift P C rnd Zm y f f_s w max_shift periodic n_iter
            init_shift M T g) = init_shift \/
     (Qcabs (fst (_fit_shift P C rnd Zm y f f_s w max_shift periodic n_iter
                    init_shift M T g))
      <= Qcabs max_shift)%Qc).
Proof.
  split; [|split].
  - intro H. unfold fit_shift_cp2, fit_run.
    replace (Z.to_nat (max_iter cfg)) with 0 by lia. reflexivity.
  - intros Hr Perm _ HX Hp. unfold fit_shift_cp2, fit_run.
    destruct (@main_loop_spec P C rnd linalg_norm cfg
                (Z.to_nat (max_iter cfg)) Hp (mkLoop st 0 [] false))
      as [n [ls' [R [Hn [[Jc Jv] [I [L D]]]]]]].
    + now apply consistent_init.
    + simpl. lia.
    + destruct (runs_without_component Hr Perm HX R)
        as (F1 & F2 & F3 & F4 & F5).
      simpl in F1, F2, F3, F4, F5, I, L.
      destruct D as [[Mn G]|[G [e [O _]]]].
      * rewrite Mn. simpl. exists (loss_hist ls').
        rewrite F1, F2, F3, F4, F5. split; [reflexivity|].
        split; [lia|]. intro Hpos.
        unfold guard in G. apply andb_false_iff in G.
        destruct G as [G|G].
        -- apply Z.ltb_ge in G. lia.
        -- destruct (converged ls') eqn:E; [|discriminate].
           destruct (proj1 Jv eq_refl) as [Gt _].
           unfold min_iter' in Gt. lia.
      * exfalso.
        destruct (empty_permutation_pass (itercount ls') (ls_state ls') Hr
                    (Perm _) HX) as [st' [loss [O' _]]].
        congruence.
  - intros Hu Zm y f f_s w max_shift periodic n_iter init_shift M T g Hn.
    destruct (@fit_shift_result P C rnd Hu Zm y f f_s w max_shift periodic
                n_iter init_shift M T g) as [_ [S _]].
    destruct (S Hn) as [E|[k E]]; [left; exact E|right].
    rewrite E. unfold uniform. simpl.
    destruct (Hu k) as [H0 H1]. now apply uniform_magnitude.
Qed.

End EntryChecks.

(** ** The further properties on concrete inputs *)

Lemma shifts_kept_on_first_pass_witness :
  st_u_s (fst masked_first_pass) = st_u_s masked_start /\
  st_v_s (fst masked_first_pass) = st_v_s masked_start.
Proof.
  apply (@shifts_kept_on_first_pass Pm Cm fixed_oracle norm_model
           masked_config masked_start (fst masked_first_pass)
           (snd masked_first_pass)).
  vm_compute. reflexivity.
Defined.

Lemma no_component_no_update_witness :
  exists st' loss,
    outer_iteration Pm Cm fixed_oracle norm_model invalid_config_one_pass 0
                    (ones X_positive) = Ok (st', loss) /\
    st_u st' = st_u (ones X_positive) /\
    st_v st' = st_v (ones X_positive) /\
    st_w st' = st_w (ones X_positive) /\
    st_u_s st' = st_u_s (ones X_positive) /\
    st_v_s st' = st_v_s (ones X_positive) /\
    st_rng st' = st_rng (ones X_positive).
Proof.
  destruct (outer_iteration Pm Cm fixed_oracle norm_model
              invalid_config_one_pass 0 (ones X_positive))
    as [[st' loss]|e] eqn:H; [|vm_compute in H; discriminate H].
  exists st', loss. split; [reflexivity|].
  apply (@no_component_no_update Pm Cm fixed_oracle norm_model
           invalid_config_one_pass 0 (ones X_positive) st' loss);
    [vm_compute; discriminate|apply perm_nil|exact H].
Defined.

Lemma imputed_entries_witness :
  mask_at (mask masked_config) 0 0 2 = false /\
  get3 (tsub 1 2 3 (st_X (fst masked_first_pass))
             (estimate Pm Cm masked_config (fst masked_first_pass) (-1)))
       0 0 2 = 0%Qc.
Proof.
  split; [reflexivity|].
  apply (@imputed_entries_have_zero_residual Pm Cm fixed_oracle norm_model
           masked_config 0 masked_start (fst masked_first_pass)
           (snd masked_first_pass) 0 0 2).
  - vm_compute. reflexivity.
  - split; [reflexivity|]. repeat constructor.
  - reflexivity.
  - simpl. lia.
  - simpl. lia.
  - simpl. lia.
  - reflexivity.
Defined.

Lemma nonpositive_tol_witness :
  exists ls,
    fit_run Pm Cm fixed_oracle norm_model zero_tol_config masked_start
    = Ok ls /\
    converged ls = false /\ length (loss_hist ls) = 2.
Proof.
  destruct (fit_run Pm Cm fixed_oracle norm_model zero_tol_config
              masked_start) as [ls|e] eqn:H;
    [|vm_compute in H; discriminate H].
  exists ls. split; [reflexivity|].
  apply (@nonpositive_tol_runs_to_max_iter Pm Cm fixed_oracle norm_model
           zero_tol_config masked_start ls);
    [vm_compute; discriminate|vm_compute; discriminate|exact H].
Defined.

Lemma minimum_number_of_passes_witness :
  exists ls,
    fit_run Pm Cm fixed_oracle norm_model masked_config masked_start
    = Ok ls /\
    (3 <= Z.of_nat (length (loss_hist ls)))%Z.
Proof.
  destruct (fit_run Pm Cm fixed_oracle norm_model masked_config
              masked_start) as [ls|e] eqn:H;
    [|vm_compute in H; discriminate H].
  exists ls. split; [reflexivity|].
  apply (@minimum_number_of_passes Pm Cm fixed_oracle norm_model
           masked_config masked_start ls);
    [vm_compute; discriminate|exact H].
Defined.

Lemma patience_one_witness :
  runs Pm Cm fixed_oracle norm_model patience_one_config 2
       (mkLoop masked_start 0 [] false)
       (advance Pm Cm fixed_oracle norm_model patience_one_config 2
                (mkLoop masked_start 0 [] false)) /\
  (Z.of_nat 2 <= Z.max 1 (min_iter patience_one_config) + 1)%Z.
Proof.
  assert (R : runs Pm Cm fixed_oracle norm_model patience_one_config 2
                (mkLoop masked_start 0 [] false)
                (advance Pm Cm fixed_oracle norm_model patience_one_config 2
                         (mkLoop masked_start 0 [] false))).
  { apply runs_advance. vm_compute. reflexivity. }
  split; [exact R|].
  apply (@patience_one_stops_at_first_test Pm Cm fixed_oracle norm_model
           patience_one_config masked_start 2 _ eq_refl
           ltac:(vm_compute; reflexivity) R).
Defined.

Lemma group_updates_one_component_witness :
  exists st',
    update_group Pm Cm fixed_oracle two_component_config 0
                 two_component_start 5 = Ok st' /\
    same_rows_but 1 (st_u two_component_start) (st_u st') /\
    same_rows_but 1 (st_v two_component_start) (st_v st') /\
    same_rows_but 1 (st_w two_component_start) (st_w st') /\
    same_rows_but 1 (st_u_s two_component_start) (st_u_s st') /\
    same_rows_but 1 (st_v_s two_component_start) (st_v_s st').
Proof.
  destruct (update_group Pm Cm fixed_oracle two_component_config 0
              two_component_start 5) as [st'|e] eqn:H;
    [|vm_compute in H; discriminate H].
  exists st'. split; [reflexivity|].
  apply (@group_updates_one_component Pm Cm fixed_oracle
           two_component_config 0 two_component_start st' 5 H).
Defined.

Lemma prevent_zeros_witness :
  _prevent_zeros fixed_oracle [ratio 0 1; lit_1e_9] 1
  = (map (random fixed_oracle) (seq 1 2), 3) /\
  _prevent_zeros fixed_oracle [ratio 0 1; ratio 1 2] 1
  = ([ratio 0 1; ratio 1 2], 1).
Proof.
  destruct (prevent_zeros_spec fixed_oracle [ratio 0 1; lit_1e_9] 1)
    as [_ [_ A]].
  destruct (prevent_zeros_spec fixed_oracle [ratio 0 1; ratio 1 2] 1)
    as [_ [B _]].
  split.
  - apply A. intros xi [<-|[<-|[]]]; vm_compute; discriminate.
  - apply B. exists (ratio 1 2).
    split; [right; left; reflexivity|vm_compute; reflexivity].
Defined.

Lemma search_never_worse_witness :
  (0 < 5)%Z /\
  Qcle
    (total_loss Pm Cm [[ratio 1 1; ratio 2 1]] (ratio 1 1) [ratio 1 1]
       [ratio 0 1] [ratio 1 1; ratio 1 1] false 1 2
       (fst (_fit_shift Pm Cm fixed_oracle [[ratio 1 1; ratio 2 1]]
               (ratio 1 1) [ratio 1 1] [ratio 0 1] [ratio 1 1; ratio 1 1]
               (ratio 1 5) false 5 (ratio 1 2) 1 2 0)))
    (total_loss Pm Cm [[ratio 1 1; ratio 2 1]] (ratio 1 1) [ratio 1 1]
       [ratio 0 1] [ratio 1 1; ratio 1 1] false 1 2 (ratio 1 2)).
Proof.
  assert (H : (0 < 5)%Z) by reflexivity.
  split; [exact H|].
  apply (@search_never_worse_than_seed Pm Cm fixed_oracle
           [[ratio 1 1; ratio 2 1]] (ratio 1 1) [ratio 1 1] [ratio 0 1]
           [ratio 1 1; ratio 1 1] (ratio 1 5) false (ratio 1 2) 1 2 5 0 H).
Defined.

Lemma seed_kept_witness :
  (0 < 5)%Z /\
  fst (_fit_shift Pm Cm fixed_oracle [[ratio 1 1; ratio 2 1]] (ratio 0 1)
         [ratio 1 1] [ratio 0 1] [ratio 1 1; ratio 1 1] (ratio 1 5)
         false 5 (ratio 1 2) 1 2 0)
  = ratio 1 2.
Proof.
  assert (H : (0 < 5)%Z) by reflexivity.
  split; [exact H|].
  apply (@seed_kept_when_loss_is_flat Pm Cm fixed_oracle
           [[ratio 1 1; ratio 2 1]] (ratio 0 1) [ratio 1 1] [ratio 0 1]
           [ratio 1 1; ratio 1 1] (ratio 1 5) false (ratio 1 2) 1 2 5 0 H).
  left. reflexivity.
Defined.

Lemma predict_leave_one_out_witness :
  let st := two_component_start in
  get3 (predict Pm Cm (st_u st) (st_v st) (st_w st) (st_u_s st) (st_v_s st)
          true 1 2 3 (-1)) 0 1 2
  = (get3 (predict Pm Cm (st_u st) (st_v st) (st_w st) (st_u_s st)
             (st_v_s st) true 1 2 3 (Z.of_nat 1)) 0 1 2
     + get1 (shifted Pm Cm true (row (st_w st) 1)
               (get2 (st_u_s st) 1 0 + get2 (st_v_s st) 1 1)%Qc 3) 2
       * get2 (st_u st) 1 0 * get2 (st_v st) 1 1)%Qc.
Proof.
  cbv zeta.
  apply (@predict_leave_one_out Pm Cm (st_u two_component_start)
           (st_v two_component_start) (st_w two_component_start)
           (st_u_s two_component_start) (st_v_s two_component_start)
           true 3 1 2 1 0 1 2); simpl; lia.
Defined.

Lemma sign_flip_witness :
  all_negative (row (st_u negative_u_start) 0) = true /\
  st_w (finish_u fixed_oracle (defaults X_negative false) 0 negative_u_start)
  = upd 0 (vneg (row (st_w negative_u_start) 0)) (st_w negative_u_start) /\
  get3 (estimate Pm Cm (defaults X_negative false)
          (finish_u fixed_oracle (defaults X_negative false) 0
                    negative_u_start) (-1)) 0 0 1
  = get3 (estimate Pm Cm (defaults X_negative false) negative_u_start (-1))
         0 0 1.
Proof.
  assert (H : all_negative (row (st_u negative_u_start) 0) = true)
    by reflexivity.
  split; [exact H|].
  apply (@sign_flip_keeps_estimate Pm Cm fixed_oracle
           (defaults X_negative false)
           (fun x s n => padded_model_shift_is_odd x s n)
           0 negative_u_start (-1) 0 0 1 H).
  - exists (ratio (-1) 1).
    split; [left; reflexivity|vm_compute; reflexivity].
  - simpl. lia.
  - simpl. lia.
  - simpl. lia.
  - simpl. lia.
Defined.

Lemma sign_flip_v_witness :
  all_negative (row (st_v negative_v_start) 0) = true /\
  st_w (finish_v fixed_oracle (defaults X_negative false) 0 negative_v_start)
  = upd 0 (vneg (row (st_w negative_v_start) 0)) (st_w negative_v_start) /\
  get3 (estimate Pm Cm (defaults X_negative false)
          (finish_v fixed_oracle (defaults X_negative false) 0
                    negative_v_start) (-1)) 0 0 1
  = get3 (estimate Pm Cm (defaults X_negative false) negative_v_start (-1))
         0 0 1.
Proof.
  assert (H : all_negative (row (st_v negative_v_start) 0) = true)
    by reflexivity.
  split; [exact H|].
  apply (@sign_flip_v_keeps_estimate Pm Cm fixed_oracle
           (defaults X_negative false)
           (fun x s n => padded_model_shift_is_odd x s n)
           0 negative_v_start (-1) 0 0 1 H).
  - exists (ratio (-1) 1).
    split; [left; reflexivity|vm_compute; reflexivity].
  - simpl. lia.
  - simpl. lia.
  - simpl. lia.
  - simpl. lia.
Defined.

Lemma padded_temporal_update_never_raises_witness :
  2 <= dim_T (defaults X_negative false) /\
  (lit_1e_8
   <= lipschitz (defaults X_negative false)
        (fst (padded_system Pm (defaults X_negative false) X_negative 0
                (ones X_negative))))%Qc /\
  exists st',
    update_w_padded Pm (defaults X_negative false) X_negative 0
                    (ones X_negative) = Ok st'.
Proof.
  assert (H : 2 <= dim_T (defaults X_negative false)) by (simpl; lia).
  split; [exact H|].
  apply (@padded_temporal_update_never_raises Pm (defaults X_negative false)
           padded_model_gram_nonneg X_negative 0 (ones X_negative) H).
Defined.

Lemma predict_skip_out_of_range_witness :
  let st := two_component_start in
  get3 (predict Pm Cm (st_u st) (st_v st) (st_w st) (st_u_s st) (st_v_s st)
          true 1 2 3 2) 0 1 2
  = get3 (predict Pm Cm (st_u st) (st_v st) (st_w st) (st_u_s st)
            (st_v_s st) true 1 2 3 (-1)) 0 1 2.
Proof.
  cbv zeta.
  apply (@predict_skip_out_of_range Pm Cm (st_u two_component_start)
           (st_v two_component_start) (st_w two_component_start)
           (st_u_s two_component_start) (st_v_s two_component_start)
           true 3 1 2 2 0 1 2); simpl; lia.
Defined.

Lemma divisions_witness :
  set_v_entry Pm Cm (defaults X_negative false) X_negative 0 collapsed 0
  = Raise ZeroDivisionError /\
  (lit_1e_8
   <= lipschitz (defaults X_negative false)
        (fst (padded_system Pm (defaults X_negative false) X_negative 0
                (ones X_negative))))%Qc.
Proof.
  destruct (only_step_size_is_guarded Pm Cm fixed_oracle norm_model
              (defaults X_negative false) X_negative 0 0 collapsed)
    as [_ [V _]].
  destruct (only_step_size_is_guarded Pm Cm fixed_oracle norm_model
              (defaults X_negative false) X_negative 0 0 (ones X_negative))
    as [_ [_ [_ [_ [_ S]]]]].
  split.
  - apply V. apply Qc_is_canon. vm_compute. reflexivity.
  - apply S; [simpl; lia|exact padded_model_gram_nonneg].
Defined.

Lemma no_validation_witness :
  fit_shift_cp2 Pm Cm fixed_oracle norm_model invalid_config mismatched_start
  = Ok (st_u mismatched_start, st_v mismatched_start, st_w mismatched_start,
        st_u_s mismatched_start, st_v_s mismatched_start, []) /\
  (rank invalid_config_one_pass <= 0)%Z /\
  exists hist,
    fit_shift_cp2 Pm Cm fixed_oracle norm_model invalid_config_one_pass
                  (ones X_positive)
    = Ok (st_u (ones X_positive), st_v (ones X_positive),
          st_w (ones X_positive), st_u_s (ones X_positive),
          st_v_s (ones X_positive), hist) /\
    1 <= length hist.
Proof.
  destruct (no_validation_at_entry Pm Cm fixed_oracle norm_model
              invalid_config mismatched_start) as [A _].
  destruct (no_validation_at_entry Pm Cm fixed_oracle norm_model
              invalid_config_one_pass (ones X_positive)) as [_ [B _]].
  assert (Hr : (rank invalid_config_one_pass <= 0)%Z)
    by (vm_compute; discriminate).
  split; [apply A; vm_compute; discriminate|].
  split; [exact Hr|].
  destruct B as [hist [E [_ L]]].
  - exact Hr.
  - intro g. apply perm_nil.
  - split; [split; [reflexivity|repeat constructor]|].
    repeat split; repeat constructor.
  - intro H. apply (f_equal this) in H. vm_compute in H. discriminate H.
  - vm_compute. discriminate.
  - exists hist. split; [exact E|]. apply L. reflexivity.
Defined.
